(** * Continuous-trigger masked-LM decoding (autoprompt/continuous_trigger_mlm.py)

    A shallow embedding of [forward_w_triggers], [decode] and the two
    evaluators, [ExactMatchEvaluator] and [MultipleChoiceEvaluator].

    - A tensor of rank two is a list of rows; the shape of a tensor is the
      list of its row lengths.  Token ids are integers.
    - Logit values are kept on an integer scale: [argmax] and [max] only use
      their order (no NaN), and return the first index among equal maxima.
      The suppression constant [-1e32] is [neg_huge].
    - Python objects live in a store: tensors and dicts are referred to by
      their index in the store, so that the in-place tensor updates of
      [decode] and the dict copy of [forward_w_triggers] are visible through
      every alias.
    - The underlying transformer is a record [Model]: its embedding lookup
      (total on token ids), its trigger parameters and its forward function,
      a function of the keyword arguments it is called with.  Every
      invocation of the forward function is logged in the state.
    - Operations of the tensor library raise as the library does: a mask or
      an index that does not fit raises [IndexError], a value that cannot be
      broadcast raises [RuntimeError].  A masked assignment broadcasts a
      value with a single row to every selected position.
    - In [decode], the unpacking [logits, *_ = ...] of the model output takes
      its logits: no labels are passed, so the output starts with them.
    - The evaluators are given the gold labels as a tensor of the store.
      Comparisons of tensors broadcast along a dimension of size one.  The
      tokenizer and the floating-point functions of the loss (log-softmax
      of a row, negated mean) are parameters. *)

From stdpp Require Import gmap strings list fin_maps.
From Stdlib Require Import ZArith Lia Sorted.

Open Scope string_scope.
Open Scope Z_scope.
Open Scope nat_scope.
Open Scope list_scope.

(** ** Errors *)

Inductive exn :=
| AssertionError
| KeyError (k : string)
| IndexError
| RuntimeError      (* shape mismatch raised by a tensor operation *)
| TypeError         (* a tensor of another dtype than the operation expects *)
| ValueError
| Dangling.         (* a reference to no object: not reachable from Python *)

Inductive result (A : Type) :=
| Ok (a : A)
| Raise (e : exn).
Arguments Ok {A} a.
Arguments Raise {A} e.

(** A result other than the assertion error. *)
Abbreviation quiet r := (r ≠ Raise AssertionError) (only parsing).

Definition rbind {A B} (r : result A) (k : A → result B) : result B :=
  match r with Ok a => k a | Raise e => Raise e end.

Fixpoint rmapM {A B} (f : A → result B) (l : list A) : result (list B) :=
  match l with
  | [] => Ok []
  | x :: l' => rbind (f x) (λ y, rbind (rmapM f l') (λ ys, Ok (y :: ys)))
  end.

(** ** Pure tensor operations *)

Definition neg_huge : Z := (- 10 ^ 32)%Z.
Definition ignore_label : Z := (-100)%Z.

Definition shape2 {A} (t : list (list A)) : list nat := length <$> t.

(** [torch.zeros_like(t).fill_(v)] *)
Definition full_like {A B} (t : list (list A)) (v : B) : list (list B) :=
  (λ row : list A, (λ _, v) <$> row) <$> t.

(** [mask.nonzero()]: the indices of the true entries, in row-major order. *)
Fixpoint row_nonzero (j : nat) (r : list bool) : list nat :=
  match r with
  | [] => []
  | b :: r' => (if b then [j] else []) ++ row_nonzero (S j) r'
  end.

Fixpoint nonzero_from (i : nat) (m : list (list bool)) : list (nat * nat) :=
  match m with
  | [] => []
  | r :: m' => (pair i <$> row_nonzero 0 r) ++ nonzero_from (S i) m'
  end.

Definition nonzero (m : list (list bool)) : list (nat * nat) := nonzero_from 0 m.

(** [mask.sum().item()] *)
Definition row_sum (r : list bool) : nat :=
  foldr (λ (b : bool) n, if b then S n else n) 0 r.

Definition mask_sum (m : list (list bool)) : nat :=
  foldr (λ r n, row_sum r + n) 0 m.

(** [mask.nonzero()[0,1]] *)
Definition first_nonzero_col (m : list (list bool)) : result nat :=
  match nonzero m with
  | [] => Raise IndexError
  | (_, j) :: _ => Ok j
  end.

(** [t[mask]]: the entries selected by a mask of the same shape, row-major. *)
Fixpoint select_row {A} (mask : list bool) (row : list A) : list A :=
  match mask, row with
  | b :: mask', x :: row' => (if b then [x] else []) ++ select_row mask' row'
  | _, _ => []
  end.

Definition masked_select {A} (mask : list (list bool)) (t : list (list A))
  : result (list A) :=
  if decide (shape2 mask = shape2 t)
  then Ok (concat (zip_with select_row mask t))
  else Raise IndexError.

(** Writing consecutive values at the true entries of one row; returns the
    new row and the values left for the following rows. *)
Fixpoint put_row {A} (mask : list bool) (vals : list A) (row : list A)
  : list A * list A :=
  match mask, row with
  | b :: mask', x :: row' =>
      match b, vals with
      | true, v :: vals' =>
          let '(row'', rest) := put_row mask' vals' row' in (v :: row'', rest)
      | _, _ =>
          let '(row'', rest) := put_row mask' vals row' in (x :: row'', rest)
      end
  | _, _ => (row, vals)
  end.

Fixpoint put_rows {A} (mask : list (list bool)) (vals : list A)
  (t : list (list A)) : list (list A) :=
  match mask, t with
  | m :: mask', row :: t' =>
      let '(row', rest) := put_row m vals row in row' :: put_rows mask' rest t'
  | _, _ => t
  end.

(** Writing one value at every true entry. *)
Definition fill_rows {A} (mask : list (list bool)) (v : A) (t : list (list A))
  : list (list A) :=
  zip_with (zip_with (λ (b : bool) x, if b then v else x)) mask t.

(** [t[mask] = vals]: the mask has the shape of [t]; [vals] has one entry
    per true entry of the mask, or is a single entry that is broadcast. *)
Definition index_put_mask {A} (mask : list (list bool)) (vals : list A)
  (t : list (list A)) : result (list (list A)) :=
  if decide (shape2 mask = shape2 t) then
    if decide (length vals = mask_sum mask) then Ok (put_rows mask vals t)
    else match vals with
         | [v] => Ok (fill_rows mask v t)
         | _ => Raise RuntimeError
         end
  else Raise IndexError.

(** [argmax] of a vector: the index of the first maximal value. *)
Fixpoint argmax_from (best_i : nat) (best : Z) (i : nat) (l : list Z) : nat :=
  match l with
  | [] => best_i
  | x :: l' =>
      if (best <? x)%Z then argmax_from i x (S i) l'
      else argmax_from best_i best (S i) l'
  end.

Definition argmax (l : list Z) : result nat :=
  match l with
  | [] => Raise IndexError
  | x :: l' => Ok (argmax_from 0 x 1 l')
  end.

Definition max_value (l : list Z) : result Z :=
  match l with
  | [] => Raise IndexError
  | x :: l' => Ok (foldl Z.max x l')
  end.

(** [logits.argmax(dim=-1)] and [torch.max(logits, dim=-1)] *)
Definition argmax_last (logits : list (list (list Z))) : result (list (list nat)) :=
  rmapM (rmapM argmax) logits.

Definition max_last (logits : list (list (list Z))) : result (list (list Z)) :=
  rmapM (rmapM max_value) logits.

(** [t[:, idx]] for an integer [idx] *)
Definition select_col {A} (idx : nat) (t : list (list A)) : result (list A) :=
  rmapM (λ row, match row !! idx with
                | Some x => Ok x
                | None => Raise IndexError
                end) t.

(** [t[:, idx] = vals] for an integer [idx] and one value per row *)
Definition put_col {A} (idx : nat) (v : A) (row : list A) : result (list A) :=
  if decide (idx < length row) then Ok (<[idx := v]> row) else Raise IndexError.

Definition setitem_col {A} (idx : nat) (vals : list A) (t : list (list A))
  : result (list (list A)) :=
  if decide (length vals = length t)
  then rmapM (λ p, put_col idx p.1 p.2) (zip vals t)
  else Raise RuntimeError.

(** [t[:, idx] = v] for an integer [idx] and a scalar [v] *)
Definition fill_col {A} (idx : nat) (v : A) (t : list (list A))
  : result (list (list A)) :=
  rmapM (put_col idx v) t.

(** [t[:, idx]] for an index tensor [idx]: row [i] of the result is
    [t[i][idx[0]], t[i][idx[1]], ...]. *)
Definition select_cols {A} (idx : list nat) (t : list (list A))
  : result (list (list A)) :=
  rmapM (λ row, rmapM (λ j, match row !! j with
                            | Some x => Ok x
                            | None => Raise IndexError
                            end) idx) t.

(** [t[:, idx] = vals] for an index tensor [idx]: [t[i][idx[k]] = vals[i][k]]. *)
Fixpoint put_cols {A} (idx : list nat) (vals : list A) (row : list A)
  : result (list A) :=
  match idx, vals with
  | j :: idx', v :: vals' => rbind (put_col j v row) (put_cols idx' vals')
  | [], [] => Ok row
  | _, _ => Raise RuntimeError
  end.

Definition setitem_cols {A} (idx : list nat) (vals : list (list A))
  (t : list (list A)) : result (list (list A)) :=
  if decide (length vals = length t)
  then rmapM (λ p, put_cols idx p.1 p.2) (zip vals t)
  else Raise RuntimeError.

(** [t[:, idx] = v] for an index tensor [idx] and a scalar [v] *)
Definition fill_cols {A} (idx : list nat) (v : A) (t : list (list A))
  : result (list (list A)) :=
  rmapM (λ row, put_cols idx ((λ _, v) <$> idx) row) t.

(** [logits[~predict_mask] = -1e32]: every vocabulary entry of a position
    outside the predict mask is overwritten. *)
Definition suppress (predict_mask : list (list bool))
  (logits : list (list (list Z))) : result (list (list (list Z))) :=
  if decide (shape2 predict_mask = shape2 logits)
  then Ok (zip_with (zip_with (λ (b : bool) (v : list Z),
                                 if b then v else (λ _, neg_huge) <$> v))
             predict_mask logits)
  else Raise IndexError.

(** ** The store, the model and the state monad *)

Section Decoder.

Context {E : Type}.

Inductive tensor :=
| LongT (v : list (list Z))
| BoolT (v : list (list bool))
| FloatT (v : list (list E)).

(** What the underlying model returns: the loss when labels are given, and
    the logits. *)
Record output := { out_loss : option Z; out_logits : list (list (list Z)) }.

Record Model := {
  embeds : Z → E;
  relation_embeds : list E;
  forward : gmap string tensor → option (list (list Z)) → output
}.

Inductive event :=
| Forward (kwargs : gmap string tensor) (labels : option (list (list Z))).

Record state := {
  tensors : list tensor;
  dicts : list (gmap string nat);
  trace : list event
}.

Definition M (A : Type) : Type := state → result A * state.

Definition ret {A} (a : A) : M A := λ s, (Ok a, s).

Definition bind {A B} (m : M A) (k : A → M B) : M B :=
  λ s, match m s with
       | (Ok a, s') => k a s'
       | (Raise e, s') => (Raise e, s')
       end.

Definition raise {A} (e : exn) : M A := λ s, (Raise e, s).

Definition lift {A} (r : result A) : M A := λ s, (r, s).

Notation "x ← m ; k" := (bind m (λ x, k))
  (at level 20, m at level 100, k at level 200, only parsing).
Notation "m ;; k" := (bind m (λ _, k))
  (at level 100, k at level 200, right associativity).

Definition alloc (t : tensor) : M nat :=
  λ s, (Ok (length (tensors s)),
        {| tensors := tensors s ++ [t]; dicts := dicts s; trace := trace s |}).

Definition load (l : nat) : M tensor :=
  λ s, match tensors s !! l with
       | Some t => (Ok t, s)
       | None => (Raise Dangling, s)
       end.

Definition store (l : nat) (t : tensor) : M unit :=
  λ s, (Ok tt,
        {| tensors := <[l := t]> (tensors s); dicts := dicts s; trace := trace s |}).

Definition load_long (l : nat) : M (list (list Z)) :=
  t ← load l;
  match t with LongT v => ret v | _ => raise TypeError end.

Definition load_bool (l : nat) : M (list (list bool)) :=
  t ← load l;
  match t with BoolT v => ret v | _ => raise TypeError end.

Definition load_float (l : nat) : M (list (list E)) :=
  t ← load l;
  match t with FloatT v => ret v | _ => raise TypeError end.

(** [d.copy()] *)
Definition dict_copy (d : nat) : M nat :=
  λ s, match dicts s !! d with
       | Some m => (Ok (length (dicts s)),
                    {| tensors := tensors s; dicts := dicts s ++ [m];
                       trace := trace s |})
       | None => (Raise Dangling, s)
       end.

(** [d[k]] *)
Definition dict_get (d : nat) (k : string) : M nat :=
  λ s, match dicts s !! d with
       | Some m => match m !! k with
                   | Some l => (Ok l, s)
                   | None => (Raise (KeyError k), s)
                   end
       | None => (Raise Dangling, s)
       end.

(** [d.pop(k)] *)
Definition dict_pop (d : nat) (k : string) : M nat :=
  λ s, match dicts s !! d with
       | Some m => match m !! k with
                   | Some l => (Ok l,
                                {| tensors := tensors s;
                                   dicts := <[d := delete k m]> (dicts s);
                                   trace := trace s |})
                   | None => (Raise (KeyError k), s)
                   end
       | None => (Raise Dangling, s)
       end.

(** [d[k] = l] *)
Definition dict_set (d : nat) (k : string) (l : nat) : M unit :=
  λ s, match dicts s !! d with
       | Some m => (Ok tt,
                    {| tensors := tensors s;
                       dicts := <[d := <[k := l]> m]> (dicts s);
                       trace := trace s |})
       | None => (Raise Dangling, s)
       end.

(** Calling the model with the entries of a dict as keyword arguments:
    they are the tensors the dict refers to. *)
Definition kwargs_of (ts : list tensor) (m : gmap string nat) : gmap string tensor :=
  omap (λ l, ts !! l) m.

Definition call_model (model : Model) (d : nat)
  (labels : option (list (list Z))) : M output :=
  λ s, match dicts s !! d with
       | Some m =>
           let kw := kwargs_of (tensors s) m in
           (Ok (forward model kw labels),
            {| tensors := tensors s; dicts := dicts s;
               trace := trace s ++ [Forward kw labels] |})
       | None => (Raise Dangling, s)
       end.

(** ** forward_w_triggers *)

Definition forward_w_triggers (model : Model) (model_inputs : nat)
  (labels : option (list (list Z))) : M output :=
  model_inputs ← dict_copy model_inputs;
  trigger_mask ← dict_pop model_inputs "trigger_mask";
  predict_mask ← dict_pop model_inputs "predict_mask";
  input_ids ← dict_pop model_inputs "input_ids";
  ids ← load_long input_ids;
  let batch_size := length ids in
  inputs_embeds ← alloc (FloatT ((λ row : list Z, embeds model <$> row) <$> ids));
  tm ← load_bool trigger_mask;
  e ← load_float inputs_embeds;
  e' ← lift (index_put_mask tm
               (concat (replicate batch_size (relation_embeds model))) e);
  store inputs_embeds (FloatT e');;
  dict_set model_inputs "inputs_embeds" inputs_embeds;;
  call_model model model_inputs labels.

(** ** decode *)

Definition to_ids (p : list nat) : list Z := Z.of_nat <$> p.

Fixpoint monotonic_loop (model : Model) (model_inputs predict_mask input_ids
  output : nat) (iterations : nat) : M unit :=
  match iterations with
  | 0 => ret tt
  | S n =>
      out ← forward_w_triggers model model_inputs None;
      let logits := out_logits out in
      pm ← load_bool predict_mask;
      idx ← lift (first_nonzero_col pm);
      col ← lift (select_col idx logits);
      pred ← lift (rmapM argmax col);
      ids ← load_long input_ids;
      ids' ← lift (setitem_col idx (to_ids pred) ids);
      store input_ids (LongT ids');;
      o ← load_long output;
      o' ← lift (setitem_col idx (to_ids pred) o);
      store output (LongT o');;
      pm ← load_bool predict_mask;
      pm' ← lift (fill_col idx false pm);
      store predict_mask (BoolT pm');;
      monotonic_loop model model_inputs predict_mask input_ids output n
  end.

Fixpoint iterative_loop (model : Model) (model_inputs predict_mask input_ids
  output : nat) (iterations : nat) : M unit :=
  match iterations with
  | 0 => ret tt
  | S n =>
      out ← forward_w_triggers model model_inputs None;
      pm ← load_bool predict_mask;
      logits ← lift (suppress pm (out_logits out));
      top_scores ← lift (max_last logits);
      preds ← lift (argmax_last logits);
      idx ← lift (rmapM argmax top_scores);
      pred ← lift (select_cols idx preds);
      ids ← load_long input_ids;
      ids' ← lift (setitem_cols idx (to_ids <$> pred) ids);
      store input_ids (LongT ids');;
      o ← load_long output;
      o' ← lift (setitem_cols idx (to_ids <$> pred) o);
      store output (LongT o');;
      pm ← load_bool predict_mask;
      pm' ← lift (fill_cols idx false pm);
      store predict_mask (BoolT pm');;
      iterative_loop model model_inputs predict_mask input_ids output n
  end.

Definition decode (model : Model) (model_inputs : nat)
  (decoding_strategy : string) : M nat :=
  if bool_decide (decoding_strategy ∈ ["parallel"; "monotonic"; "iterative"])
  then
    l ← dict_get model_inputs "input_ids";
    ids ← load_long l;
    output ← alloc (LongT (full_like ids ignore_label));
    if decide (decoding_strategy = "parallel") then
      predict_mask ← dict_get model_inputs "predict_mask";
      out ← forward_w_triggers model model_inputs None;
      preds ← lift (argmax_last (out_logits out));
      pm ← load_bool predict_mask;
      sel ← lift (masked_select pm (to_ids <$> preds));
      o ← load_long output;
      o' ← lift (index_put_mask pm sel o);
      store output (LongT o');;
      ret output
    else if decide (decoding_strategy = "monotonic") then
      predict_mask ← dict_get model_inputs "predict_mask";
      input_ids ← dict_get model_inputs "input_ids";
      pm ← load_bool predict_mask;
      let iterations := mask_sum pm in
      monotonic_loop model model_inputs predict_mask input_ids output iterations;;
      ret output
    else if decide (decoding_strategy = "iterative") then
      predict_mask ← dict_get model_inputs "predict_mask";
      input_ids ← dict_get model_inputs "input_ids";
      pm ← load_bool predict_mask;
      let iterations := mask_sum pm in
      iterative_loop model model_inputs predict_mask input_ids output iterations;;
      ret output
    else raise ValueError
  else raise AssertionError.

End Decoder.

Arguments tensor : clear implicits.
Arguments Model : clear implicits.
Arguments state : clear implicits.
Arguments event : clear implicits.
Arguments M : clear implicits.

(** ** Total versions of the reductions, for stating results *)

Definition argmax_total (l : list Z) : nat :=
  match l with
  | [] => 0
  | x :: l' => argmax_from 0 x 1 l'
  end.

Definition max_total (l : list Z) : Z :=
  match l with
  | [] => 0%Z
  | x :: l' => foldl Z.max x l'
  end.

(** Entry by entry, the new value where the mask is true, the old one
    elsewhere. *)
Definition choose_row {A} (m : list bool) (new old : list A) : list A :=
  zip_with (λ (b : bool) (p : A * A), if b then p.1 else p.2) m (zip new old).

Definition choose {A} (mask : list (list bool)) (new old : list (list A))
  : list (list A) :=
  zip_with (λ m (p : list A * list A), choose_row m p.1 p.2) mask (zip new old).

(** The output buffer of the parallel strategy: at a predict position the
    index of the largest logit, elsewhere the ignore label. *)
Definition parallel_output (pm : list (list bool)) (logits : list (list (list Z)))
  : list (list Z) :=
  zip_with (zip_with (λ (b : bool) (v : list Z),
                        if b then Z.of_nat (argmax_total v) else ignore_label))
    pm logits.

(** The postcondition of [decode]: the output buffer has the shape of the
    predict mask, holds a token id at every position that is true in the
    mask and the ignore label at every other position. *)
Definition resolved (pm : list (list bool)) (out : list (list Z)) : Prop :=
  shape2 out = shape2 pm ∧
  ∀ i j (b : bool), pm !! i ≫= (.!! j) = Some b →
    ∃ t, out !! i ≫= (.!! j) = Some t ∧
         if b then (0 ≤ t)%Z else t = ignore_label.

(** One row of [suppress]. *)
Definition suppress_row (mrow : list bool) (lrow : list (list Z)) : list (list Z) :=
  zip_with (λ (b : bool) (v : list Z), if b then v else (λ _, neg_huge) <$> v)
    mrow lrow.

(** The entry of a tensor at row [i] and column [j]. *)
Definition ent {A} (t : list (list A)) (i j : nat) : option A :=
  t !! i ≫= (.!! j).

(** A row after writes at the columns [cols]: the other entries are as they
    were, the entries at [cols] satisfy [P]. *)
Definition row_update {A} (cols : list nat) (P : A → Prop) (row row' : list A)
  : Prop :=
  length row' = length row ∧
  ∀ j, (j ∉ cols → row' !! j = row !! j) ∧
       (j ∈ cols → ∀ v, row' !! j = Some v → P v).

Definition rows_agree {A} (cols : list nat) (ra rb : list A) : Prop :=
  ∀ j, j ∈ cols → ra !! j = rb !! j.

(** The rows of a tensor taken in the order of the index list [σ]. *)
Fixpoint take_rows {A} (σ : list nat) (t : list A) : list A :=
  match σ with
  | [] => []
  | i :: σ' =>
      match t !! i with
      | Some r => r :: take_rows σ' t
      | None => take_rows σ' t
      end
  end.

(** ** Definitions used to state the properties *)

Section Statements.
Context {E : Type}.

(** The private dict of [forward_w_triggers] after its three pops. *)
Definition popped (m : gmap string nat) : gmap string nat :=
  delete "input_ids" (delete "predict_mask" (delete "trigger_mask" m)).

(** [model.embeds(input_ids)] *)
Definition embedded (model : Model E) (ids : list (list Z)) : list (list E) :=
  (λ row : list Z, embeds model <$> row) <$> ids.

(** [model.relation_embeds.repeat((batch_size, 1))] *)
Definition trigger_values (model : Model E) (ids : list (list Z)) : list E :=
  concat (replicate (length ids) (relation_embeds model)).

(** The state holds an input bundle: the dict [d] has the three entries
    the code reads, they refer to tensors of the dtypes the collator
    builds, no other entry of the dict shares the two tensors that [decode]
    updates in place, and every entry refers to a tensor of the store. *)
Record bundle_at (s : state E) (d : nat) (m : gmap string nat)
  (il pl tl : nat) (ids : list (list Z)) (pm tm : list (list bool)) : Prop := {
  b_dict : dicts s !! d = Some m;
  b_input_ids : m !! "input_ids" = Some il;
  b_predict_mask : m !! "predict_mask" = Some pl;
  b_trigger_mask : m !! "trigger_mask" = Some tl;
  b_ids : tensors s !! il = Some (LongT ids);
  b_pm : tensors s !! pl = Some (BoolT pm);
  b_tm : tensors s !! tl = Some (BoolT tm);
  b_distinct : tl ≠ pl;
  b_others : ∀ k l, popped m !! k = Some l →
               l < length (tensors s) ∧ l ≠ il ∧ l ≠ pl
}.

(** The keyword arguments other than the embeddings: the entries of the
    bundle that [forward_w_triggers] passes on unchanged. *)
Definition rest_kwargs (s : state E) (m : gmap string nat) : gmap string (tensor E) :=
  kwargs_of (tensors s) (popped m).

(** The trigger mask selects as many positions as there are rows in the
    repeated trigger parameters, or these are a single row. *)
Definition triggers_fit (model : Model E) (tm : list (list bool))
  (ids : list (list Z)) : Prop :=
  shape2 tm = shape2 ids ∧
  (mask_sum tm = length ids * length (relation_embeds model) ∨
   length ids * length (relation_embeds model) = 1).

(** The logits of the model have one non-empty vocabulary vector per
    position of the embeddings it is given. *)
Definition model_shaped (model : Model E) : Prop :=
  ∀ kw e labels, kw !! "inputs_embeds" = Some (FloatT e) →
    shape2 (out_logits (forward model kw labels)) = shape2 e ∧
    Forall (Forall (λ v, v ≠ [])) (out_logits (forward model kw labels)).

(** Reordering the examples of a batch. *)
Definition tensor_rows (σ : list nat) (t : tensor E) : tensor E :=
  match t with
  | LongT v => LongT (take_rows σ v)
  | BoolT v => BoolT (take_rows σ v)
  | FloatT v => FloatT (take_rows σ v)
  end.

(** The forward pass of the model works row by row: permuting the examples
    of its arguments permutes the rows of its logits. *)
Definition model_rowwise (model : Model E) : Prop :=
  ∀ σ kw e, kw !! "inputs_embeds" = Some (FloatT e) →
    σ ≡ₚ seq 0 (length e) →
    out_logits (forward model (tensor_rows σ <$> kw) None)
    = take_rows σ (out_logits (forward model kw None)).

(** At every position the largest logit of the model is above the
    suppression constant. *)
Definition model_above_suppression (model : Model E) : Prop :=
  ∀ kw labels,
    Forall (Forall (λ v, (neg_huge < max_total v)%Z))
      (out_logits (forward model kw labels)).

(** The embeddings with the triggers substituted, the keyword arguments and
    the logits of a forward pass over the token ids [ids]. *)
Definition embed_triggers (model : Model E) (tm : list (list bool))
  (ids : list (list Z)) : list (list E) :=
  match index_put_mask tm (trigger_values model ids) (embedded model ids) with
  | Ok e => e
  | Raise _ => []
  end.

Definition kwargs_for (model : Model E) (rest : gmap string (tensor E))
  (tm : list (list bool)) (ids : list (list Z)) : gmap string (tensor E) :=
  <["inputs_embeds" := FloatT (embed_triggers model tm ids)]> rest.

Definition logits_for (model : Model E) (rest : gmap string (tensor E))
  (tm : list (list bool)) (ids : list (list Z)) : list (list (list Z)) :=
  out_logits (forward model (kwargs_for model rest tm ids) None).

(** *** Decoding a bundle of one example

    The token committed at position [p], and the largest logit at position
    [q], when the token ids of the example are [x]. *)
Definition row_token (model : Model E) (rest : gmap string (tensor E))
  (tm : list (list bool)) (x : list Z) (p : nat) : Z :=
  match logits_for model rest tm [x] with
  | lrow :: _ =>
      match lrow !! p with
      | Some v => Z.of_nat (argmax_total v)
      | None => 0%Z
      end
  | [] => 0%Z
  end.

Definition row_top (model : Model E) (rest : gmap string (tensor E))
  (tm : list (list bool)) (x : list Z) (q : nat) : Z :=
  match logits_for model rest tm [x] with
  | lrow :: _ =>
      match lrow !! q with
      | Some v => max_total v
      | None => 0%Z
      end
  | [] => 0%Z
  end.

(** Committing the positions [ps] one after the other, in the order of the
    list: each step runs a forward pass over the current token ids [x], and
    writes the token it predicts at the position into the token ids and
    into the output buffer [o].  Returns the final token ids, the final
    output buffer and the log of the forward passes. *)
Fixpoint commit_in_order (model : Model E) (rest : gmap string (tensor E))
  (tm : list (list bool)) (ps : list nat) (x o : list Z) (tr : list (event E))
  : list Z * list Z * list (event E) :=
  match ps with
  | [] => (x, o, tr)
  | p :: ps' =>
      let t := row_token model rest tm x p in
      commit_in_order model rest tm ps' (<[p := t]> x) (<[p := t]> o)
        (tr ++ [Forward (kwargs_for model rest tm [x]) None])
  end.

(** Committing greedily: each step runs a forward pass over the current
    token ids, picks an open predict position whose largest logit is not
    below that of any other open position, commits the token predicted
    there and closes the position; it ends when no position is open. *)
Inductive greedy_commits (model : Model E) (rest : gmap string (tensor E))
  (tm : list (list bool))
  : list bool → list Z → list Z → list (event E) →
    list bool * list Z * list Z * list (event E) → Prop :=
| greedy_done mrow x o tr :
    row_sum mrow = 0 →
    greedy_commits model rest tm mrow x o tr (mrow, x, o, tr)
| greedy_commit mrow x o tr p fin :
    mrow !! p = Some true →
    (∀ q, mrow !! q = Some true →
          (row_top model rest tm x q ≤ row_top model rest tm x p)%Z) →
    greedy_commits model rest tm (<[p := false]> mrow)
      (<[p := row_token model rest tm x p]> x)
      (<[p := row_token model rest tm x p]> o)
      (tr ++ [Forward (kwargs_for model rest tm [x]) None]) fin →
    greedy_commits model rest tm mrow x o tr fin.

(** ** The decoding loops on the values of the three tensors

    The loops of [decode] read and write three tensors of the store; the
    functions below are the same loops on the values of these tensors. *)

Record dstate := {
  d_ids : list (list Z);
  d_mask : list (list bool);
  d_out : list (list Z);
  d_trace : list (event E)
}.

Definition value_forward (model : Model E) (rest : gmap string (tensor E))
  (tm : list (list bool)) (st : dstate)
  : result (list (list (list Z)) * dstate) :=
  rbind (index_put_mask tm (trigger_values model (d_ids st))
           (embedded model (d_ids st)))
    (λ e', let kw := <["inputs_embeds" := FloatT e']> rest in
           Ok (out_logits (forward model kw None),
               {| d_ids := d_ids st; d_mask := d_mask st; d_out := d_out st;
                  d_trace := d_trace st ++ [Forward kw None] |})).

Definition monotonic_step (model : Model E) (rest : gmap string (tensor E))
  (tm : list (list bool)) (st : dstate) : result dstate :=
  rbind (value_forward model rest tm st) (λ r,
  rbind (first_nonzero_col (d_mask r.2)) (λ idx,
  rbind (select_col idx r.1) (λ col,
  rbind (rmapM argmax col) (λ pred,
  rbind (setitem_col idx (to_ids pred) (d_ids r.2)) (λ ids',
  rbind (setitem_col idx (to_ids pred) (d_out r.2)) (λ o',
  rbind (fill_col idx false (d_mask r.2)) (λ pm',
  Ok {| d_ids := ids'; d_mask := pm'; d_out := o';
        d_trace := d_trace r.2 |}))))))).

Definition iterative_step (model : Model E) (rest : gmap string (tensor E))
  (tm : list (list bool)) (st : dstate) : result dstate :=
  rbind (value_forward model rest tm st) (λ r,
  rbind (suppress (d_mask r.2) r.1) (λ logits,
  rbind (max_last logits) (λ top_scores,
  rbind (argmax_last logits) (λ preds,
  rbind (rmapM argmax top_scores) (λ idx,
  rbind (select_cols idx preds) (λ pred,
  rbind (setitem_cols idx (to_ids <$> pred) (d_ids r.2)) (λ ids',
  rbind (setitem_cols idx (to_ids <$> pred) (d_out r.2)) (λ o',
  rbind (fill_cols idx false (d_mask r.2)) (λ pm',
  Ok {| d_ids := ids'; d_mask := pm'; d_out := o';
        d_trace := d_trace r.2 |}))))))))).

Fixpoint iterate (step : dstate → result dstate) (n : nat) (st : dstate)
  : result dstate :=
  match n with
  | 0 => Ok st
  | S n' => rbind (step st) (iterate step n')
  end.

End Statements.

Arguments dstate : clear implicits.

(** ** The store during a call of [decode]

    [s0] is the state at the call, [s] a later state: the caller's dicts are
    unchanged, every tensor of [s0] other than the token ids and the predict
    mask is unchanged, and the three tensors of the loops hold the values of
    [st].  The output buffer is the first tensor allocated after [s0]. *)

Section Representation.
Context {E : Type}.

Record repr (s0 : state E) (il pl : nat) (s : state E) (st : dstate E) : Prop := {
  r_dicts : dicts s0 `prefix_of` dicts s;
  r_frame : ∀ l, l < length (tensors s0) → l ≠ il → l ≠ pl →
              tensors s !! l = tensors s0 !! l;
  r_ids : tensors s !! il = Some (LongT (d_ids st));
  r_mask : tensors s !! pl = Some (BoolT (d_mask st));
  r_out : tensors s !! length (tensors s0) = Some (LongT (d_out st));
  r_trace : trace s = d_trace st
}.

(** The values of the loops after commits at the columns [cols], in every
    row: token ids and output buffer hold the same tokens there and the
    predict mask is false there; the other columns are as at the call. *)
Record columns_inv (cols : list nat) (ids0 out0 : list (list Z))
  (pm0 : list (list bool)) (st : dstate E) : Prop := {
  ci_ids : Forall2 (row_update cols (λ _, True)) ids0 (d_ids st);
  ci_out : Forall2 (row_update cols (λ t, (0 ≤ t)%Z)) out0 (d_out st);
  ci_mask : Forall2 (row_update cols (λ b, b = false)) pm0 (d_mask st);
  ci_agree : Forall2 (rows_agree cols) (d_ids st) (d_out st)
}.

(** A computation that does not raise the assertion error. *)
Definition no_assert {A} (m : M E A) : Prop := ∀ s, quiet (m s).1.

(** The state and the values of the loops once [decode] has allocated its
    output buffer. *)
Definition entry_state (s0 : state E) (ids0 : list (list Z)) : state E :=
  {| tensors := tensors s0 ++ [LongT (full_like ids0 ignore_label)];
     dicts := dicts s0; trace := trace s0 |}.

Definition entry_values (s0 : state E) (ids0 : list (list Z))
  (pm0 : list (list bool)) : dstate E :=
  {| d_ids := ids0; d_mask := pm0; d_out := full_like ids0 ignore_label;
     d_trace := trace s0 |}.

End Representation.

(** The number of rows of a mask that are true at column [j]. *)
Definition col_count (j : nat) (m : list (list bool)) : nat :=
  length (filter (λ r : list bool, r !! j = Some true) m).

(** ** The evaluators *)

(** Broadcasting along one dimension: lists of equal length are combined
    entry by entry, a list of length one is repeated along the other. *)
Definition broadcast_with {A B C} (f : A → B → result C) (x : list A)
  (y : list B) : result (list C) :=
  if decide (length x = length y) then rmapM (λ p, f p.1 p.2) (zip x y)
  else match x, y with
       | [a], _ => rmapM (f a) y
       | _, [b] => rmapM (λ a, f a b) x
       | _, _ => Raise RuntimeError
       end.

(** [x == y] and [x.eq(y)] on tensors of rank two *)
Definition eq_tensor (x y : list (list Z)) : result (list (list bool)) :=
  broadcast_with (broadcast_with (λ a b : Z, Ok (bool_decide (a = b)))) x y.

(** [t.all().item()] *)
Definition all_true (t : list (list bool)) : bool := forallb (forallb id) t.

(** The tokenizer, called on a list of words with [return_tensors='pt']:
    the token ids of the words, one row per word, or an error. *)
Definition Tokenizer : Type := list string → result (list (list Z)).

Module ExactMatchEvaluator.
Section WithModel.
Context {E : Type}.

Notation "x ← m ; k" := (bind m (λ x, k))
  (at level 20, m at level 100, k at level 200, only parsing).

Record t := {
  _model : Model E;
  _tokenizer : Tokenizer;
  _decoding_strategy : string
}.

Definition __init__ (model : Model E) (tokenizer : Tokenizer)
  (decoding_strategy : string) : t :=
  {| _model := model; _tokenizer := tokenizer;
     _decoding_strategy := decoding_strategy |}.

(** The clone of the predict mask is a new tensor of the store; [labels]
    refers to the tensor of the gold labels. *)
Definition __call__ (self : t) (model_inputs : nat) (labels : nat) : M E bool :=
  l ← dict_get model_inputs "predict_mask";
  x ← load l;
  predict_mask ← alloc x;
  preds ← decode (_model self) model_inputs (_decoding_strategy self);
  p ← load_long preds;
  lb ← load_long labels;
  eq ← lift (eq_tensor p lb);
  ret (all_true eq).

End WithModel.
End ExactMatchEvaluator.

(** [input.gather(-1, index)] on tensors of rank two: row [i] of the result
    holds [input[i][index[i][k]]] for every [k].  The index has no more rows
    than the input, and an index outside a row raises. *)
Definition gather_row {A} (row : list A) (index : list Z) : result (list A) :=
  rmapM (λ z : Z,
           if decide (0 ≤ z)%Z then
             match row !! Z.to_nat z with
             | Some x => Ok x
             | None => Raise RuntimeError
             end
           else Raise RuntimeError) index.

Definition gather_last {A} (input : list (list A)) (index : list (list Z))
  : result (list (list A)) :=
  if decide (length index ≤ length input)
  then rmapM (λ p, gather_row p.1 p.2) (zip input index)
  else Raise RuntimeError.

(** [t.size(1)]; a tensor without rows has no columns. *)
Definition size1 {A} (t : list (list A)) : nat :=
  match t with
  | [] => 0
  | row :: _ => length row
  end.

Module MultipleChoiceEvaluator.
Section WithModel.
Context {E F : Type}.

(** [F.log_softmax(., dim=-1)] on one row of logits, and [-t.mean()] on the
    entries of a tensor: functions of the tensor library on floating-point
    numbers, of type [F]. *)
Variable log_softmax : list Z → list F.
Variable neg_mean : list F → F.

Notation "x ← m ; k" := (bind m (λ x, k))
  (at level 20, m at level 100, k at level 200, only parsing).

Record t := {
  _model : Model E;
  _tokenizer : Tokenizer;
  _label_map : list (string * string);
  _label_tokens : list (list Z)
}.

(** The label map is a dict from labels to words; its values are taken in
    the order of the dict. *)
Definition __init__ (model : Model E) (tokenizer : Tokenizer)
  (label_map : list (string * string)) : result t :=
  rbind (tokenizer (snd <$> label_map)) (λ label_tokens,
    if decide (size1 label_tokens ≠ 1) then Raise ValueError
    else Ok {| _model := model; _tokenizer := tokenizer;
               _label_map := label_map;
               _label_tokens := [concat label_tokens] |}).

(** Returns the loss and the number of correct predictions. *)
Definition __call__ (self : t) (model_inputs : nat) (labels : nat)
  : M E (F * nat) :=
  let label_tokens := _label_tokens self in
  predict_mask ← dict_get model_inputs "predict_mask";
  lb ← load_long labels;
  pm ← load_bool predict_mask;
  sel ← lift (masked_select pm lb);
  let labels := (λ z : Z, [z]) <$> sel in
  out ← forward_w_triggers (_model self) model_inputs None;
  let logits := out_logits out in
  pm ← load_bool predict_mask;
  rows ← lift (masked_select pm logits);
  predict_logits ← lift (gather_last rows
                           (concat (replicate (length labels) label_tokens)));
  am ← lift (rmapM argmax predict_logits);
  let predictions := (λ k : nat, [Z.of_nat k]) <$> am in
  hit ← lift (eq_tensor labels label_tokens);
  let label_inds := (λ p : nat * nat, [Z.of_nat p.2]) <$> nonzero hit in
  let predict_logp := log_softmax <$> predict_logits in
  picked ← lift (gather_last predict_logp label_inds);
  let loss := neg_mean (concat picked) in
  same ← lift (eq_tensor predictions label_inds);
  let correct := mask_sum same in
  ret (loss, correct).

End WithModel.
End MultipleChoiceEvaluator.

(** *** Definitions used to state the result of the multiple-choice
    evaluator

    The logits of the label tokens [toks] in a vocabulary vector [v], the
    label token that [v] predicts (the one with the largest logit, the
    first one among equals) and the index of a token among [toks]. *)
Definition token_logits (toks : list Z) (v : list Z) : list Z :=
  (λ z : Z, default 0%Z (v !! Z.to_nat z)) <$> toks.

Definition predicted_label (toks : list Z) (v : list Z) : option Z :=
  toks !! argmax_total (token_logits toks v).

Fixpoint index_of (z : Z) (toks : list Z) : option nat :=
  match toks with
  | [] => None
  | z' :: toks' => if decide (z = z') then Some 0 else S <$> index_of z toks'
  end.

(** The predict positions, in row-major order, at which the predicted
    label token is the gold label. *)
Definition count_correct (toks : list Z) (rows : list (list Z)) (sel : list Z)
  : nat :=
  length (filter (λ p : list Z * Z, predicted_label toks p.1 = Some p.2)
            (zip rows sel)).

(** ** The iterations of the monotonic and the iterative loop, entry by entry *)

Section Commits.
Context {E : Type}.







End Commits.

(** ** Small deterministic models used by the closed examples

    Embedding vectors are integers and the embedding lookup is the identity,
    so that the keyword arguments logged for a forward pass show the token
    ids the model was given. *)

Definition position_logits (row : list Z) : list (list Z) :=
  imap (λ j e, [0; e; Z.of_nat j; foldr Z.add 0 row]%Z) row.

Definition toy_forward (kw : gmap string (tensor Z))
  (labels : option (list (list Z))) : output :=
  match kw !! "inputs_embeds" with
  | Some (FloatT e) => {| out_loss := None; out_logits := position_logits <$> e |}
  | _ => {| out_loss := None; out_logits := [] |}
  end.

Definition toy_model : Model Z :=
  {| embeds := λ z, z; relation_embeds := [7%Z]; forward := toy_forward |}.

(** A model without trigger vectors whose logits grow with the sum of the
    embeddings of the example. *)
Definition rising_forward (kw : gmap string (tensor Z))
  (labels : option (list (list Z))) : output :=
  match kw !! "inputs_embeds" with
  | Some (FloatT e) =>
      {| out_loss := None;
         out_logits :=
           (λ row : list Z,
              imap (λ j _, [0; 2 * foldr Z.add 0 row + Z.of_nat j]%Z) row) <$> e |}
  | _ => {| out_loss := None; out_logits := [] |}
  end.

Definition rising_model : Model Z :=
  {| embeds := λ z, z; relation_embeds := []; forward := rising_forward |}.

(** A model without trigger vectors whose logits are all below the
    suppression constant. *)
Definition cold_forward (kw : gmap string (tensor Z))
  (labels : option (list (list Z))) : output :=
  match kw !! "inputs_embeds" with
  | Some (FloatT e) =>
      {| out_loss := None;
         out_logits :=
           (λ row : list Z,
              (λ _, [neg_huge - 1; neg_huge - 2]%Z) <$> row) <$> e |}
  | _ => {| out_loss := None; out_logits := [] |}
  end.

Definition cold_model : Model Z :=
  {| embeds := λ z, z; relation_embeds := []; forward := cold_forward |}.

(** A model with one trigger vector whose prediction is the parity of the
    sum of the embeddings of the example. *)
Definition parity_forward (kw : gmap string (tensor Z))
  (labels : option (list (list Z))) : output :=
  match kw !! "inputs_embeds" with
  | Some (FloatT e) =>
      {| out_loss := None;
         out_logits :=
           (λ row : list Z,
              (λ _, [1 - foldr Z.add 0 row `mod` 2;
                     foldr Z.add 0 row `mod` 2]%Z) <$> row) <$> e |}
  | _ => {| out_loss := None; out_logits := [] |}
  end.

Definition parity_model : Model Z :=
  {| embeds := λ z, z; relation_embeds := [7%Z]; forward := parity_forward |}.

Definition toy_bundle : gmap string nat :=
  <["input_ids" := 0]> (<["trigger_mask" := 1]> (<["predict_mask" := 2]>
    (<["attention_mask" := 3]> ∅))).

(** The embeddings given to the model at each logged forward pass. *)
Definition seen_embeddings {E} (tr : list (event E)) : list (option (tensor E)) :=
  (λ ev, match ev with Forward kw _ => kw !! "inputs_embeds" end) <$> tr.

Definition bundle_state (ids : list (list Z)) (trigger_mask predict_mask
  : list (list bool)) (attention_mask : list (list Z)) : state Z :=
  {| tensors := [LongT ids; BoolT trigger_mask; BoolT predict_mask;
                 LongT attention_mask];
     dicts := [toy_bundle];
     trace := [] |}.

(** The bundle of the closed examples together with a tensor of gold
    labels, at index 4 of the store. *)
Definition labelled_state (ids : list (list Z)) (trigger_mask predict_mask
  : list (list bool)) (attention_mask labels : list (list Z)) : state Z :=
  {| tensors := [LongT ids; BoolT trigger_mask; BoolT predict_mask;
                 LongT attention_mask; LongT labels];
     dicts := [toy_bundle];
     trace := [] |}.

(** A tokenizer that is not called. *)
Definition no_tokenizer : Tokenizer := λ _, Raise ValueError.

(** A tokenizer that gives every word one token, the length of the word. *)
Definition toy_tokenizer : Tokenizer :=
  λ words, Ok ((λ w : string, [Z.of_nat (String.length w)]) <$> words).

(** The model of the parity prediction with two trigger vectors. *)
Definition pair_parity_model : Model Z :=
  {| embeds := λ z, z; relation_embeds := [7%Z; 8%Z]; forward := parity_forward |}.

(** * Facts about the store and the monad *)

Section StoreFacts.
Context {E : Type}.
Implicit Types (s : state E) (model : Model E) (m : gmap string nat).

Lemma insert_at_end {A} (l : list A) (x y : A) :
  <[length l := y]> (l ++ [x]) = l ++ [y].
Proof.
  rewrite insert_app_r_alt by lia. by rewrite Nat.sub_diag.
Qed.

Lemma lookup_at_end {A} (l : list A) (x : A) : (l ++ [x]) !! length l = Some x.
Proof. by rewrite list_lookup_middle. Qed.

Lemma lookup_before_end {A} (l : list A) (x y : A) i :
  l !! i = Some y → (l ++ [x]) !! i = Some y.
Proof. intros H. by apply lookup_app_l_Some. Qed.

Lemma forward_w_triggers_eq model d labels s m tl pl il ids tm :
  dicts s !! d = Some m →
  m !! "trigger_mask" = Some tl →
  m !! "predict_mask" = Some pl →
  m !! "input_ids" = Some il →
  tensors s !! il = Some (LongT ids) →
  tensors s !! tl = Some (BoolT tm) →
  forward_w_triggers model d labels s =
    match index_put_mask tm (trigger_values model ids) (embedded model ids) with
    | Ok e' =>
        let ts := tensors s ++ [FloatT e'] in
        let m' := <["inputs_embeds" := length (tensors s)]> (popped m) in
        let kw := kwargs_of ts m' in
        (Ok (forward model kw labels),
         {| tensors := ts; dicts := dicts s ++ [m'];
            trace := trace s ++ [Forward kw labels] |})
    | Raise e =>
        (Raise e,
         {| tensors := tensors s ++ [FloatT (embedded model ids)];
            dicts := dicts s ++ [popped m]; trace := trace s |})
    end.
Proof.
  intros Hd Ht Hp Hi Hil Htl.
  unfold forward_w_triggers, bind, dict_copy. rewrite Hd. cbn.
  unfold dict_pop at 1. cbn. rewrite lookup_at_end, Ht. cbn.
  rewrite insert_at_end.
  unfold dict_pop at 1. cbn. rewrite lookup_at_end.
  rewrite lookup_delete_ne, Hp by done. cbn. rewrite insert_at_end.
  unfold dict_pop at 1. cbn. rewrite lookup_at_end.
  rewrite !lookup_delete_ne, Hi by done. cbn. rewrite insert_at_end.
  unfold load_long, load_bool, load_float, bind, load. cbn.
  rewrite Hil. cbn.
  rewrite (lookup_before_end _ _ _ _ Htl). cbn.
  rewrite lookup_at_end. cbn.
  unfold lift. fold (embedded model ids). fold (trigger_values model ids).
  destruct (index_put_mask tm _ _) as [e'|e].
  2:{ reflexivity. }
  cbn. unfold dict_set, call_model. cbn. rewrite !insert_at_end, !lookup_at_end.
  cbn. rewrite insert_at_end, lookup_at_end. reflexivity.
Qed.

(** The keyword arguments of the model call: the new embeddings and the
    untouched entries of the bundle. *)
Lemma kwargs_of_private (ts : list (tensor E)) m e' :
  (∀ k l, popped m !! k = Some l → l < length ts) →
  kwargs_of (ts ++ [FloatT e']) (<["inputs_embeds" := length ts]> (popped m))
  = <["inputs_embeds" := FloatT e']> (kwargs_of ts (popped m)).
Proof.
  intros Hv. apply map_eq. intros k. unfold kwargs_of.
  rewrite lookup_omap. destruct (decide (k = "inputs_embeds")) as [->|Hk].
  - rewrite !lookup_insert_eq. cbn. apply lookup_at_end.
  - rewrite !lookup_insert_ne by done. rewrite lookup_omap.
    destruct (popped m !! k) as [l|] eqn:Hl; [|done]. cbn.
    apply lookup_app_l. eauto.
Qed.

Lemma kwargs_of_frame (ts ts' : list (tensor E)) (m : gmap string nat) :
  (∀ k l, m !! k = Some l → ts' !! l = ts !! l) →
  kwargs_of ts' m = kwargs_of ts m.
Proof.
  intros Hf. apply map_eq. intros k. unfold kwargs_of. rewrite !lookup_omap.
  destruct (m !! k) as [l|] eqn:Hl; [|done]. cbn. eauto.
Qed.

End StoreFacts.

(** ** No operation other than the assertion raises [AssertionError] *)

Section NoAssertion.
Context {E : Type}.

Lemma quiet_ok {A} (a : A) : quiet (Ok a).
Proof. done. Qed.

Lemma quiet_rbind {A B} (r : result A) (k : A → result B) :
  quiet r → (∀ a, quiet (k a)) → quiet (rbind r k).
Proof.
  destruct r as [a|e]; cbn; [auto|].
  intros H _. congruence.
Qed.

Lemma quiet_rmapM {A B} (f : A → result B) l :
  (∀ x, quiet (f x)) → quiet (rmapM f l).
Proof.
  intros Hf. induction l as [|x l IH]; cbn; [done|].
  apply quiet_rbind; [apply Hf|]. intros y.
  apply quiet_rbind; [apply IH|]. done.
Qed.

Lemma quiet_argmax l : quiet (argmax l).
Proof. by destruct l. Qed.

Lemma quiet_max_value l : quiet (max_value l).
Proof. by destruct l. Qed.

Lemma quiet_lookup {A} (row : list A) j :
  quiet (match row !! j with Some x => Ok x | None => Raise IndexError end).
Proof. by destruct (row !! j). Qed.

Lemma quiet_put_col {A} idx (v : A) row : quiet (put_col idx v row).
Proof. unfold put_col. by case_decide. Qed.

Lemma quiet_put_cols {A} idx (vals : list A) row : quiet (put_cols idx vals row).
Proof.
  revert vals row. induction idx as [|j idx IH]; intros [|v vals] row; cbn; try done.
  apply quiet_rbind; [apply quiet_put_col|]. intros a. apply IH.
Qed.

Lemma quiet_first_nonzero_col m : quiet (first_nonzero_col m).
Proof. unfold first_nonzero_col. by destruct (nonzero m) as [|[]]. Qed.

Lemma quiet_index_put_mask {A} mask (vals : list A) t :
  quiet (index_put_mask mask vals t).
Proof.
  unfold index_put_mask. repeat case_decide; try done.
  by destruct vals as [|? []].
Qed.

Lemma no_assert_ret {A} (a : A) : no_assert (E:=E) (ret a).
Proof. by intros s. Qed.

Lemma no_assert_raise {A} e : e ≠ AssertionError → no_assert (E:=E) (raise (A:=A) e).
Proof. intros He s. cbn. congruence. Qed.

Lemma no_assert_lift {A} (r : result A) : quiet r → no_assert (E:=E) (lift r).
Proof. by intros Hr s. Qed.

Lemma no_assert_bind {A B} (m : M E A) (k : A → M E B) :
  no_assert m → (∀ a, no_assert (k a)) → no_assert (bind m k).
Proof.
  intros Hm Hk s. unfold bind. specialize (Hm s).
  destruct (m s) as [[a|e] s']; cbn in *; [apply Hk | congruence].
Qed.

Lemma no_assert_load l : no_assert (load (E:=E) l).
Proof. intros s. unfold load. by destruct (tensors s !! l). Qed.

Lemma no_assert_store l t : no_assert (store (E:=E) l t).
Proof. by intros s. Qed.

Lemma no_assert_alloc t : no_assert (alloc (E:=E) t).
Proof. by intros s. Qed.

Lemma no_assert_load_long l : no_assert (load_long (E:=E) l).
Proof.
  apply no_assert_bind; [apply no_assert_load|].
  intros [v|v|v]; (apply no_assert_ret || by apply no_assert_raise).
Qed.

Lemma no_assert_load_bool l : no_assert (load_bool (E:=E) l).
Proof.
  apply no_assert_bind; [apply no_assert_load|].
  intros [v|v|v]; (apply no_assert_ret || by apply no_assert_raise).
Qed.

Lemma no_assert_load_float l : no_assert (load_float (E:=E) l).
Proof.
  apply no_assert_bind; [apply no_assert_load|].
  intros [v|v|v]; (apply no_assert_ret || by apply no_assert_raise).
Qed.

Lemma no_assert_dict_copy d : no_assert (dict_copy (E:=E) d).
Proof. intros s. unfold dict_copy. by destruct (dicts s !! d). Qed.

Lemma no_assert_dict_get d k : no_assert (dict_get (E:=E) d k).
Proof.
  intros s. unfold dict_get. destruct (dicts s !! d) as [m|]; [|done].
  by destruct (m !! k).
Qed.

Lemma no_assert_dict_pop d k : no_assert (dict_pop (E:=E) d k).
Proof.
  intros s. unfold dict_pop. destruct (dicts s !! d) as [m|]; [|done].
  by destruct (m !! k).
Qed.

Lemma no_assert_dict_set d k l : no_assert (dict_set (E:=E) d k l).
Proof. intros s. unfold dict_set. by destruct (dicts s !! d). Qed.

Lemma no_assert_call_model model d labels : no_assert (call_model (E:=E) model d labels).
Proof. intros s. unfold call_model. by destruct (dicts s !! d). Qed.

Ltac quiet_step :=
  lazymatch goal with |- no_assert _ => idtac end;
  first
    [ apply no_assert_ret
    | apply no_assert_load_long | apply no_assert_load_bool
    | apply no_assert_load_float
    | apply no_assert_store | apply no_assert_alloc
    | apply no_assert_dict_copy | apply no_assert_dict_get
    | apply no_assert_dict_pop | apply no_assert_dict_set
    | apply no_assert_call_model
    | apply no_assert_lift
    | apply no_assert_bind; [|intros ?] ].

Lemma no_assert_forward_w_triggers model d labels :
  no_assert (forward_w_triggers (E:=E) model d labels).
Proof.
  unfold forward_w_triggers. repeat quiet_step. apply quiet_index_put_mask.
Qed.

Lemma no_assert_monotonic_loop model d pl il ol n :
  no_assert (monotonic_loop (E:=E) model d pl il ol n).
Proof.
  induction n as [|n IH]; cbn; [apply no_assert_ret|].
  apply no_assert_bind; [apply no_assert_forward_w_triggers|intros ?].
  repeat quiet_step; try apply IH.
  - apply quiet_first_nonzero_col.
  - apply quiet_rmapM. intros; apply quiet_lookup.
  - apply quiet_rmapM, quiet_argmax.
  - unfold setitem_col. case_decide; [|done].
    apply quiet_rmapM. intros; apply quiet_put_col.
  - unfold setitem_col. case_decide; [|done].
    apply quiet_rmapM. intros; apply quiet_put_col.
  - apply quiet_rmapM. intros; apply quiet_put_col.
Qed.

Lemma no_assert_iterative_loop model d pl il ol n :
  no_assert (iterative_loop (E:=E) model d pl il ol n).
Proof.
  induction n as [|n IH]; cbn; [apply no_assert_ret|].
  apply no_assert_bind; [apply no_assert_forward_w_triggers|intros ?].
  repeat quiet_step; try apply IH.
  - unfold suppress. by case_decide.
  - apply quiet_rmapM. intros; apply quiet_rmapM, quiet_max_value.
  - apply quiet_rmapM. intros; apply quiet_rmapM, quiet_argmax.
  - apply quiet_rmapM, quiet_argmax.
  - apply quiet_rmapM. intros; apply quiet_rmapM. intros; apply quiet_lookup.
  - unfold setitem_cols. case_decide; [|done].
    apply quiet_rmapM. intros; apply quiet_put_cols.
  - unfold setitem_cols. case_decide; [|done].
    apply quiet_rmapM. intros; apply quiet_put_cols.
  - apply quiet_rmapM. intros; apply quiet_put_cols.
Qed.

(** C6.  A strategy outside parallel, monotonic and iterative makes [decode]
    fail on its assertion with the state untouched: no output buffer is
    allocated and no forward pass is logged.  For the three named strategies
    [decode] never raises the assertion error. *)
Theorem decode_strategy_assertion model d strategy (s : state E) :
  (strategy ∉ ["parallel"; "monotonic"; "iterative"] →
     decode model d strategy s = (Raise AssertionError, s)) ∧
  (strategy ∈ ["parallel"; "monotonic"; "iterative"] →
     (decode model d strategy s).1 ≠ Raise AssertionError).
Proof.
  split; intros Hs; unfold decode.
  - by rewrite bool_decide_eq_false_2.
  - rewrite bool_decide_eq_true_2 by done.
    revert s.
    match goal with |- ∀ s, (?m s).1 ≠ _ => change (no_assert m) end.
    repeat first
      [ apply no_assert_forward_w_triggers
      | apply no_assert_monotonic_loop
      | apply no_assert_iterative_loop
      | quiet_step
      | case_decide
      | by apply no_assert_raise ].
    + apply quiet_rmapM. intros; apply quiet_rmapM, quiet_argmax.
    + unfold masked_select. by case_decide.
    + apply quiet_index_put_mask.
    + done.
Qed.

End NoAssertion.

(** * The loops of [decode] and the loops on values *)

Section Simulation.
Context {E : Type}.
Implicit Types (s : state E) (model : Model E) (m : gmap string nat).

Lemma load_long_eq s l v :
  tensors s !! l = Some (LongT v) → load_long l s = (Ok v, s).
Proof. intros H. unfold load_long, bind, load. by rewrite H. Qed.

Lemma load_bool_eq s l v :
  tensors s !! l = Some (BoolT v) → load_bool l s = (Ok v, s).
Proof. intros H. unfold load_bool, bind, load. by rewrite H. Qed.

Lemma dict_get_eq s d m k l :
  dicts s !! d = Some m → m !! k = Some l → dict_get d k s = (Ok l, s).
Proof. intros H1 H2. unfold dict_get. by rewrite H1, H2. Qed.

Lemma bind_ok {A B} (c : M E A) (k : A → M E B) s a s' :
  c s = (Ok a, s') → bind c k s = k a s'.
Proof. intros H. unfold bind. by rewrite H. Qed.

Lemma bind_raise {A B} (c : M E A) (k : A → M E B) s e s' :
  c s = (Raise e, s') → bind c k s = (Raise e, s').
Proof. intros H. unfold bind. by rewrite H. Qed.

Section WithBundle.
Variables (model : Model E) (s0 : state E) (d : nat) (m : gmap string nat).
Variables (il pl tl : nat) (ids0 : list (list Z)) (pm0 tm : list (list bool)).
Hypothesis Hb : bundle_at s0 d m il pl tl ids0 pm0 tm.

Let rest := rest_kwargs s0 m.
Let ol := length (tensors s0).

Lemma bundle_il_lt : il < ol.
Proof. eapply lookup_lt_Some, Hb. Qed.

Lemma bundle_pl_lt : pl < ol.
Proof. eapply lookup_lt_Some, Hb. Qed.

Lemma bundle_tl_lt : tl < ol.
Proof. eapply lookup_lt_Some, Hb. Qed.

Lemma bundle_il_pl : il ≠ pl.
Proof.
  intros ->. destruct Hb as [_ _ _ _ H1 H2 _ _ _]. congruence.
Qed.

Lemma bundle_tl_il : tl ≠ il.
Proof.
  intros ->. destruct Hb as [_ _ _ _ H1 _ H2 _ _]. congruence.
Qed.

Lemma repr_dict s st : repr s0 il pl s st → dicts s !! d = Some m.
Proof.
  intros Hr. eapply prefix_lookup_Some; [apply Hb | apply Hr].
Qed.

Lemma repr_tm s st : repr s0 il pl s st → tensors s !! tl = Some (BoolT tm).
Proof.
  intros Hr. rewrite (r_frame _ _ _ _ _ Hr).
  - apply Hb.
  - apply bundle_tl_lt.
  - apply bundle_tl_il.
  - apply Hb.
Qed.

Lemma repr_rest s st :
  repr s0 il pl s st → kwargs_of (tensors s) (popped m) = rest.
Proof.
  intros Hr. apply kwargs_of_frame. intros k l Hl.
  destruct (b_others _ _ _ _ _ _ _ _ _ Hb k l Hl) as (? & ? & ?).
  by apply Hr.
Qed.

Lemma repr_length s st : repr s0 il pl s st → ol < length (tensors s).
Proof. intros Hr. eapply lookup_lt_Some, Hr. Qed.

Lemma forward_sim s st :
  repr s0 il pl s st →
  match value_forward model rest tm st with
  | Ok r => ∃ o s', forward_w_triggers model d None s = (Ok o, s') ∧
                    out_logits o = r.1 ∧ repr s0 il pl s' r.2
  | Raise e => ∃ s', forward_w_triggers model d None s = (Raise e, s') ∧
                     trace s' = trace s
  end.
Proof.
  intros Hr.
  rewrite (forward_w_triggers_eq model d None s m tl pl il (d_ids st) tm);
    [|apply (repr_dict _ _ Hr)|apply Hb..|apply Hr|apply (repr_tm _ _ Hr)].
  unfold value_forward.
  destruct (index_put_mask tm _ _) as [e'|e]; cbn; [|eauto].
  rewrite kwargs_of_private.
  2:{ intros k l Hl. destruct (b_others _ _ _ _ _ _ _ _ _ Hb k l Hl) as (? & ? & ?).
      pose proof (repr_length _ _ Hr). unfold ol in *. lia. }
  rewrite (repr_rest _ _ Hr).
  eexists _, _. split; [reflexivity|]. split; [done|].
  pose proof (repr_length _ _ Hr) as Hlen.
  pose proof bundle_il_lt. pose proof bundle_pl_lt.
  constructor; cbn.
  - etrans; [apply Hr|]. by apply prefix_app_r.
  - intros l ? ? ?. rewrite lookup_app_l by (unfold ol in *; lia). by apply Hr.
  - apply lookup_before_end, Hr.
  - apply lookup_before_end, Hr.
  - apply lookup_before_end, Hr.
  - f_equal. apply Hr.
Qed.

Lemma bind_lift {A B} (r : result A) (k : A → M E B) s :
  bind (lift r) k s = match r with Ok a => k a s | Raise e => (Raise e, s) end.
Proof. unfold bind, lift. by destruct r. Qed.

Lemma bind_store {B} l t (k : unit → M E B) s :
  bind (store l t) k s =
  k tt {| tensors := <[l := t]> (tensors s); dicts := dicts s; trace := trace s |}.
Proof. done. Qed.

Lemma repr_update s st ids' o' pm' :
  repr s0 il pl s st →
  repr s0 il pl
    {| tensors := <[pl := BoolT pm']> (<[ol := LongT o']>
                    (<[il := LongT ids']> (tensors s)));
       dicts := dicts s; trace := trace s |}
    {| d_ids := ids'; d_mask := pm'; d_out := o'; d_trace := d_trace st |}.
Proof.
  intros Hr.
  pose proof (repr_length _ _ Hr) as Hlen.
  pose proof bundle_il_lt. pose proof bundle_pl_lt. pose proof bundle_il_pl.
  constructor; cbn.
  - apply Hr.
  - intros l ? ? ?. rewrite !list_lookup_insert_ne by (unfold ol in *; lia).
    by apply Hr.
  - rewrite !list_lookup_insert_ne by (unfold ol in *; lia).
    apply list_lookup_insert_eq. lia.
  - apply list_lookup_insert_eq. rewrite !length_insert. lia.
  - rewrite list_lookup_insert_ne by (unfold ol in *; lia).
    apply list_lookup_insert_eq. rewrite !length_insert. done.
  - apply Hr.
Qed.

(** The three in-place updates that end an iteration of either loop. *)
Lemma commit_sim {B} s st (fids fout : list (list Z) → result (list (list Z)))
  (fpm : list (list bool) → result (list (list bool))) (k : M E B) :
  repr s0 il pl s st →
  bind (load_long il) (λ ids, bind (lift (fids ids)) (λ ids',
    bind (store il (LongT ids')) (λ _,
    bind (load_long ol) (λ o, bind (lift (fout o)) (λ o',
    bind (store ol (LongT o')) (λ _,
    bind (load_bool pl) (λ pm, bind (lift (fpm pm)) (λ pm',
    bind (store pl (BoolT pm')) (λ _, k))))))))) s
  = match fids (d_ids st), fout (d_out st), fpm (d_mask st) with
    | Ok ids', Ok o', Ok pm' =>
        k {| tensors := <[pl := BoolT pm']> (<[ol := LongT o']>
                          (<[il := LongT ids']> (tensors s)));
             dicts := dicts s; trace := trace s |}
    | Raise e, _, _ => (Raise e, s)
    | Ok ids', Raise e, _ =>
        (Raise e, {| tensors := <[il := LongT ids']> (tensors s);
                     dicts := dicts s; trace := trace s |})
    | Ok ids', Ok o', Raise e =>
        (Raise e, {| tensors := <[ol := LongT o']>
                                  (<[il := LongT ids']> (tensors s));
                     dicts := dicts s; trace := trace s |})
    end.
Proof.
  intros Hr.
  pose proof (repr_length _ _ Hr) as Hlen.
  pose proof bundle_il_lt. pose proof bundle_pl_lt. pose proof bundle_il_pl.
  rewrite (bind_ok _ _ _ _ _ (load_long_eq _ _ _ (r_ids _ _ _ _ _ Hr))).
  rewrite bind_lift. destruct (fids _) as [ids'|e]; [|done].
  rewrite bind_store.
  erewrite bind_ok.
  2:{ apply load_long_eq. cbn.
      rewrite list_lookup_insert_ne by (unfold ol in *; lia). apply Hr. }
  rewrite bind_lift. destruct (fout _) as [o'|e]; [|done].
  rewrite bind_store.
  erewrite bind_ok.
  2:{ apply load_bool_eq. cbn.
      rewrite !list_lookup_insert_ne by (unfold ol in *; lia). apply Hr. }
  rewrite bind_lift. destruct (fpm _) as [pm'|e]; [|done].
  by rewrite bind_store.
Qed.

Lemma monotonic_loop_sim n s st :
  repr s0 il pl s st →
  match iterate (monotonic_step model rest tm) n st with
  | Ok st' => ∃ s', monotonic_loop model d pl il ol n s = (Ok tt, s') ∧
                    repr s0 il pl s' st'
  | Raise e => ∃ s', monotonic_loop model d pl il ol n s = (Raise e, s')
  end.
Proof.
  revert s st. induction n as [|n IH]; intros s st Hr; cbn [iterate monotonic_loop].
  { eauto. }
  unfold monotonic_step at 1.
  pose proof (forward_sim s st Hr) as Hf.
  destruct (value_forward model rest tm st) as [[lg st1]|e]; cbn [rbind].
  2:{ destruct Hf as (s' & Hf & _). erewrite bind_raise; eauto. }
  destruct Hf as (o & s1 & Hf & Hlg & Hr1). cbn [fst snd] in *.
  rewrite (bind_ok _ _ _ _ _ Hf), Hlg.
  rewrite (bind_ok _ _ _ _ _ (load_bool_eq _ _ _ (r_mask _ _ _ _ _ Hr1))).
  rewrite bind_lift.
  destruct (first_nonzero_col (d_mask st1)) as [idx|e]; cbn [rbind]; [|eauto].
  rewrite bind_lift.
  destruct (select_col idx lg) as [col|e]; cbn [rbind]; [|eauto].
  rewrite bind_lift.
  destruct (rmapM argmax col) as [pred|e]; cbn [rbind]; [|eauto].
  rewrite (commit_sim _ _ (setitem_col idx (to_ids pred))
             (setitem_col idx (to_ids pred)) (fill_col idx false) _ Hr1).
  destruct (setitem_col idx (to_ids pred) (d_ids st1)) as [ids'|e];
    cbn [rbind]; [|eauto].
  destruct (setitem_col idx (to_ids pred) (d_out st1)) as [o'|e];
    cbn [rbind]; [|eauto].
  destruct (fill_col idx false (d_mask st1)) as [pm'|e];
    cbn [rbind]; [|eauto].
  apply IH. by apply repr_update.
Qed.

Lemma iterative_loop_sim n s st :
  repr s0 il pl s st →
  match iterate (iterative_step model rest tm) n st with
  | Ok st' => ∃ s', iterative_loop model d pl il ol n s = (Ok tt, s') ∧
                    repr s0 il pl s' st'
  | Raise e => ∃ s', iterative_loop model d pl il ol n s = (Raise e, s')
  end.
Proof.
  revert s st. induction n as [|n IH]; intros s st Hr; cbn [iterate iterative_loop].
  { eauto. }
  unfold iterative_step at 1.
  pose proof (forward_sim s st Hr) as Hf.
  destruct (value_forward model rest tm st) as [[lg st1]|e]; cbn [rbind].
  2:{ destruct Hf as (s' & Hf & _). erewrite bind_raise; eauto. }
  destruct Hf as (o & s1 & Hf & Hlg & Hr1). cbn [fst snd] in *.
  rewrite (bind_ok _ _ _ _ _ Hf), Hlg.
  rewrite (bind_ok _ _ _ _ _ (load_bool_eq _ _ _ (r_mask _ _ _ _ _ Hr1))).
  rewrite bind_lift.
  destruct (suppress (d_mask st1) lg) as [logits|e]; cbn [rbind]; [|eauto].
  rewrite bind_lift.
  destruct (max_last logits) as [top|e]; cbn [rbind]; [|eauto].
  rewrite bind_lift.
  destruct (argmax_last logits) as [preds|e]; cbn [rbind]; [|eauto].
  rewrite bind_lift.
  destruct (rmapM argmax top) as [idx|e]; cbn [rbind]; [|eauto].
  rewrite bind_lift.
  destruct (select_cols idx preds) as [pred|e]; cbn [rbind]; [|eauto].
  rewrite (commit_sim _ _ (setitem_cols idx (to_ids <$> pred))
             (setitem_cols idx (to_ids <$> pred)) (fill_cols idx false) _ Hr1).
  destruct (setitem_cols idx (to_ids <$> pred) (d_ids st1)) as [ids'|e];
    cbn [rbind]; [|eauto].
  destruct (setitem_cols idx (to_ids <$> pred) (d_out st1)) as [o'|e];
    cbn [rbind]; [|eauto].
  destruct (fill_cols idx false (d_mask st1)) as [pm'|e];
    cbn [rbind]; [|eauto].
  apply IH. by apply repr_update.
Qed.

End WithBundle.
End Simulation.

(** * The trigger-augmented forward pass *)

Section ForwardPass.
Context {E : Type}.
Implicit Types (s : state E) (model : Model E) (m : gmap string nat).

(** Whatever happens in [forward_w_triggers], the store only grows: the
    objects that exist at the call are neither removed nor updated. *)
Lemma forward_w_triggers_extends model d labels s r s' :
  forward_w_triggers model d labels s = (r, s') →
  tensors s `prefix_of` tensors s' ∧ dicts s `prefix_of` dicts s'.
Proof.
  unfold forward_w_triggers, bind, dict_copy.
  destruct (dicts s !! d) as [m|] eqn:Hd; cbn; [|by intros [= <- <-]].
  unfold dict_pop at 1. cbn. rewrite lookup_at_end.
  destruct (m !! "trigger_mask") as [tl|]; cbn;
    [rewrite insert_at_end
    | by intros [= <- <-]; split; [|apply prefix_app_r]].
  unfold dict_pop at 1. cbn. rewrite lookup_at_end.
  destruct (delete "trigger_mask" m !! "predict_mask") as [pl|]; cbn;
    [rewrite insert_at_end
    | by intros [= <- <-]; split; [|apply prefix_app_r]].
  unfold dict_pop at 1. cbn. rewrite lookup_at_end.
  destruct (delete "predict_mask" (delete "trigger_mask" m) !! "input_ids")
    as [il|]; cbn;
    [rewrite insert_at_end
    | by intros [= <- <-]; split; [|apply prefix_app_r]].
  unfold load_long, load_bool, load_float, bind, load. cbn.
  destruct (tensors s !! il) as [[ids|?|?]|]; cbn;
    try (by intros [= <- <-]; split; [|apply prefix_app_r]).
  destruct ((tensors s ++ _) !! tl) as [[?|tm|?]|]; cbn;
    try (by intros [= <- <-]; split; apply prefix_app_r).
  rewrite lookup_at_end. cbn. unfold lift.
  destruct (index_put_mask tm _ _) as [e'|e]; cbn;
    [|by intros [= <- <-]; split; apply prefix_app_r].
  unfold dict_set, call_model. cbn. rewrite !insert_at_end, !lookup_at_end.
  cbn. rewrite insert_at_end, lookup_at_end. cbn.
  by intros [= <- <-]; split; apply prefix_app_r.
Qed.

(** C4.  [forward_w_triggers] leaves the caller's bundle as it was: after
    the call, whether it returned or raised, the caller's dict has the same
    entries, and every tensor an entry refers to has the same content, as
    has every other object of the store. *)
Theorem forward_w_triggers_keeps_bundle model d labels s m :
  dicts s !! d = Some m →
  dicts (forward_w_triggers model d labels s).2 !! d = Some m ∧
  (∀ k l t, m !! k = Some l → tensors s !! l = Some t →
     tensors (forward_w_triggers model d labels s).2 !! l = Some t) ∧
  tensors s `prefix_of` tensors (forward_w_triggers model d labels s).2 ∧
  dicts s `prefix_of` dicts (forward_w_triggers model d labels s).2.
Proof.
  intros Hd.
  destruct (forward_w_triggers model d labels s) as [r s'] eqn:Hf.
  destruct (forward_w_triggers_extends model d labels s r s' Hf) as [Ht Hds].
  cbn. split; [by eapply prefix_lookup_Some|].
  split; [|done].
  intros k l t _ Hl. by eapply prefix_lookup_Some.
Qed.

Lemma length_trigger_values model ids :
  length (trigger_values model ids)
  = length ids * length (relation_embeds model).
Proof.
  unfold trigger_values. induction (length ids) as [|n IH]; cbn; [done|].
  rewrite length_app, IH. done.
Qed.

Lemma shape2_embedded model ids : shape2 (embedded model ids) = shape2 ids.
Proof.
  unfold shape2, embedded. rewrite <- list_fmap_compose.
  apply list_fmap_ext. intros i row _. cbn. by rewrite length_fmap.
Qed.

(** C7 (as amended).  When the trigger mask has the shape of the token ids
    and the number of its true entries differs from batch size times the
    number of trigger vectors, and the repeated trigger parameters are not
    a single row, [forward_w_triggers] raises the shape error of the masked
    assignment, and the underlying model has not been invoked. *)
Theorem forward_w_triggers_shape_error model d labels s m il pl tl ids tm :
  dicts s !! d = Some m →
  m !! "trigger_mask" = Some tl →
  m !! "predict_mask" = Some pl →
  m !! "input_ids" = Some il →
  tensors s !! il = Some (LongT ids) →
  tensors s !! tl = Some (BoolT tm) →
  shape2 tm = shape2 ids →
  mask_sum tm ≠ length ids * length (relation_embeds model) →
  length ids * length (relation_embeds model) ≠ 1 →
  ∃ s', forward_w_triggers model d labels s = (Raise RuntimeError, s') ∧
        trace s' = trace s.
Proof.
  intros Hd Ht Hp Hi Hil Htl Hshape Hne H1.
  rewrite (forward_w_triggers_eq model d labels s m tl pl il ids tm) by done.
  unfold index_put_mask.
  rewrite decide_True by (by rewrite shape2_embedded).
  rewrite decide_False by (by rewrite length_trigger_values).
  pose proof (length_trigger_values model ids) as Hlen.
  destruct (trigger_values model ids) as [|v [|v' vs]]; cbn in Hlen.
  - eauto.
  - lia.
  - eauto.
Qed.

End ForwardPass.

(** C4, on a bundle of one example. *)
Lemma forward_w_triggers_keeps_bundle_witness :
  let s := bundle_state [[1; 2; 3; 4]%Z] [[false; true; false; false]]
             [[false; false; true; true]] [[1; 1; 1; 1]%Z] in
  dicts (forward_w_triggers toy_model 0 None s).2 !! 0 = Some toy_bundle ∧
  (∀ k l t, toy_bundle !! k = Some l → tensors s !! l = Some t →
     tensors (forward_w_triggers toy_model 0 None s).2 !! l = Some t) ∧
  tensors s `prefix_of` tensors (forward_w_triggers toy_model 0 None s).2 ∧
  dicts s `prefix_of` dicts (forward_w_triggers toy_model 0 None s).2.
Proof.
  intros s. apply (forward_w_triggers_keeps_bundle toy_model 0 None s toy_bundle).
  reflexivity.
Defined.

(** C7 (as amended), on a bundle of two examples with three trigger
    positions and one trigger vector. *)
Lemma forward_w_triggers_shape_error_witness :
  ∃ s', forward_w_triggers toy_model 0 None
          (bundle_state [[1; 2; 3]; [4; 5; 6]]%Z
             [[true; true; false]; [false; true; false]]
             [[false; false; true]; [false; false; true]]
             [[1; 1; 1]; [1; 1; 1]]%Z)
        = (Raise RuntimeError, s') ∧ trace s' = [].
Proof.
  apply (forward_w_triggers_shape_error toy_model 0 None
           (bundle_state [[1; 2; 3]; [4; 5; 6]]%Z
              [[true; true; false]; [false; true; false]]
              [[false; false; true]; [false; false; true]]
              [[1; 1; 1]; [1; 1; 1]]%Z)
           toy_bundle 0 2 1
           [[1; 2; 3]; [4; 5; 6]]%Z
           [[true; true; false]; [false; true; false]]);
    try reflexivity; cbn; lia.
Defined.

(** C7 fails as stated: with one example and one trigger vector, a trigger
    mask with two true entries does not match the leading dimension of the
    trigger parameters, yet the single row is broadcast to both positions,
    no error is raised and the model is invoked. *)
Lemma forward_w_triggers_broadcast_counterexample :
  let s := bundle_state [[1; 2; 3]]%Z [[true; true; false]]
             [[false; false; true]] [[1; 1; 1]]%Z in
  mask_sum [[true; true; false]]
    ≠ length [[1; 2; 3]]%Z * length (relation_embeds toy_model) ∧
  ∃ o s', forward_w_triggers toy_model 0 None s = (Ok o, s') ∧
          tensors s' !! 4 = Some (FloatT [[7; 7; 3]]%Z) ∧
          length (trace s') = 1.
Proof.
  intros s. split; [cbn; lia|].
  eexists _, _. split; [vm_compute; reflexivity|]. split; reflexivity.
Defined.

(** C6, on the strategy name "greedy" and on the three named strategies. *)
Lemma decode_strategy_assertion_witness :
  let s := bundle_state [[1; 2; 3; 4]%Z] [[false; true; false; false]]
             [[false; false; true; true]] [[1; 1; 1; 1]%Z] in
  decode toy_model 0 "greedy" s = (Raise AssertionError, s) ∧
  (decode toy_model 0 "parallel" s).1 ≠ Raise AssertionError ∧
  (decode toy_model 0 "monotonic" s).1 ≠ Raise AssertionError ∧
  (decode toy_model 0 "iterative" s).1 ≠ Raise AssertionError.
Proof.
  intros s. split; [|split; [|split]].
  - apply (decode_strategy_assertion toy_model 0 "greedy" s).
    rewrite !elem_of_cons, elem_of_nil. intros [|[|[|[]]]]; discriminate.
  - apply (decode_strategy_assertion toy_model 0 "parallel" s).
    rewrite !elem_of_cons. auto.
  - apply (decode_strategy_assertion toy_model 0 "monotonic" s).
    rewrite !elem_of_cons. auto.
  - apply (decode_strategy_assertion toy_model 0 "iterative" s).
    rewrite !elem_of_cons. auto.
Defined.

(** * Facts about the tensor operations *)

Section TensorFacts.

Lemma rmapM_ok {A B} (f : A → result B) (g : A → B) (l : list A) :
  Forall (λ x, f x = Ok (g x)) l → rmapM f l = Ok (g <$> l).
Proof.
  induction 1 as [|x l Hx _ IH]; cbn; [done|]. by rewrite Hx, IH.
Qed.

Lemma rmapM_inv {A B} (f : A → result B) (l : list A) ys :
  rmapM f l = Ok ys → Forall2 (λ x y, f x = Ok y) l ys.
Proof.
  revert ys. induction l as [|x l IH]; intros ys; cbn.
  - intros [= <-]. constructor.
  - destruct (f x) as [y|] eqn:Hx; cbn; [|done].
    destruct (rmapM f l) as [ys'|]; cbn; [|done].
    intros [= <-]. constructor; auto.
Qed.

Lemma argmax_nonempty l : l ≠ [] → argmax l = Ok (argmax_total l).
Proof. by destruct l. Qed.

Lemma max_value_nonempty l : l ≠ [] → max_value l = Ok (max_total l).
Proof. by destruct l. Qed.

Lemma argmax_last_ok (logits : list (list (list Z))) :
  Forall (Forall (λ v, v ≠ [])) logits →
  argmax_last logits
  = Ok ((λ row : list (list Z), argmax_total <$> row) <$> logits).
Proof.
  intros H. unfold argmax_last. apply rmapM_ok.
  eapply Forall_impl; [apply H|]. intros row Hrow. cbn in *.
  apply rmapM_ok. eapply Forall_impl; [apply Hrow|].
  intros v Hv. by apply argmax_nonempty.
Qed.

Lemma max_last_ok (logits : list (list (list Z))) :
  Forall (Forall (λ v, v ≠ [])) logits →
  max_last logits
  = Ok ((λ row : list (list Z), max_total <$> row) <$> logits).
Proof.
  intros H. unfold max_last. apply rmapM_ok.
  eapply Forall_impl; [apply H|]. intros row Hrow. cbn in *.
  apply rmapM_ok. eapply Forall_impl; [apply Hrow|].
  intros v Hv. by apply max_value_nonempty.
Qed.

(** *** Shapes *)

Lemma shape2_length {A B} (a : list (list A)) (b : list (list B)) :
  shape2 a = shape2 b → length a = length b.
Proof.
  unfold shape2. intros H. by rewrite <- (length_fmap length a), H, length_fmap.
Qed.

Lemma shape2_cons_inv {A B} (x : list A) a (y : list B) b :
  shape2 (x :: a) = shape2 (y :: b) → length x = length y ∧ shape2 a = shape2 b.
Proof. unfold shape2. cbn. by intros [= ? ?]. Qed.

Lemma shape2_full_like {A B} (t : list (list A)) (v : B) :
  shape2 (full_like t v) = shape2 t.
Proof.
  unfold shape2, full_like. rewrite <- list_fmap_compose.
  apply list_fmap_ext. intros i row _. cbn. by rewrite length_fmap.
Qed.

Lemma shape2_fmap2 {A B} (f : A → B) (t : list (list A)) :
  shape2 ((λ row : list A, f <$> row) <$> t) = shape2 t.
Proof.
  unfold shape2. rewrite <- list_fmap_compose.
  apply list_fmap_ext. intros i row _. cbn. by rewrite length_fmap.
Qed.

Lemma put_row_shape {A} (m : list bool) (vals row : list A) :
  length (put_row m vals row).1 = length row.
Proof.
  revert vals row. induction m as [|b m IH]; intros vals [|x row]; cbn; try done.
  destruct b, vals as [|v vals]; cbn.
  - specialize (IH [] row). destruct (put_row m [] row). cbn in *. lia.
  - specialize (IH vals row). destruct (put_row m vals row). cbn in *. lia.
  - specialize (IH [] row). destruct (put_row m [] row). cbn in *. lia.
  - specialize (IH (v :: vals) row). destruct (put_row m (v :: vals) row).
    cbn in *. lia.
Qed.

Lemma shape2_put_rows {A} (mask : list (list bool)) (vals : list A) t :
  shape2 (put_rows mask vals t) = shape2 t.
Proof.
  revert vals t. induction mask as [|m mask IH]; intros vals [|row t]; cbn; try done.
  pose proof (put_row_shape m vals row) as Hrow.
  destruct (put_row m vals row) as [row' rest]. cbn in *.
  unfold shape2 in *. cbn. by rewrite Hrow, IH.
Qed.

Lemma shape2_fill_rows {A} (mask : list (list bool)) (v : A) t :
  shape2 mask = shape2 t → shape2 (fill_rows mask v t) = shape2 t.
Proof.
  revert t. induction mask as [|m mask IH]; intros [|row t] Hs; try done.
  apply shape2_cons_inv in Hs as [Hlen Hs].
  unfold fill_rows, shape2 in *. cbn. rewrite IH by done.
  f_equal. rewrite length_zip_with. lia.
Qed.

(** *** Masked selection followed by masked assignment *)

Lemma put_row_select {A} (m : list bool) (new old rest : list A) :
  length m = length new → length m = length old →
  put_row m (select_row m new ++ rest) old = (choose_row m new old, rest).
Proof.
  revert new old. induction m as [|b m IH]; intros [|x new] [|y old]; cbn;
    try done.
  intros [= Hn] [= Ho]. unfold choose_row in *. cbn.
  destruct b; cbn; by rewrite IH.
Qed.

Lemma put_rows_select {A} (mask : list (list bool)) (new old : list (list A)) rest :
  shape2 mask = shape2 new → shape2 mask = shape2 old →
  put_rows mask (concat (zip_with select_row mask new) ++ rest) old
  = choose mask new old.
Proof.
  revert new old. induction mask as [|m mask IH]; intros [|x new] [|y old];
    try done.
  intros [Hx Hn]%shape2_cons_inv [Hy Ho]%shape2_cons_inv. cbn.
  rewrite <- (assoc_L (++)), put_row_select by done.
  unfold choose in *. cbn. by rewrite IH.
Qed.

Lemma length_select_row {A} (m : list bool) (row : list A) :
  length m = length row → length (select_row m row) = row_sum m.
Proof.
  revert row. induction m as [|b m IH]; intros [|x row]; cbn; try done.
  intros [= H]. rewrite length_app, IH by done. by destruct b.
Qed.

Lemma length_masked {A} (mask : list (list bool)) (t : list (list A)) :
  shape2 mask = shape2 t →
  length (concat (zip_with select_row mask t)) = mask_sum mask.
Proof.
  revert t. induction mask as [|m mask IH]; intros [|row t]; try done.
  intros [Hrow Ht]%shape2_cons_inv. cbn.
  rewrite length_app, length_select_row, IH by done. done.
Qed.

(** [output[mask] = preds[mask]] *)
Lemma masked_copy {A} (mask : list (list bool)) (new old : list (list A)) :
  shape2 mask = shape2 new → shape2 mask = shape2 old →
  rbind (masked_select mask new) (λ sel, index_put_mask mask sel old)
  = Ok (choose mask new old).
Proof.
  intros Hn Ho. unfold masked_select. rewrite decide_True by done. cbn.
  unfold index_put_mask. rewrite decide_True by done.
  rewrite decide_True by (by apply length_masked).
  rewrite <- (put_rows_select mask new old []) by done.
  by rewrite (right_id_L [] (++)).
Qed.

Lemma shape2_choose {A} (mask : list (list bool)) (new old : list (list A)) :
  shape2 mask = shape2 new → shape2 mask = shape2 old →
  shape2 (choose mask new old) = shape2 mask.
Proof.
  revert new old. induction mask as [|m mask IH]; intros [|x new] [|y old];
    try done.
  intros [Hx Hn]%shape2_cons_inv [Hy Ho]%shape2_cons_inv.
  unfold choose, shape2 in *. cbn. rewrite IH by done. f_equal.
  unfold choose_row. rewrite length_zip_with, length_zip. lia.
Qed.

End TensorFacts.

(** * [decode] on the values of the bundle *)

Section DecodeValues.
Context {E : Type}.
Implicit Types (s : state E) (model : Model E) (m : gmap string nat).

Notation "x ← m ; k" := (bind m (λ x, k))
  (at level 20, m at level 100, k at level 200, only parsing).
Notation "m ;; k" := (bind m (λ _, k))
  (at level 100, k at level 200, right associativity).

Lemma index_put_fit model tm ids :
  triggers_fit model tm ids →
  index_put_mask tm (trigger_values model ids) (embedded model ids)
  = Ok (embed_triggers model tm ids).
Proof.
  intros [Hshape Hcount]. unfold embed_triggers, index_put_mask.
  rewrite decide_True by (by rewrite shape2_embedded).
  case_decide as Hlen; [done|].
  rewrite length_trigger_values in Hlen.
  destruct Hcount as [Hc|Hc]; [done|].
  pose proof (length_trigger_values model ids) as Hl. rewrite Hc in Hl.
  by destruct (trigger_values model ids) as [|v [|? ?]].
Qed.

Lemma shape2_embed_triggers model tm ids :
  triggers_fit model tm ids → shape2 (embed_triggers model tm ids) = shape2 ids.
Proof.
  intros Hfit. pose proof (index_put_fit model tm ids Hfit) as Heq.
  destruct Hfit as [Hshape _].
  unfold index_put_mask in Heq.
  rewrite decide_True in Heq by (by rewrite shape2_embedded).
  case_decide.
  - injection Heq as <-. by rewrite shape2_put_rows, shape2_embedded.
  - destruct (trigger_values model ids) as [|v [|? ?]]; try done.
    injection Heq as <-.
    rewrite shape2_fill_rows; by rewrite shape2_embedded.
Qed.

Lemma triggers_fit_shape model tm ids ids' :
  shape2 ids' = shape2 ids → triggers_fit model tm ids → triggers_fit model tm ids'.
Proof.
  intros Hs [H1 H2]. pose proof (shape2_length _ _ Hs) as Hl.
  split; [congruence|]. by rewrite Hl.
Qed.

Lemma value_forward_ok model rest tm (st : dstate E) :
  triggers_fit model tm (d_ids st) →
  value_forward model rest tm st
  = Ok (logits_for model rest tm (d_ids st),
        {| d_ids := d_ids st; d_mask := d_mask st; d_out := d_out st;
           d_trace := d_trace st
                      ++ [Forward (kwargs_for model rest tm (d_ids st)) None] |}).
Proof.
  intros Hfit. unfold value_forward. by rewrite index_put_fit.
Qed.

Lemma logits_for_shape model rest tm ids :
  model_shaped model → triggers_fit model tm ids →
  shape2 (logits_for model rest tm ids) = shape2 ids ∧
  Forall (Forall (λ v, v ≠ [])) (logits_for model rest tm ids).
Proof.
  intros Hm Hfit. unfold logits_for.
  destruct (Hm (kwargs_for model rest tm ids) (embed_triggers model tm ids) None)
    as [Hs Hv].
  { unfold kwargs_for. apply lookup_insert_eq. }
  split; [|done]. by rewrite Hs, shape2_embed_triggers.
Qed.

Section WithBundle.
Variables (model : Model E) (s0 : state E) (d : nat) (m : gmap string nat).
Variables (il pl tl : nat) (ids0 : list (list Z)) (pm0 tm : list (list bool)).
Hypothesis Hb : bundle_at s0 d m il pl tl ids0 pm0 tm.

Let rest := rest_kwargs s0 m.
Let ol := length (tensors s0).

Lemma repr_entry : repr s0 il pl (entry_state s0 ids0) (entry_values s0 ids0 pm0).
Proof.
  constructor; cbn.
  - done.
  - intros l Hl _ _. by rewrite lookup_app_l.
  - apply lookup_before_end, Hb.
  - apply lookup_before_end, Hb.
  - apply lookup_at_end.
  - done.
Qed.

Lemma decode_enter strategy :
  strategy ∈ ["parallel"; "monotonic"; "iterative"] →
  decode model d strategy s0 =
    (if decide (strategy = "parallel") then
      predict_mask ← dict_get d "predict_mask";
      out ← forward_w_triggers model d None;
      preds ← lift (argmax_last (out_logits out));
      pm ← load_bool predict_mask;
      sel ← lift (masked_select pm (to_ids <$> preds));
      o ← load_long ol;
      o' ← lift (index_put_mask pm sel o);
      store ol (LongT o');;
      ret ol
    else if decide (strategy = "monotonic") then
      predict_mask ← dict_get d "predict_mask";
      input_ids ← dict_get d "input_ids";
      pm ← load_bool predict_mask;
      monotonic_loop model d predict_mask input_ids ol (mask_sum pm);;
      ret ol
    else if decide (strategy = "iterative") then
      predict_mask ← dict_get d "predict_mask";
      input_ids ← dict_get d "input_ids";
      pm ← load_bool predict_mask;
      iterative_loop model d predict_mask input_ids ol (mask_sum pm);;
      ret ol
    else raise ValueError) (entry_state s0 ids0).
Proof.
  intros Hs. unfold decode. rewrite bool_decide_eq_true_2 by done.
  rewrite (bind_ok _ _ _ _ _ (dict_get_eq _ _ _ _ _ (b_dict _ _ _ _ _ _ _ _ _ Hb)
                                (b_input_ids _ _ _ _ _ _ _ _ _ Hb))).
  rewrite (bind_ok _ _ _ _ _ (load_long_eq _ _ _ (b_ids _ _ _ _ _ _ _ _ _ Hb))).
  reflexivity.
Qed.

Lemma entry_get k l :
  m !! k = Some l → dict_get d k (entry_state s0 ids0) = (Ok l, (entry_state s0 ids0)).
Proof. intros Hk. eapply dict_get_eq; [apply Hb|done]. Qed.

Lemma decode_monotonic_sim :
  match iterate (monotonic_step model rest tm) (mask_sum pm0) (entry_values s0 ids0 pm0) with
  | Ok st' => ∃ s', decode model d "monotonic" s0 = (Ok ol, s') ∧
                    repr s0 il pl s' st'
  | Raise e => ∃ s', decode model d "monotonic" s0 = (Raise e, s')
  end.
Proof.
  rewrite decode_enter by (rewrite !elem_of_cons; auto).
  rewrite decide_False, decide_True by done.
  rewrite (bind_ok _ _ _ _ _ (entry_get _ _ (b_predict_mask _ _ _ _ _ _ _ _ _ Hb))).
  rewrite (bind_ok _ _ _ _ _ (entry_get _ _ (b_input_ids _ _ _ _ _ _ _ _ _ Hb))).
  rewrite (bind_ok _ _ _ _ _ (load_bool_eq _ _ _ (r_mask _ _ _ _ _ repr_entry))).
  cbn [d_mask entry_values].
  pose proof (monotonic_loop_sim model s0 d m il pl tl ids0 pm0 tm Hb
                (mask_sum pm0) (entry_state s0 ids0) (entry_values s0 ids0 pm0) repr_entry) as Hsim.
  fold rest in Hsim. fold ol in Hsim.
  destruct (iterate _ _ _) as [st'|e].
  - destruct Hsim as (s' & Hrun & Hr). exists s'.
    by rewrite (bind_ok _ _ _ _ _ Hrun).
  - destruct Hsim as (s' & Hrun). exists s'.
    by rewrite (bind_raise _ _ _ _ _ Hrun).
Qed.

Lemma decode_iterative_sim :
  match iterate (iterative_step model rest tm) (mask_sum pm0) (entry_values s0 ids0 pm0) with
  | Ok st' => ∃ s', decode model d "iterative" s0 = (Ok ol, s') ∧
                    repr s0 il pl s' st'
  | Raise e => ∃ s', decode model d "iterative" s0 = (Raise e, s')
  end.
Proof.
  rewrite decode_enter by (rewrite !elem_of_cons; auto).
  rewrite decide_False, decide_False, decide_True by done.
  rewrite (bind_ok _ _ _ _ _ (entry_get _ _ (b_predict_mask _ _ _ _ _ _ _ _ _ Hb))).
  rewrite (bind_ok _ _ _ _ _ (entry_get _ _ (b_input_ids _ _ _ _ _ _ _ _ _ Hb))).
  rewrite (bind_ok _ _ _ _ _ (load_bool_eq _ _ _ (r_mask _ _ _ _ _ repr_entry))).
  cbn [d_mask entry_values].
  pose proof (iterative_loop_sim model s0 d m il pl tl ids0 pm0 tm Hb
                (mask_sum pm0) (entry_state s0 ids0) (entry_values s0 ids0 pm0) repr_entry) as Hsim.
  fold rest in Hsim. fold ol in Hsim.
  destruct (iterate _ _ _) as [st'|e].
  - destruct Hsim as (s' & Hrun & Hr). exists s'.
    by rewrite (bind_ok _ _ _ _ _ Hrun).
  - destruct Hsim as (s' & Hrun). exists s'.
    by rewrite (bind_raise _ _ _ _ _ Hrun).
Qed.

(** The parallel strategy on a bundle of consistent shapes. *)
Lemma decode_parallel_run :
  shape2 pm0 = shape2 ids0 →
  triggers_fit model tm ids0 →
  model_shaped model →
  ∃ s', decode model d "parallel" s0 = (Ok ol, s') ∧
    repr s0 il pl s'
      {| d_ids := ids0; d_mask := pm0;
         d_out := choose pm0
                    (to_ids <$> ((λ row : list (list Z), argmax_total <$> row)
                                   <$> logits_for model rest tm ids0))
                    (full_like ids0 ignore_label);
         d_trace := trace s0
                    ++ [Forward (kwargs_for model rest tm ids0) None] |}.
Proof.
  intros Hshape Hfit Hmodel.
  rewrite decode_enter by (rewrite !elem_of_cons; auto).
  rewrite decide_True by done.
  rewrite (bind_ok _ _ _ _ _ (entry_get _ _ (b_predict_mask _ _ _ _ _ _ _ _ _ Hb))).
  pose proof (forward_sim model s0 d m il pl tl ids0 pm0 tm Hb
                (entry_state s0 ids0) (entry_values s0 ids0 pm0) repr_entry) as Hf.
  fold rest in Hf. rewrite value_forward_ok in Hf by done.
  destruct Hf as (o & s1 & Hf & Hlg & Hr1). cbn [fst snd d_ids entry_values] in *.
  rewrite (bind_ok _ _ _ _ _ Hf), Hlg.
  destruct (logits_for_shape model rest tm ids0 Hmodel Hfit) as [Hls Hlv].
  rewrite bind_lift, (argmax_last_ok _ Hlv). cbv beta iota.
  rewrite (bind_ok _ _ _ _ _ (load_bool_eq _ _ _ (r_mask _ _ _ _ _ Hr1))).
  cbn [d_mask].
  set (preds := to_ids <$> _).
  assert (shape2 pm0 = shape2 preds) as Hp.
  { unfold preds, to_ids. rewrite !shape2_fmap2. congruence. }
  assert (shape2 pm0 = shape2 (full_like ids0 ignore_label)) as Ho.
  { by rewrite shape2_full_like. }
  pose proof (masked_copy pm0 preds _ Hp Ho) as Hcopy.
  unfold masked_select in *. rewrite decide_True in * by done.
  rewrite bind_lift. cbv beta iota.
  rewrite (bind_ok _ _ _ _ _ (load_long_eq _ _ _ (r_out _ _ _ _ _ Hr1))).
  cbn [d_out]. cbn [rbind] in Hcopy. rewrite bind_lift.
  cbn [d_mask d_out d_trace entry_values] in *. rewrite Hcopy. cbv beta iota.
  rewrite bind_store. eexists. split; [reflexivity|].
  pose proof (repr_length s0 il pl _ _ Hr1) as Hlen.
  pose proof (bundle_il_lt s0 d m il pl tl ids0 pm0 tm Hb).
  pose proof (bundle_pl_lt s0 d m il pl tl ids0 pm0 tm Hb).
  constructor; cbn.
  - apply Hr1.
  - intros l ? ? ?. rewrite list_lookup_insert_ne by (unfold ol; lia).
    by apply Hr1.
  - rewrite list_lookup_insert_ne by (unfold ol; lia). apply Hr1.
  - rewrite list_lookup_insert_ne by (unfold ol; lia). apply Hr1.
  - by apply list_lookup_insert_eq.
  - apply Hr1.
Qed.

End WithBundle.
End DecodeValues.

(** * The parallel strategy, and a predict mask without true entries *)

Section Parallel.
Context {E : Type}.
Implicit Types (s : state E) (model : Model E) (m : gmap string nat).

Lemma choose_row_argmax (mrow : list bool) (vs : list (list Z)) (row : list Z) :
  length mrow = length vs → length mrow = length row →
  choose_row mrow (to_ids (argmax_total <$> vs)) ((λ _, ignore_label) <$> row)
  = zip_with (λ (b : bool) (v : list Z),
                if b then Z.of_nat (argmax_total v) else ignore_label) mrow vs.
Proof.
  revert vs row. induction mrow as [|b mrow IH]; intros [|v vs] [|x row];
    try done.
  intros [= Hv] [= Hr]. unfold choose_row, to_ids in *. cbn.
  rewrite IH by done. by destruct b.
Qed.

Lemma choose_argmax (pm : list (list bool)) (lg : list (list (list Z)))
  (ids : list (list Z)) :
  shape2 pm = shape2 lg → shape2 pm = shape2 ids →
  choose pm (to_ids <$> ((λ row : list (list Z), argmax_total <$> row) <$> lg))
    (full_like ids ignore_label)
  = parallel_output pm lg.
Proof.
  revert lg ids. induction pm as [|mrow pm IH]; intros [|vs lg] [|row ids];
    try done.
  intros [Hv Hlg]%shape2_cons_inv [Hr Hids]%shape2_cons_inv.
  unfold choose, parallel_output, full_like in *. cbn.
  rewrite IH by done. by rewrite choose_row_argmax.
Qed.

Lemma choose_row_none {A} (mrow : list bool) (new old : list A) :
  row_sum mrow = 0 → length mrow = length new → length mrow = length old →
  choose_row mrow new old = old.
Proof.
  revert new old. induction mrow as [|b mrow IH]; intros [|x new] [|y old];
    try done.
  intros H0 [= Hn] [= Ho]. destruct b; [done|].
  change (row_sum mrow = 0) in H0.
  unfold choose_row in *. cbn. by rewrite IH.
Qed.

Lemma choose_none {A} (pm : list (list bool)) (new old : list (list A)) :
  mask_sum pm = 0 → shape2 pm = shape2 new → shape2 pm = shape2 old →
  choose pm new old = old.
Proof.
  revert new old. induction pm as [|mrow pm IH]; intros [|x new] [|y old];
    try done.
  intros H0 [Hx Hn]%shape2_cons_inv [Hy Ho]%shape2_cons_inv.
  change (row_sum mrow + mask_sum pm = 0) in H0.
  unfold choose in *. cbn. rewrite IH by (done || lia).
  rewrite choose_row_none by (done || lia). done.
Qed.

(** C5.  On a bundle of consistent shapes, [decode] with the parallel
    strategy invokes the model once, returns an output buffer that holds the
    index of the largest logit at every predict position and the ignore
    label elsewhere, and leaves the predict mask, the token ids and the
    caller's dict as they were. *)
Theorem parallel_decode_argmax model (s0 : state E) d m il pl tl ids0 pm0 tm :
  bundle_at s0 d m il pl tl ids0 pm0 tm →
  shape2 pm0 = shape2 ids0 →
  triggers_fit model tm ids0 →
  model_shaped model →
  ∃ s', decode model d "parallel" s0 = (Ok (length (tensors s0)), s') ∧
    tensors s' !! length (tensors s0)
      = Some (LongT (parallel_output pm0
                       (logits_for model (rest_kwargs s0 m) tm ids0))) ∧
    tensors s' !! il = Some (LongT ids0) ∧
    tensors s' !! pl = Some (BoolT pm0) ∧
    dicts s' !! d = Some m ∧
    trace s' = trace s0
               ++ [Forward (kwargs_for model (rest_kwargs s0 m) tm ids0) None].
Proof.
  intros Hb Hshape Hfit Hmodel.
  destruct (decode_parallel_run model s0 d m il pl tl ids0 pm0 tm Hb
              Hshape Hfit Hmodel) as (s' & Hrun & Hr).
  exists s'. split; [done|].
  destruct (logits_for_shape model (rest_kwargs s0 m) tm ids0 Hmodel Hfit)
    as [Hls _].
  pose proof (r_out _ _ _ _ _ Hr) as Ho. cbn in Ho.
  rewrite choose_argmax in Ho by congruence.
  split; [done|]. split; [apply Hr|]. split; [apply Hr|].
  split; [by eapply repr_dict|]. apply Hr.
Qed.

(** C8.  When the predict mask has no true entry, [decode] returns an
    output buffer that holds the ignore label everywhere and leaves the
    token ids, the predict mask and the caller's dict as they were; the
    monotonic and iterative strategies invoke the model zero times, the
    parallel strategy once. *)
Theorem decode_empty_mask model (s0 : state E) d m il pl tl ids0 pm0 tm strategy :
  bundle_at s0 d m il pl tl ids0 pm0 tm →
  mask_sum pm0 = 0 →
  strategy ∈ ["parallel"; "monotonic"; "iterative"] →
  (strategy = "parallel" →
     shape2 pm0 = shape2 ids0 ∧ triggers_fit model tm ids0 ∧ model_shaped model) →
  ∃ s', decode model d strategy s0 = (Ok (length (tensors s0)), s') ∧
    tensors s' !! length (tensors s0)
      = Some (LongT (full_like ids0 ignore_label)) ∧
    tensors s' !! il = Some (LongT ids0) ∧
    tensors s' !! pl = Some (BoolT pm0) ∧
    dicts s' !! d = Some m ∧
    trace s' = trace s0
               ++ (if decide (strategy = "parallel")
                   then [Forward (kwargs_for model (rest_kwargs s0 m) tm ids0) None]
                   else []).
Proof.
  intros Hb Hzero Hs Hpar.
  rewrite !elem_of_cons, elem_of_nil in Hs.
  destruct Hs as [->|[->|[->|[]]]].
  - destruct (Hpar eq_refl) as (Hshape & Hfit & Hmodel).
    destruct (decode_parallel_run model s0 d m il pl tl ids0 pm0 tm Hb
                Hshape Hfit Hmodel) as (s' & Hrun & Hr).
    exists s'. split; [done|].
    destruct (logits_for_shape model (rest_kwargs s0 m) tm ids0 Hmodel Hfit)
      as [Hls _].
    pose proof (r_out _ _ _ _ _ Hr) as Ho. cbn in Ho.
    rewrite choose_none in Ho; [| done | | by rewrite shape2_full_like].
    2:{ unfold to_ids. rewrite !shape2_fmap2. congruence. }
    split; [done|]. split; [apply Hr|]. split; [apply Hr|].
    split; [by eapply repr_dict|]. rewrite decide_True by done. apply Hr.
  - pose proof (decode_monotonic_sim model s0 d m il pl tl ids0 pm0 tm Hb) as H.
    rewrite Hzero in H. cbn in H. destruct H as (s' & Hrun & Hr).
    exists s'. split; [done|].
    split; [apply Hr|]. split; [apply Hr|]. split; [apply Hr|].
    split; [by eapply repr_dict|]. rewrite decide_False by done.
    rewrite (right_id_L [] (++)). apply Hr.
  - pose proof (decode_iterative_sim model s0 d m il pl tl ids0 pm0 tm Hb) as H.
    rewrite Hzero in H. cbn in H. destruct H as (s' & Hrun & Hr).
    exists s'. split; [done|].
    split; [apply Hr|]. split; [apply Hr|]. split; [apply Hr|].
    split; [by eapply repr_dict|]. rewrite decide_False by done.
    rewrite (right_id_L [] (++)). apply Hr.
Qed.

End Parallel.

(** * The closed examples *)

Lemma toy_popped : popped toy_bundle = {["attention_mask" := 3]}.
Proof. apply map_eq. intros k. vm_compute. reflexivity. Qed.

Lemma toy_bundle_at ids tm pm am :
  bundle_at (bundle_state ids tm pm am) 0 toy_bundle 0 2 1 ids pm tm.
Proof.
  constructor; try reflexivity; try done.
  intros k l. rewrite toy_popped. intros [_ <-]%lookup_singleton_Some.
  cbn. lia.
Qed.

Lemma toy_model_shaped : model_shaped toy_model.
Proof.
  intros kw e labels He. cbn. unfold toy_forward. rewrite He. cbn. split.
  - unfold shape2. rewrite <- list_fmap_compose. apply list_fmap_ext.
    intros i row _. cbn. unfold position_logits. by rewrite length_imap.
  - apply Forall_fmap, Forall_forall. intros row _. cbn.
    unfold position_logits. apply Forall_lookup. intros j v.
    rewrite list_lookup_imap. destruct (row !! j); [|done].
    by intros [= <-].
Qed.

(** C5, on the end-to-end scenario: two examples of length six, the trigger
    at position 1 and the predict position 4 in each, one trigger vector.
    The output buffer is the ignore label everywhere except column 4. *)
Lemma parallel_decode_argmax_witness :
  let ids := [[101; 5; 6; 7; 103; 102]; [101; 8; 9; 10; 103; 102]]%Z in
  let tm := [[false; true; false; false; false; false];
             [false; true; false; false; false; false]] in
  let pm := [[false; false; false; false; true; false];
             [false; false; false; false; true; false]] in
  let s0 := bundle_state ids tm pm
              [[1; 1; 1; 1; 1; 1]; [1; 1; 1; 1; 1; 1]]%Z in
  ∃ s', decode toy_model 0 "parallel" s0 = (Ok 4, s') ∧
    tensors s' !! 4
      = Some (LongT [[-100; -100; -100; -100; 3; -100];
                     [-100; -100; -100; -100; 3; -100]]%Z) ∧
    tensors s' !! 0 = Some (LongT ids) ∧
    tensors s' !! 2 = Some (BoolT pm) ∧
    dicts s' !! 0 = Some toy_bundle ∧
    length (trace s') = 1.
Proof.
  intros ids tm pm s0.
  destruct (parallel_decode_argmax toy_model s0 0 toy_bundle 0 2 1 ids pm tm)
    as (s' & Hrun & Hout & Hids & Hpm & Hd & Htr).
  - apply toy_bundle_at.
  - reflexivity.
  - split; [reflexivity|]. left. reflexivity.
  - apply toy_model_shaped.
  - exists s'. split; [exact Hrun|]. split; [exact Hout|].
    split; [exact Hids|]. split; [exact Hpm|]. split; [exact Hd|].
    rewrite Htr. reflexivity.
Defined.

(** C8, on a bundle of one example without predict positions, for each of
    the three strategies. *)
Lemma decode_empty_mask_witness :
  let ids := [[101; 5; 6; 102]]%Z in
  let pm := [[false; false; false; false]] in
  let s0 := bundle_state ids [[false; true; false; false]] pm [[1; 1; 1; 1]]%Z in
  Forall (λ strategy,
    ∃ s', decode toy_model 0 strategy s0 = (Ok 4, s') ∧
      tensors s' !! 4 = Some (LongT [[-100; -100; -100; -100]]%Z) ∧
      tensors s' !! 0 = Some (LongT ids) ∧
      tensors s' !! 2 = Some (BoolT pm) ∧
      dicts s' !! 0 = Some toy_bundle ∧
      length (trace s') = (if decide (strategy = "parallel") then 1 else 0))
    ["parallel"; "monotonic"; "iterative"].
Proof.
  intros ids pm s0. apply Forall_forall. intros strategy Hs.
  destruct (decode_empty_mask toy_model s0 0 toy_bundle 0 2 1 ids pm
              [[false; true; false; false]] strategy)
    as (s' & Hrun & Hout & Hids & Hpm & Hd & Htr).
  - apply toy_bundle_at.
  - reflexivity.
  - exact Hs.
  - intros _. split; [reflexivity|]. split; [|apply toy_model_shaped].
    split; [reflexivity|]. left. reflexivity.
  - exists s'. split; [exact Hrun|]. split; [exact Hout|].
    split; [exact Hids|]. split; [exact Hpm|]. split; [exact Hd|].
    rewrite Htr. by destruct (decide (strategy = "parallel")).
Defined.

(** * The monotonic strategy on a bundle of one example *)

Section RowMask.

Lemma row_nonzero_elem (k : nat) r (j : nat) :
  j ∈ row_nonzero k r ↔ k ≤ j ∧ r !! (j - k) = Some true.
Proof.
  revert k. induction r as [|b r IH]; intros k; cbn.
  - rewrite elem_of_nil. split; [done|]. by intros [_ ?].
  - rewrite elem_of_app, IH.
    destruct b; [rewrite list_elem_of_singleton | rewrite elem_of_nil]; split.
    + intros [->|[Hle Hl]].
      * rewrite Nat.sub_diag. split; [lia|done].
      * split; [lia|]. by replace (j - k) with (S (j - S k)) by lia.
    + intros [Hle Hl]. destruct (decide (j = k)) as [->|Hne]; [by left|].
      right. split; [lia|].
      by replace (j - k) with (S (j - S k)) in Hl by lia.
    + intros [[]|[Hle Hl]]. split; [lia|].
      by replace (j - k) with (S (j - S k)) by lia.
    + intros [Hle Hl]. right. destruct (decide (j = k)) as [->|Hne].
      * by rewrite Nat.sub_diag in Hl.
      * split; [lia|].
        by replace (j - k) with (S (j - S k)) in Hl by lia.
Qed.

Lemma row_nonzero_sorted k r : StronglySorted lt (row_nonzero k r).
Proof.
  revert k. induction r as [|b r IH]; intros k; cbn; [constructor|].
  destruct b; cbn; [|apply IH].
  constructor; [apply IH|]. apply Forall_forall. intros j Hj.
  apply row_nonzero_elem in Hj. lia.
Qed.

Lemma row_sum_nonzero k r : row_sum r = length (row_nonzero k r).
Proof.
  revert k. induction r as [|b r IH]; intros k; cbn; [done|].
  rewrite length_app, <- IH. fold (row_sum r). by destruct b.
Qed.

Lemma row_nonzero_clear k r p ps :
  row_nonzero k r = p :: ps → row_nonzero k (<[p - k := false]> r) = ps.
Proof.
  revert k. induction r as [|b r IH]; intros k; cbn; [done|].
  destruct b; cbn.
  - intros [= <- <-]. by rewrite Nat.sub_diag.
  - intros Hr. assert (S k ≤ p) as Hp.
    { assert (p ∈ row_nonzero (S k) r) as Hin by (rewrite Hr; left).
      apply row_nonzero_elem in Hin. lia. }
    replace (p - k) with (S (p - S k)) by lia. cbn. by apply IH.
Qed.

Lemma row_nonzero_nil k r :
  row_nonzero k r = [] → r = replicate (length r) false.
Proof.
  revert k. induction r as [|b r IH]; intros k; cbn; [done|].
  destruct b; cbn; [done|]. intros Hr. f_equal. by eapply IH.
Qed.

Lemma nonzero_single mrow : nonzero [mrow] = pair 0 <$> row_nonzero 0 mrow.
Proof. unfold nonzero. cbn. by rewrite (right_id_L [] (++)). Qed.

Lemma mask_sum_single mrow : mask_sum [mrow] = length (row_nonzero 0 mrow).
Proof. cbn. rewrite Nat.add_0_r. apply row_sum_nonzero. Qed.

End RowMask.

Section MonotonicRow.
Context {E : Type}.
Variables (model : Model E) (rest : gmap string (tensor E)).
Variable tm : list (list bool).
Hypothesis Hmodel : model_shaped model.

Lemma single_row_logits x :
  triggers_fit model tm [x] →
  ∃ lrow, logits_for model rest tm [x] = [lrow] ∧ length lrow = length x ∧
          Forall (λ v, v ≠ []) lrow.
Proof.
  intros Hfit.
  destruct (logits_for_shape model rest tm [x] Hmodel Hfit) as [Hs Hv].
  destruct (logits_for model rest tm [x]) as [|lrow [|? ?]]; try done.
  exists lrow. cbn in Hs. injection Hs as Hs.
  split; [done|]. split; [done|]. by inversion Hv.
Qed.

Lemma monotonic_step_row x mrow o tr p ps :
  triggers_fit model tm [x] →
  length mrow = length x → length mrow = length o →
  row_nonzero 0 mrow = p :: ps →
  monotonic_step model rest tm
    {| d_ids := [x]; d_mask := [mrow]; d_out := [o]; d_trace := tr |}
  = Ok {| d_ids := [<[p := row_token model rest tm x p]> x];
          d_mask := [<[p := false]> mrow];
          d_out := [<[p := row_token model rest tm x p]> o];
          d_trace := tr ++ [Forward (kwargs_for model rest tm [x]) None] |}.
Proof.
  intros Hfit Hx Ho Hps.
  assert (p < length mrow) as Hp.
  { assert (p ∈ row_nonzero 0 mrow) as Hin by (rewrite Hps; left).
    apply row_nonzero_elem in Hin as [_ Hin]. rewrite Nat.sub_0_r in Hin.
    by eapply lookup_lt_Some. }
  unfold monotonic_step. rewrite value_forward_ok by done. cbn [rbind fst snd].
  cbn [d_ids d_mask d_out d_trace].
  unfold first_nonzero_col. rewrite nonzero_single, Hps. cbn [fmap list_fmap rbind].
  unfold row_token.
  destruct (single_row_logits x Hfit) as (lrow & -> & Hl & Hv).
  destruct (lookup_lt_is_Some_2 lrow p) as [v Hlv]; [lia|].
  unfold select_col. cbn. rewrite Hlv. cbn.
  rewrite argmax_nonempty by (eapply Forall_lookup_1 in Hv; eauto). cbn.
  unfold setitem_col, fill_col, put_col. cbn.
  rewrite !decide_True by lia. done.
Qed.

Lemma monotonic_iterate_row ps : ∀ x mrow o tr,
  triggers_fit model tm [x] →
  length mrow = length x → length mrow = length o →
  row_nonzero 0 mrow = ps →
  iterate (monotonic_step model rest tm) (length ps)
    {| d_ids := [x]; d_mask := [mrow]; d_out := [o]; d_trace := tr |}
  = Ok {| d_ids := [(commit_in_order model rest tm ps x o tr).1.1];
          d_mask := [replicate (length mrow) false];
          d_out := [(commit_in_order model rest tm ps x o tr).1.2];
          d_trace := (commit_in_order model rest tm ps x o tr).2 |}.
Proof.
  induction ps as [|p ps IH]; intros x mrow o tr Hfit Hx Ho Hps; cbn.
  - by rewrite <- (row_nonzero_nil 0 mrow Hps).
  - rewrite (monotonic_step_row x mrow o tr p ps) by done. cbn.
    rewrite IH.
    + by rewrite length_insert.
    + eapply triggers_fit_shape; [|done]. cbn. by rewrite length_insert.
    + by rewrite !length_insert.
    + by rewrite !length_insert.
    + apply row_nonzero_clear in Hps. by rewrite Nat.sub_0_r in Hps.
Qed.

(** Where the output buffer stands after the commits. *)
Lemma commit_in_order_out ps : ∀ x o tr,
  length (commit_in_order model rest tm ps x o tr).1.2 = length o ∧
  ∀ j, (j ∈ ps → j < length o →
          ∃ t, (commit_in_order model rest tm ps x o tr).1.2 !! j = Some t ∧
               (0 ≤ t)%Z) ∧
       (j ∉ ps → (commit_in_order model rest tm ps x o tr).1.2 !! j = o !! j).
Proof.
  induction ps as [|p ps IH]; intros x o tr; cbn.
  { split; [done|]. intros j. split; [by intros ?%elem_of_nil|done]. }
  set (t := row_token model rest tm x p).
  destruct (IH (<[p := t]> x) (<[p := t]> o)
              (tr ++ [Forward (kwargs_for model rest tm [x]) None]))
    as [Hlen Hj].
  rewrite length_insert in Hlen. split; [done|]. intros j.
  destruct (Hj j) as [Hin Hout]. rewrite length_insert in Hin. split.
  - intros Hjp Hlt. destruct (decide (j ∈ ps)) as [Hps|Hps]; [by apply Hin|].
    apply elem_of_cons in Hjp as [->|?]; [|done].
    exists t. rewrite Hout by done. split.
    + by apply list_lookup_insert_eq.
    + unfold t, row_token.
      destruct (logits_for model rest tm [x]) as [|lrow ?]; [done|].
      destruct (lrow !! p); lia.
  - intros Hnin. apply not_elem_of_cons in Hnin as [Hne Hnin].
    rewrite Hout by done. by apply list_lookup_insert_ne.
Qed.

End MonotonicRow.

Section MonotonicSingle.
Context {E : Type}.

Lemma decode_monotonic_single (model : Model E) (s0 : state E) d m il pl tl
  (x : list Z) (mrow : list bool) tm :
  bundle_at s0 d m il pl tl [x] [mrow] tm →
  length mrow = length x →
  triggers_fit model tm [x] →
  model_shaped model →
  ∃ s', decode model d "monotonic" s0 = (Ok (length (tensors s0)), s') ∧
    repr s0 il pl s'
      {| d_ids := [(commit_in_order model (rest_kwargs s0 m) tm
                      (row_nonzero 0 mrow) x ((λ _, ignore_label) <$> x)
                      (trace s0)).1.1];
         d_mask := [replicate (length mrow) false];
         d_out := [(commit_in_order model (rest_kwargs s0 m) tm
                      (row_nonzero 0 mrow) x ((λ _, ignore_label) <$> x)
                      (trace s0)).1.2];
         d_trace := (commit_in_order model (rest_kwargs s0 m) tm
                       (row_nonzero 0 mrow) x ((λ _, ignore_label) <$> x)
                       (trace s0)).2 |}.
Proof.
  intros Hb Hlen Hfit Hmodel.
  pose proof (decode_monotonic_sim model s0 d m il pl tl [x] [mrow] tm Hb) as H.
  rewrite mask_sum_single in H. unfold entry_values, full_like in H.
  cbn [fmap list_fmap] in H.
  rewrite (monotonic_iterate_row model (rest_kwargs s0 m) tm Hmodel
             (row_nonzero 0 mrow) x mrow) in H;
    [done|done|done|by rewrite length_fmap|done].
Qed.

(** C1 (as amended).  On a bundle of one example, [decode] with the
    monotonic strategy commits the predict positions in strictly increasing
    order of their index: the positions of the predict mask, taken from left
    to right, are committed one after the other, each after one forward pass
    over the token ids that hold the tokens committed before, the predicted
    token being written into both the token ids and the output buffer; at
    the end the predict mask has no true entry left. *)
Theorem decode_monotonic_in_index_order (model : Model E) (s0 : state E)
  d m il pl tl (x : list Z) (mrow : list bool) tm :
  bundle_at s0 d m il pl tl [x] [mrow] tm →
  length mrow = length x →
  triggers_fit model tm [x] →
  model_shaped model →
  StronglySorted lt (row_nonzero 0 mrow) ∧
  (∀ j, j ∈ row_nonzero 0 mrow ↔ mrow !! j = Some true) ∧
  ∃ s', decode model d "monotonic" s0 = (Ok (length (tensors s0)), s') ∧
    ∃ x' o' tr',
      commit_in_order model (rest_kwargs s0 m) tm (row_nonzero 0 mrow) x
        ((λ _, ignore_label) <$> x) (trace s0) = (x', o', tr') ∧
      tensors s' !! il = Some (LongT [x']) ∧
      tensors s' !! length (tensors s0) = Some (LongT [o']) ∧
      tensors s' !! pl = Some (BoolT [replicate (length mrow) false]) ∧
      trace s' = tr'.
Proof.
  intros Hb Hlen Hfit Hmodel.
  split; [apply row_nonzero_sorted|].
  split.
  { intros j. rewrite row_nonzero_elem, Nat.sub_0_r.
    split; [by intros [_ ?]|]. intros ?. split; [lia|done]. }
  destruct (decode_monotonic_single model s0 d m il pl tl x mrow tm
              Hb Hlen Hfit Hmodel) as (s' & Hrun & Hr).
  exists s'. split; [done|].
  destruct (commit_in_order _ _ _ _ _ _ _) as [[x' o'] tr'].
  exists x', o', tr'. split; [done|].
  split; [apply Hr|]. split; [apply Hr|]. split; [apply Hr|]. apply Hr.
Qed.

End MonotonicSingle.

(** C1 (as amended), on one example with the predict positions 2, 5
    and 7: the three forward passes see the token ids with none, one and
    two of the positions committed. *)
Lemma decode_monotonic_in_index_order_witness :
  let x := [101; 11; 0; 12; 13; 0; 14; 0]%Z in
  let mrow := [false; false; true; false; false; true; false; true] in
  let s0 := bundle_state [x]
              [[false; true; false; false; false; false; false; false]]
              [mrow] [[1; 1; 1; 1; 1; 1; 1; 1]]%Z in
  row_nonzero 0 mrow = [2; 5; 7] ∧
  StronglySorted lt (row_nonzero 0 mrow) ∧
  ∃ s', decode toy_model 0 "monotonic" s0 = (Ok 4, s') ∧
    tensors s' !! 0 = Some (LongT [[101; 11; 3; 12; 13; 3; 14; 3]]%Z) ∧
    tensors s' !! 4
      = Some (LongT [[-100; -100; 3; -100; -100; 3; -100; 3]]%Z) ∧
    tensors s' !! 2 = Some (BoolT [replicate 8 false]) ∧
    seen_embeddings (trace s')
      = [Some (FloatT [[101; 7; 0; 12; 13; 0; 14; 0]]%Z);
         Some (FloatT [[101; 7; 3; 12; 13; 0; 14; 0]]%Z);
         Some (FloatT [[101; 7; 3; 12; 13; 3; 14; 0]]%Z)].
Proof.
  intros x mrow s0. split; [reflexivity|].
  destruct (decode_monotonic_in_index_order toy_model s0 0 toy_bundle 0 2 1
              x mrow [[false; true; false; false; false; false; false; false]])
    as (Hsorted & _ & s' & Hrun & x' & o' & tr' & Hc & Hx & Ho & Hm & Htr).
  - apply toy_bundle_at.
  - reflexivity.
  - split; [reflexivity|]. left. reflexivity.
  - apply toy_model_shaped.
  - split; [exact Hsorted|]. exists s'. split; [exact Hrun|].
    vm_compute in Hc. injection Hc as <- <- <-.
    split; [exact Hx|]. split; [exact Ho|]. split; [exact Hm|].
    rewrite Htr. reflexivity.
Defined.

(** C1 fails as stated on bundles of two examples.  When both examples
    have their predict position in column 1, the loop runs twice, the first
    iteration clears column 1 in both rows and the second finds no predict
    position: [decode] raises an index error.  When the first example has
    its predict position in column 2 and the second in column 1, column 2
    is committed first, in both rows: the second forward pass sees column 2
    committed and column 1 as it was. *)
Lemma decode_monotonic_batch_counterexample :
  (decode toy_model 0 "monotonic"
     (bundle_state [[101; 11; 0]; [101; 12; 0]]%Z
        [[true; false; false]; [true; false; false]]
        [[false; true; false]; [false; true; false]]
        [[1; 1; 1]; [1; 1; 1]]%Z)).1 = Raise IndexError ∧
  ∃ s', decode toy_model 0 "monotonic"
          (bundle_state [[101; 11; 0]; [101; 0; 12]]%Z
             [[true; false; false]; [true; false; false]]
             [[false; false; true]; [false; true; false]]
             [[1; 1; 1]; [1; 1; 1]]%Z) = (Ok 4, s') ∧
    seen_embeddings (trace s')
      = [Some (FloatT [[7; 11; 0]; [7; 0; 12]]%Z);
         Some (FloatT [[7; 11; 3]; [7; 0; 3]]%Z)] ∧
    tensors s' !! 4 = Some (LongT [[-100; 3; 3]; [-100; 3; 3]]%Z).
Proof.
  split; [vm_compute; reflexivity|].
  eexists. split; [vm_compute; reflexivity|]. split; reflexivity.
Defined.

(** * The iterative strategy on a bundle of one example *)

Section Reductions.

Lemma argmax_from_spec (l : list Z) : ∀ (bi : nat) (b : Z) (i : nat) (pre : list Z),
  length pre = i → pre !! bi = Some b → (∀ y, y ∈ pre → (y ≤ b)%Z) →
  ∃ v, (pre ++ l) !! argmax_from bi b i l = Some v ∧
       ∀ y, y ∈ pre ++ l → (y ≤ v)%Z.
Proof.
  induction l as [|x l IH]; intros bi b i pre Hlen Hb Hmax; cbn.
  - exists b. rewrite (right_id_L [] (++)). done.
  - destruct (Z.ltb_spec b x) as [Hlt|Hge].
    + destruct (IH i x (S i) (pre ++ [x])) as (v & Hv & Hall).
      * rewrite length_app. cbn. lia.
      * subst i. apply lookup_at_end.
      * intros y [Hy|Hy%list_elem_of_singleton]%elem_of_app.
        { specialize (Hmax y Hy). lia. } { lia. }
      * exists v. by rewrite <- (assoc_L (++)) in Hv, Hall.
    + destruct (IH bi b (S i) (pre ++ [x])) as (v & Hv & Hall).
      * rewrite length_app. cbn. lia.
      * by apply lookup_app_l_Some.
      * intros y [Hy|Hy%list_elem_of_singleton]%elem_of_app.
        { by apply Hmax. } { lia. }
      * exists v. by rewrite <- (assoc_L (++)) in Hv, Hall.
Qed.

Lemma argmax_total_spec (l : list Z) :
  l ≠ [] →
  ∃ v, l !! argmax_total l = Some v ∧ ∀ y, y ∈ l → (y ≤ v)%Z.
Proof.
  destruct l as [|x l]; [done|]. intros _. cbn.
  apply (argmax_from_spec l 0 x 1 [x]); [done|done|].
  intros y ->%list_elem_of_singleton. lia.
Qed.

Lemma foldl_max_spec (l : list Z) : ∀ b,
  (foldl Z.max b l = b ∨ foldl Z.max b l ∈ l) ∧
  (b ≤ foldl Z.max b l)%Z ∧
  ∀ y, y ∈ l → (y ≤ foldl Z.max b l)%Z.
Proof.
  induction l as [|x l IH]; intros b; cbn.
  - split; [by left|]. split; [lia|]. by intros y ?%elem_of_nil.
  - destruct (IH (Z.max b x)) as (Hin & Hle & Hall). split; [|split].
    + destruct Hin as [Heq|Hin]; [|right; by right].
      rewrite Heq. destruct (Z.max_spec b x) as [[_ ->]|[_ ->]];
        [right; left|left]; done.
    + etrans; [apply (Z.le_max_l b x)|exact Hle].
    + intros y [->|Hy]%elem_of_cons; [|by apply Hall].
      etrans; [apply (Z.le_max_r b x)|exact Hle].
Qed.

Lemma max_total_spec (l : list Z) :
  l ≠ [] → max_total l ∈ l ∧ ∀ y, y ∈ l → (y ≤ max_total l)%Z.
Proof.
  destruct l as [|x l]; [done|]. intros _. cbn.
  destruct (foldl_max_spec l x) as (Hin & Hle & Hall). split.
  - destruct Hin as [->|Hin]; [left|by right].
  - intros y [->|Hy]%elem_of_cons; [done|by apply Hall].
Qed.

Lemma max_total_suppressed (v : list Z) :
  v ≠ [] → max_total ((λ _, neg_huge) <$> v) = neg_huge.
Proof.
  intros Hv. destruct (max_total_spec ((λ _, neg_huge) <$> v)) as [Hin _].
  { by destruct v. }
  apply list_elem_of_fmap in Hin as (? & -> & _). done.
Qed.

Lemma row_sum_cons (b : bool) (r : list bool) :
  row_sum (b :: r) = if b then S (row_sum r) else row_sum r.
Proof. done. Qed.

Lemma row_sum_clear (mrow : list bool) p :
  mrow !! p = Some true → S (row_sum (<[p := false]> mrow)) = row_sum mrow.
Proof.
  revert p. induction mrow as [|b mrow IH]; intros [|p]; try done.
  - intros [= ->]. change (<[0:=false]> (true :: mrow)) with (false :: mrow).
    by rewrite !row_sum_cons.
  - intros Hp. change (<[S p:=false]> (b :: mrow)) with (b :: <[p:=false]> mrow).
    rewrite !row_sum_cons. specialize (IH p Hp). destruct b; lia.
Qed.

Lemma row_sum_pos (mrow : list bool) :
  0 < row_sum mrow → ∃ q, mrow !! q = Some true.
Proof.
  induction mrow as [|b mrow IH]; [cbn; lia|]. rewrite row_sum_cons.
  destruct b; [by exists 0|]. intros [q Hq]%IH. by exists (S q).
Qed.

End Reductions.

Section IterativeRow.
Context {E : Type}.
Variables (model : Model E) (rest : gmap string (tensor E)).
Variable tm : list (list bool).
Hypothesis Hmodel : model_shaped model.
Hypothesis Habove : model_above_suppression model.

Lemma suppress_row_lookup mrow lrow q (b : bool) v :
  mrow !! q = Some b → lrow !! q = Some v →
  suppress_row mrow lrow !! q = Some (if b then v else (λ _, neg_huge) <$> v).
Proof.
  intros Hb Hv. unfold suppress_row. by rewrite lookup_zip_with, Hb, Hv.
Qed.

Lemma suppress_row_nonempty mrow lrow :
  Forall (λ v, v ≠ []) lrow → Forall (λ v, v ≠ []) (suppress_row mrow lrow).
Proof.
  intros Hl. apply Forall_lookup. intros q s. unfold suppress_row.
  rewrite lookup_zip_with.
  destruct (mrow !! q) as [b|]; [|done]. cbn.
  destruct (lrow !! q) as [v|] eqn:Hv; [|done]. cbn. intros [= <-].
  eapply Forall_lookup_1 in Hl; [|done].
  destruct b; [done|]. by destruct v.
Qed.

Lemma iterative_step_row x mrow o tr :
  triggers_fit model tm [x] →
  length mrow = length x → length mrow = length o →
  0 < row_sum mrow →
  ∃ p, mrow !! p = Some true ∧
    (∀ q, mrow !! q = Some true →
          (row_top model rest tm x q ≤ row_top model rest tm x p)%Z) ∧
    iterative_step model rest tm
      {| d_ids := [x]; d_mask := [mrow]; d_out := [o]; d_trace := tr |}
    = Ok {| d_ids := [<[p := row_token model rest tm x p]> x];
            d_mask := [<[p := false]> mrow];
            d_out := [<[p := row_token model rest tm x p]> o];
            d_trace := tr ++ [Forward (kwargs_for model rest tm [x]) None] |}.
Proof.
  intros Hfit Hx Ho Hpos.
  destruct (single_row_logits model rest tm Hmodel x Hfit) as (lrow & Hlg & Hl & Hv).
  assert (Forall (λ v, (neg_huge < max_total v)%Z) lrow) as Hab.
  { pose proof (Habove (kwargs_for model rest tm [x]) None) as H.
    fold (logits_for model rest tm [x]) in H. rewrite Hlg in H.
    by inversion H. }
  set (srow := suppress_row mrow lrow).
  set (tops := max_total <$> srow).
  assert (length srow = length mrow) as Hsl.
  { unfold srow, suppress_row. rewrite length_zip_with. lia. }
  destruct (row_sum_pos mrow Hpos) as [q0 Hq0].
  assert (tops ≠ []) as Htops.
  { intros Heq. apply (f_equal length) in Heq. unfold tops in Heq.
    rewrite length_fmap, Hsl in Heq. apply lookup_lt_Some in Hq0.
    cbn in Heq. lia. }
  destruct (argmax_total_spec tops Htops) as (vmax & Hp & Hmax).
  set (p := argmax_total tops) in *.
  assert (p < length mrow) as Hplt.
  { apply lookup_lt_Some in Hp. unfold tops in Hp.
    by rewrite length_fmap, Hsl in Hp. }
  assert (∀ q v, mrow !! q = Some true → lrow !! q = Some v →
                 tops !! q = Some (max_total v) ∧ (neg_huge < max_total v)%Z)
    as Hopen.
  { intros q v Hq Hlq. split.
    - unfold tops. rewrite list_lookup_fmap.
      unfold srow. by rewrite (suppress_row_lookup _ _ _ _ _ Hq Hlq).
    - by eapply Forall_lookup_1 in Hab. }
  destruct (lookup_lt_is_Some_2 lrow p) as [vp Hvp]; [lia|].
  destruct (lookup_lt_is_Some_2 lrow q0) as [v0 Hv0].
  { apply lookup_lt_Some in Hq0. lia. }
  assert (mrow !! p = Some true) as Hpopen.
  { destruct (lookup_lt_is_Some_2 mrow p Hplt) as [[|] Hb]; [done|].
    exfalso.
    assert (tops !! p = Some neg_huge) as Hpn.
    { unfold tops. rewrite list_lookup_fmap.
      unfold srow. rewrite (suppress_row_lookup _ _ _ _ _ Hb Hvp). cbn.
      f_equal. apply max_total_suppressed.
      by eapply Forall_lookup_1 in Hv. }
    destruct (Hopen q0 v0 Hq0 Hv0) as [Ht0 Hgt].
    assert (max_total v0 ∈ tops) as Hin by (eapply list_elem_of_lookup_2; done).
    specialize (Hmax _ Hin). rewrite Hp in Hpn. injection Hpn as ->. lia. }
  assert (∀ q, row_top model rest tm x q
               = match lrow !! q with Some v => max_total v | None => 0%Z end)
    as Htop.
  { intros q. unfold row_top. by rewrite Hlg. }
  assert (row_token model rest tm x p = Z.of_nat (argmax_total vp)) as Htok.
  { unfold row_token. by rewrite Hlg, Hvp. }
  exists p. split; [done|]. split.
  { intros q Hq. rewrite !Htop, Hvp.
    destruct (lookup_lt_is_Some_2 lrow q) as [v Hlq].
    { apply lookup_lt_Some in Hq. lia. }
    rewrite Hlq. destruct (Hopen q v Hq Hlq) as [Htq _].
    destruct (Hopen p vp Hpopen Hvp) as [Htp _].
    rewrite Hp in Htp. injection Htp as ->.
    apply Hmax. by eapply list_elem_of_lookup_2. }
  unfold iterative_step. rewrite value_forward_ok by done. cbn [rbind fst snd].
  cbn [d_ids d_mask d_out d_trace]. rewrite Hlg.
  unfold suppress. rewrite decide_True by (cbn; by rewrite Hl, Hx).
  cbn [rbind zip_with]. fold (suppress_row mrow lrow). fold srow.
  rewrite max_last_ok, argmax_last_ok
    by (repeat constructor; by apply suppress_row_nonempty).
  cbn [rbind fmap list_fmap rmapM]. fold tops.
  rewrite (argmax_nonempty tops Htops). fold p. cbn [rbind].
  unfold select_cols. cbn [rmapM rbind].
  rewrite list_lookup_fmap. unfold srow at 1.
  rewrite (suppress_row_lookup _ _ _ _ _ Hpopen Hvp). cbn [fmap option_fmap option_map rbind].
  unfold setitem_cols, fill_cols, put_col. cbn.
  unfold put_col. rewrite !decide_True by lia. cbn.
  by rewrite Htok.
Qed.

End IterativeRow.

Section IterativeSingle.
Context {E : Type}.

Lemma iterative_iterate_row (model : Model E) rest tm n :
  model_shaped model → model_above_suppression model →
  ∀ x mrow o tr,
  triggers_fit model tm [x] →
  length mrow = length x → length mrow = length o →
  row_sum mrow = n →
  ∃ mrow' x' o' tr',
    iterate (iterative_step model rest tm) n
      {| d_ids := [x]; d_mask := [mrow]; d_out := [o]; d_trace := tr |}
    = Ok {| d_ids := [x']; d_mask := [mrow']; d_out := [o']; d_trace := tr' |} ∧
    greedy_commits model rest tm mrow x o tr (mrow', x', o', tr').
Proof.
  intros Hmodel Habove.
  induction n as [|n IH]; intros x mrow o tr Hfit Hx Ho Hn; cbn [iterate].
  - exists mrow, x, o, tr. split; [done|]. by constructor.
  - destruct (iterative_step_row model rest tm Hmodel Habove x mrow o tr)
      as (p & Hp & Hbest & Hstep); [done|done|done|lia|].
    rewrite Hstep. cbn [rbind].
    destruct (IH (<[p := row_token model rest tm x p]> x) (<[p := false]> mrow)
                (<[p := row_token model rest tm x p]> o)
                (tr ++ [Forward (kwargs_for model rest tm [x]) None]))
      as (mrow' & x' & o' & tr' & Hrun & Hg).
    + eapply triggers_fit_shape; [|done]. cbn. by rewrite length_insert.
    + by rewrite !length_insert.
    + by rewrite !length_insert.
    + pose proof (row_sum_clear mrow p Hp). lia.
    + exists mrow', x', o', tr'. split; [done|].
      by eapply greedy_commit.
Qed.

Lemma row_token_nonneg (model : Model E) rest tm x p :
  (0 ≤ row_token model rest tm x p)%Z.
Proof.
  unfold row_token. destruct (logits_for model rest tm [x]) as [|lrow ?]; [done|].
  destruct (lrow !! p); lia.
Qed.

Lemma row_sum_zero_lookup (mrow : list bool) j :
  row_sum mrow = 0 → mrow !! j ≠ Some true.
Proof.
  revert j. induction mrow as [|b mrow IH]; intros j; [done|].
  rewrite row_sum_cons. destruct b; [done|]. intros H0.
  destruct j as [|j]; [done|]. by apply IH.
Qed.

(** Where the output buffer, the predict mask and the log stand after
    greedy commits. *)
Lemma greedy_commits_out (model : Model E) rest tm mrow x o tr fin :
  greedy_commits model rest tm mrow x o tr fin →
  length mrow = length o →
  length fin.1.2 = length o ∧
  length fin.1.1.1 = length mrow ∧
  row_sum fin.1.1.1 = 0 ∧
  length fin.2 = length tr + row_sum mrow ∧
  ∀ j, (mrow !! j = Some true → ∃ t, fin.1.2 !! j = Some t ∧ (0 ≤ t)%Z) ∧
       (mrow !! j ≠ Some true → fin.1.2 !! j = o !! j).
Proof.
  induction 1 as [mrow x o tr Hz|mrow x o tr p fin Hp Hbest Hg IH];
    intros Hlen; cbn [fst snd].
  - split; [done|]. split; [done|]. split; [done|]. split; [lia|].
    intros j. split; [|done]. intros Hj. by apply row_sum_zero_lookup in Hj.
  - destruct IH as (Ho & Hm & Hz & Htr & Hj).
    { by rewrite !length_insert. }
    rewrite !length_insert in *. rewrite length_app in Htr. cbn in Htr.
    pose proof (row_sum_clear mrow p Hp) as Hsum.
    split; [done|]. split; [done|]. split; [done|]. split; [lia|].
    intros j. destruct (Hj j) as [Hopen Hclosed]. split.
    + intros Hjt. destruct (decide (j = p)) as [->|Hne].
      * exists (row_token model rest tm x p). split; [|apply row_token_nonneg].
        rewrite Hclosed.
        { apply list_lookup_insert_eq. apply lookup_lt_Some in Hp. lia. }
        rewrite list_lookup_insert_eq by (by eapply lookup_lt_Some). done.
      * apply Hopen. by rewrite list_lookup_insert_ne.
    + intros Hjf. assert (j ≠ p) as Hne by (intros ->; done).
      rewrite Hclosed by (by rewrite list_lookup_insert_ne).
      by rewrite list_lookup_insert_ne.
Qed.

Lemma decode_iterative_single (model : Model E) (s0 : state E) d m il pl tl
  (x : list Z) (mrow : list bool) tm :
  bundle_at s0 d m il pl tl [x] [mrow] tm →
  length mrow = length x →
  triggers_fit model tm [x] →
  model_shaped model →
  model_above_suppression model →
  ∃ s' mrow' x' o' tr',
    decode model d "iterative" s0 = (Ok (length (tensors s0)), s') ∧
    greedy_commits model (rest_kwargs s0 m) tm mrow x
      ((λ _, ignore_label) <$> x) (trace s0) (mrow', x', o', tr') ∧
    repr s0 il pl s'
      {| d_ids := [x']; d_mask := [mrow']; d_out := [o']; d_trace := tr' |}.
Proof.
  intros Hb Hlen Hfit Hmodel Habove.
  pose proof (decode_iterative_sim model s0 d m il pl tl [x] [mrow] tm Hb) as H.
  unfold entry_values, full_like in H. cbn [fmap list_fmap] in H.
  destruct (iterative_iterate_row model (rest_kwargs s0 m) tm (mask_sum [mrow])
              Hmodel Habove x mrow ((λ _, ignore_label) <$> x) (trace s0))
    as (mrow' & x' & o' & tr' & Hrun & Hg);
    [done|done|by rewrite length_fmap|cbn; lia|].
  rewrite Hrun in H. destruct H as (s' & Hdec & Hr).
  by exists s', mrow', x', o', tr'.
Qed.

(** C2 (as amended).  On a bundle of one example, with a model whose
    largest logit at every position is above the suppression constant,
    [decode] with the iterative strategy runs one iteration per predict
    position; each iteration runs a forward pass over the current token
    ids, commits an open predict position whose largest logit is not below
    that of any other open position (a suppressed position is never
    chosen), writes the token predicted there into both the token ids and
    the output buffer, and clears the position from the predict mask; at
    the end no predict position is open. *)
Theorem decode_iterative_greedy (model : Model E) (s0 : state E)
  d m il pl tl (x : list Z) (mrow : list bool) tm :
  bundle_at s0 d m il pl tl [x] [mrow] tm →
  length mrow = length x →
  triggers_fit model tm [x] →
  model_shaped model →
  model_above_suppression model →
  ∃ s' mrow' x' o' tr',
    decode model d "iterative" s0 = (Ok (length (tensors s0)), s') ∧
    greedy_commits model (rest_kwargs s0 m) tm mrow x
      ((λ _, ignore_label) <$> x) (trace s0) (mrow', x', o', tr') ∧
    tensors s' !! il = Some (LongT [x']) ∧
    tensors s' !! length (tensors s0) = Some (LongT [o']) ∧
    tensors s' !! pl = Some (BoolT [mrow']) ∧
    trace s' = tr' ∧
    row_sum mrow' = 0 ∧
    length tr' = length (trace s0) + row_sum mrow.
Proof.
  intros Hb Hlen Hfit Hmodel Habove.
  destruct (decode_iterative_single model s0 d m il pl tl x mrow tm
              Hb Hlen Hfit Hmodel Habove)
    as (s' & mrow' & x' & o' & tr' & Hrun & Hg & Hr).
  exists s', mrow', x', o', tr'. split; [done|]. split; [done|].
  split; [apply Hr|]. split; [apply Hr|]. split; [apply Hr|].
  split; [apply Hr|].
  destruct (greedy_commits_out model _ tm mrow x _ _ _ Hg)
    as (_ & _ & Hz & Htr & _); [by rewrite length_fmap|].
  done.
Qed.

End IterativeSingle.

Lemma neg_huge_negative : (neg_huge < 0)%Z.
Proof. reflexivity. Qed.

Lemma toy_model_above : model_above_suppression toy_model.
Proof.
  intros kw labels. cbn. unfold toy_forward.
  destruct (kw !! "inputs_embeds") as [[?|?|e]|]; cbn; try constructor.
  apply Forall_fmap, Forall_forall. intros row _. cbn.
  unfold position_logits. apply Forall_lookup. intros j v.
  rewrite list_lookup_imap. destruct (row !! j) as [e0|]; [|done].
  intros [= <-]. cbn.
  pose proof neg_huge_negative.
  destruct (foldl_max_spec [Z.of_nat j; foldr Z.add 0%Z row] (Z.max 0%Z e0))
    as (_ & Hle & _).
  cbn in Hle. pose proof (Z.le_max_l 0%Z e0). lia.
Qed.

Lemma rising_model_shaped : model_shaped rising_model.
Proof.
  intros kw e labels He. cbn. unfold rising_forward. rewrite He. cbn. split.
  - unfold shape2. rewrite <- list_fmap_compose. apply list_fmap_ext.
    intros i row _. cbn. by rewrite length_imap.
  - apply Forall_fmap, Forall_forall. intros row _. cbn.
    apply Forall_lookup. intros j v.
    rewrite list_lookup_imap. destruct (row !! j); [|done].
    by intros [= <-].
Qed.

Lemma rising_model_above : model_above_suppression rising_model.
Proof.
  intros kw labels. cbn. unfold rising_forward.
  destruct (kw !! "inputs_embeds") as [[?|?|e]|]; cbn; try constructor.
  apply Forall_fmap, Forall_forall. intros row _. cbn.
  apply Forall_lookup. intros j v.
  rewrite list_lookup_imap. destruct (row !! j) as [e0|]; [|done].
  intros [= <-]. cbn.
  pose proof neg_huge_negative.
  pose proof (Z.le_max_l 0%Z (2 * foldr Z.add 0 row + Z.of_nat j)%Z). lia.
Qed.

(** C2 (as amended), on one example with the predict positions 1 and 2 and
    a model whose largest logit is at position 2 on the first pass:
    position 2 is committed first, and the second forward pass sees it. *)
Lemma decode_iterative_greedy_witness :
  let s0 := bundle_state [[5; 0; 0]]%Z [[false; false; false]]
              [[false; true; true]] [[1; 1; 1]]%Z in
  ∃ s' mrow' x' o' tr',
    decode rising_model 0 "iterative" s0 = (Ok 4, s') ∧
    greedy_commits rising_model (rest_kwargs s0 toy_bundle)
      [[false; false; false]] [false; true; true] [5; 0; 0]%Z
      [-100; -100; -100]%Z [] (mrow', x', o', tr') ∧
    tensors s' !! 0 = Some (LongT [[5; 1; 1]]%Z) ∧
    tensors s' !! 4 = Some (LongT [[-100; 1; 1]]%Z) ∧
    tensors s' !! 2 = Some (BoolT [[false; false; false]]) ∧
    seen_embeddings (trace s')
      = [Some (FloatT [[5; 0; 0]]%Z); Some (FloatT [[5; 0; 1]]%Z)].
Proof.
  intros s0.
  destruct (decode_iterative_greedy rising_model s0 0 toy_bundle 0 2 1
              [5; 0; 0]%Z [false; true; true] [[false; false; false]])
    as (s' & mrow' & x' & o' & tr' & Hrun & Hg & _).
  - apply toy_bundle_at.
  - reflexivity.
  - split; [reflexivity|]. left. reflexivity.
  - apply rising_model_shaped.
  - apply rising_model_above.
  - exists s', mrow', x', o', tr'. split; [exact Hrun|]. split; [exact Hg|].
    vm_compute in Hrun. injection Hrun as <-.
    repeat split.
Defined.

(** C2 fails as stated.  On a bundle of two examples with the predict
    position in column 2 of both, the two iterations write column 2 and
    then column 0 of both rows: four entries of the output buffer are
    committed by two forward passes, and column 0 of the token ids is
    overwritten.  On a bundle of one example the logit observed at the
    second selection (13, at position 1) is above the one observed at the
    first selection (12, at position 2).  On a bundle of one example whose
    logits are below the suppression constant, the suppressed position 0 is
    committed and the predict position 1 stays open. *)
Lemma decode_iterative_counterexample :
  (∃ s', decode toy_model 0 "iterative"
           (bundle_state [[101; 11; 0]; [101; 12; 0]]%Z
              [[true; false; false]; [true; false; false]]
              [[false; false; true]; [false; false; true]]
              [[1; 1; 1]; [1; 1; 1]]%Z) = (Ok 4, s') ∧
     length (trace s') = 2 ∧
     tensors s' !! 4 = Some (LongT [[0; -100; 3]; [0; -100; 3]]%Z) ∧
     tensors s' !! 0 = Some (LongT [[0; 11; 3]; [0; 12; 3]]%Z)) ∧
  (let s0 := bundle_state [[5; 0; 0]]%Z [[false; false; false]]
               [[false; true; true]] [[1; 1; 1]]%Z in
   ∃ s', decode rising_model 0 "iterative" s0 = (Ok 4, s') ∧
     seen_embeddings (trace s')
       = [Some (FloatT [[5; 0; 0]]%Z); Some (FloatT [[5; 0; 1]]%Z)] ∧
     row_top rising_model (rest_kwargs s0 toy_bundle) [[false; false; false]]
       [5; 0; 0]%Z 2 = 12%Z ∧
     row_top rising_model (rest_kwargs s0 toy_bundle) [[false; false; false]]
       [5; 0; 1]%Z 1 = 13%Z) ∧
  (∃ s', decode cold_model 0 "iterative"
           (bundle_state [[5; 0; 0]]%Z [[false; false; false]]
              [[false; true; false]] [[1; 1; 1]]%Z) = (Ok 4, s') ∧
     tensors s' !! 4 = Some (LongT [[0; -100; -100]]%Z) ∧
     tensors s' !! 2 = Some (BoolT [[false; true; false]])).
Proof.
  split; [|split].
  - eexists. split; [vm_compute; reflexivity|]. repeat split.
  - intros s0. eexists. split; [vm_compute; reflexivity|].
    split; [reflexivity|]. split; vm_compute; reflexivity.
  - eexists. split; [vm_compute; reflexivity|]. split; reflexivity.
Defined.

(** * The postcondition of [decode] *)

Section Postcondition.
Context {E : Type}.

Lemma shape2_lookup {A B} (a : list (list A)) (b : list (list B)) i ra :
  shape2 a = shape2 b → a !! i = Some ra →
  ∃ rb, b !! i = Some rb ∧ length ra = length rb.
Proof.
  intros Hs Ha. apply (f_equal (.!! i)) in Hs. unfold shape2 in Hs.
  rewrite !list_lookup_fmap, Ha in Hs. cbn in Hs.
  destruct (b !! i) as [rb|]; [|done]. injection Hs as Hs. eauto.
Qed.

Lemma shape2_parallel_output pm lg :
  shape2 pm = shape2 lg → shape2 (parallel_output pm lg) = shape2 pm.
Proof.
  revert lg. induction pm as [|mrow pm IH]; intros [|lrow lg]; try done.
  intros [Hl Hs]%shape2_cons_inv. unfold parallel_output, shape2 in *. cbn.
  rewrite IH by done. f_equal. rewrite length_zip_with. lia.
Qed.

Lemma resolved_parallel pm lg :
  shape2 pm = shape2 lg → resolved pm (parallel_output pm lg).
Proof.
  intros Hs. split; [by apply shape2_parallel_output|].
  intros i j b Hb.
  destruct (pm !! i) as [mrow|] eqn:Hi; [|done]. cbn in Hb.
  destruct (shape2_lookup pm lg i mrow Hs Hi) as (lrow & Hli & Hlen).
  destruct (lookup_lt_is_Some_2 lrow j) as [v Hv].
  { apply lookup_lt_Some in Hb. lia. }
  unfold parallel_output. rewrite lookup_zip_with, Hi, Hli. cbn.
  rewrite lookup_zip_with, Hb, Hv. cbn.
  eexists. split; [done|]. destruct b; [lia|done].
Qed.

Lemma resolved_single (mrow : list bool) (x o' : list Z) :
  length mrow = length x →
  length o' = length x →
  (∀ j, (mrow !! j = Some true → ∃ t, o' !! j = Some t ∧ (0 ≤ t)%Z) ∧
        (mrow !! j ≠ Some true →
           o' !! j = ((λ _, ignore_label) <$> x) !! j)) →
  resolved [mrow] [o'].
Proof.
  intros Hm Ho Hj. split; [cbn; congruence|].
  intros [|i] j b Hb; [|done]. cbn in *.
  destruct (Hj j) as [Hopen Hclosed]. destruct b.
  - destruct (Hopen Hb) as (t & Ht & Hge). eauto.
  - exists ignore_label. split; [|done]. rewrite Hclosed by congruence.
    rewrite list_lookup_fmap.
    destruct (lookup_lt_is_Some_2 x j) as [y ->]; [|done].
    apply lookup_lt_Some in Hb. lia.
Qed.

(** C3 (as amended).  With the parallel strategy on every bundle, and with
    the monotonic and iterative strategies on a bundle of one example (for
    the iterative strategy, with a model whose largest logit at every
    position is above the suppression constant), [decode] returns, and the
    output buffer holds a token id at every position of the predict mask as
    it stood at the call, and the ignore label at every other position. *)
Theorem decode_resolves (model : Model E) (s0 : state E) d m il pl tl
  ids0 pm0 tm strategy :
  strategy ∈ ["parallel"; "monotonic"; "iterative"] →
  bundle_at s0 d m il pl tl ids0 pm0 tm →
  shape2 pm0 = shape2 ids0 →
  triggers_fit model tm ids0 →
  model_shaped model →
  (strategy ≠ "parallel" → length ids0 = 1) →
  (strategy = "iterative" → model_above_suppression model) →
  ∃ s' out,
    decode model d strategy s0 = (Ok (length (tensors s0)), s') ∧
    tensors s' !! length (tensors s0) = Some (LongT out) ∧
    resolved pm0 out.
Proof.
  intros Hs Hb Hshape Hfit Hmodel Hone Habove.
  rewrite !elem_of_cons, elem_of_nil in Hs.
  destruct Hs as [->|[->|[->|[]]]].
  - destruct (decode_parallel_run model s0 d m il pl tl ids0 pm0 tm Hb
                Hshape Hfit Hmodel) as (s' & Hrun & Hr).
    destruct (logits_for_shape model (rest_kwargs s0 m) tm ids0 Hmodel Hfit)
      as [Hls _].
    pose proof (r_out _ _ _ _ _ Hr) as Ho. cbn in Ho.
    rewrite choose_argmax in Ho by congruence.
    eexists s', _. split; [done|]. split; [done|].
    apply resolved_parallel. congruence.
  - specialize (Hone ltac:(done)).
    destruct ids0 as [|x [|? ?]]; try done.
    destruct pm0 as [|mrow [|? ?]]; try done.
    cbn in Hshape. injection Hshape as Hlen.
    destruct (decode_monotonic_single model s0 d m il pl tl x mrow tm
                Hb Hlen Hfit Hmodel) as (s' & Hrun & Hr).
    eexists s', _. split; [done|]. split; [apply Hr|]. cbn [d_out].
    destruct (commit_in_order_out model (rest_kwargs s0 m) tm
                (row_nonzero 0 mrow) x ((λ _, ignore_label) <$> x) (trace s0))
      as [Hol Hj].
    rewrite length_fmap in Hol.
    apply (resolved_single mrow x); [done|done|].
    intros j. destruct (Hj j) as [Hin Hout]. split.
    + intros Hjt. apply Hin.
      * apply row_nonzero_elem. rewrite Nat.sub_0_r. split; [lia|done].
      * rewrite length_fmap. apply lookup_lt_Some in Hjt. lia.
    + intros Hjf. apply Hout. intros [_ Hjt]%row_nonzero_elem.
      by rewrite Nat.sub_0_r in Hjt.
  - specialize (Hone ltac:(done)). specialize (Habove eq_refl).
    destruct ids0 as [|x [|? ?]]; try done.
    destruct pm0 as [|mrow [|? ?]]; try done.
    cbn in Hshape. injection Hshape as Hlen.
    destruct (decode_iterative_single model s0 d m il pl tl x mrow tm
                Hb Hlen Hfit Hmodel Habove)
      as (s' & mrow' & x' & o' & tr' & Hrun & Hg & Hr).
    eexists s', _. split; [done|]. split; [apply Hr|]. cbn [d_out].
    destruct (greedy_commits_out model _ tm mrow x _ _ _ Hg)
      as (Hol & _ & _ & _ & Hj); [by rewrite length_fmap|].
    cbn [fst snd] in *. rewrite length_fmap in Hol.
    by apply (resolved_single mrow x).
Qed.

End Postcondition.

(** C3 (as amended), on a bundle of one example with the predict positions
    2 and 4, for each of the three strategies. *)
Lemma decode_resolves_witness :
  let pm := [[false; false; true; false; true]] in
  let s0 := bundle_state [[101; 11; 0; 12; 0]]%Z
              [[false; true; false; false; false]] pm [[1; 1; 1; 1; 1]]%Z in
  Forall (λ strategy,
    ∃ s' out, decode toy_model 0 strategy s0 = (Ok 4, s') ∧
      tensors s' !! 4 = Some (LongT out) ∧ resolved pm out)
    ["parallel"; "monotonic"; "iterative"].
Proof.
  intros pm s0. apply Forall_forall. intros strategy Hs.
  apply (decode_resolves toy_model s0 0 toy_bundle 0 2 1
           [[101; 11; 0; 12; 0]]%Z pm
           [[false; true; false; false; false]] strategy).
  - exact Hs.
  - apply toy_bundle_at.
  - reflexivity.
  - split; [reflexivity|]. left. reflexivity.
  - apply toy_model_shaped.
  - intros _. reflexivity.
  - intros _. apply toy_model_above.
Defined.

(** C3 fails as stated.  On a bundle of two examples, the monotonic
    strategy (predict positions in columns 2 and 1) and the iterative
    strategy (predict position in column 2 of both examples) return an
    output buffer with token ids at positions outside the predict mask.  On
    a bundle of one example whose logits are below the suppression
    constant, the iterative strategy commits the suppressed position 0 and
    leaves the predict position 1 at the ignore label. *)
Lemma decode_resolves_counterexample :
  (let pm := [[false; false; true]; [false; true; false]] in
   ∃ s' out, decode toy_model 0 "monotonic"
               (bundle_state [[101; 11; 0]; [101; 0; 12]]%Z
                  [[true; false; false]; [true; false; false]] pm
                  [[1; 1; 1]; [1; 1; 1]]%Z) = (Ok 4, s') ∧
     tensors s' !! 4 = Some (LongT out) ∧
     out = [[-100; 3; 3]; [-100; 3; 3]]%Z ∧ ¬ resolved pm out) ∧
  (let pm := [[false; false; true]; [false; false; true]] in
   ∃ s' out, decode toy_model 0 "iterative"
               (bundle_state [[101; 11; 0]; [101; 12; 0]]%Z
                  [[true; false; false]; [true; false; false]] pm
                  [[1; 1; 1]; [1; 1; 1]]%Z) = (Ok 4, s') ∧
     tensors s' !! 4 = Some (LongT out) ∧
     out = [[0; -100; 3]; [0; -100; 3]]%Z ∧ ¬ resolved pm out) ∧
  (let pm := [[false; true; false]] in
   ∃ s' out, decode cold_model 0 "iterative"
               (bundle_state [[5; 0; 0]]%Z [[false; false; false]] pm
                  [[1; 1; 1]]%Z) = (Ok 4, s') ∧
     tensors s' !! 4 = Some (LongT out) ∧
     out = [[0; -100; -100]]%Z ∧ ¬ resolved pm out).
Proof.
  split; [|split]; intros pm.
  - eexists _, _. split; [vm_compute; reflexivity|].
    split; [reflexivity|]. split; [reflexivity|].
    intros [_ H]. destruct (H 0 1 false eq_refl) as (t & Ht & Hv).
    cbn in Ht. injection Ht as <-. discriminate Hv.
  - eexists _, _. split; [vm_compute; reflexivity|].
    split; [reflexivity|]. split; [reflexivity|].
    intros [_ H]. destruct (H 0 0 false eq_refl) as (t & Ht & Hv).
    cbn in Ht. injection Ht as <-. discriminate Hv.
  - eexists _, _. split; [vm_compute; reflexivity|].
    split; [reflexivity|]. split; [reflexivity|].
    intros [_ H]. destruct (H 0 1 true eq_refl) as (t & Ht & Hv).
    cbn in Ht. injection Ht as <-. by vm_compute in Hv.
Defined.

(** * Column-wide commits of the monotonic and iterative strategies *)

Section ColumnWrites.

Lemma Forall2_compose {A B C} (R1 : A → B → Prop) (R2 : B → C → Prop)
  (R3 : A → C → Prop) l0 l l' :
  (∀ x y z, R1 x y → R2 y z → R3 x z) →
  Forall2 R1 l0 l → Forall2 R2 l l' → Forall2 R3 l0 l'.
Proof.
  intros HR H1. revert l'. induction H1 as [|x y l0 l Hxy _ IH]; intros l' H2.
  - inversion H2. constructor.
  - inversion H2 as [|? z ? l'' Hyz Hrest]; subst. constructor; eauto.
Qed.

Lemma row_update_refl {A} (P : A → Prop) (row : list A) : row_update [] P row row.
Proof.
  split; [done|]. intros j. split; [done|]. by intros ?%elem_of_nil.
Qed.

Lemma row_update_trans {A} (P : A → Prop) cols C (r0 r r' : list A) :
  row_update C P r0 r → row_update cols P r r' →
  row_update (cols ++ C) P r0 r'.
Proof.
  intros [Hl1 H1] [Hl2 H2]. split; [congruence|]. intros j.
  destruct (H1 j) as [H1o H1c]. destruct (H2 j) as [H2o H2c]. split.
  - intros [Hn1 Hn2]%not_elem_of_app. rewrite H2o, H1o; done.
  - intros Hin v Hv. destruct (decide (j ∈ cols)) as [Hc|Hc]; [by eapply H2c|].
    apply elem_of_app in Hin as [?|Hin]; [done|].
    rewrite H2o in Hv by done. by eapply H1c.
Qed.

Lemma put_col_update {A} (P : A → Prop) idx (v : A) row row' :
  put_col idx v row = Ok row' → P v → row_update [idx] P row row'.
Proof.
  unfold put_col. case_decide as Hlt; [|done]. intros [= <-] Hv.
  split; [by rewrite length_insert|]. intros j. split.
  - intros [Hne _]%not_elem_of_cons. apply list_lookup_insert_ne. congruence.
  - intros ->%list_elem_of_singleton w.
    rewrite list_lookup_insert_eq by done. by intros [= <-].
Qed.

Lemma put_cols_update {A} (P : A → Prop) idx : ∀ (vs row row' : list A),
  put_cols idx vs row = Ok row' → Forall P vs → row_update idx P row row'.
Proof.
  induction idx as [|j idx IH]; intros [|v vs] row row'; cbn; try done.
  - intros [= <-] _. apply row_update_refl.
  - destruct (put_col j v row) as [row1|] eqn:H1; cbn; [|done].
    intros H2 Hvs. inversion Hvs as [|? ? Hv Hvs']; subst.
    pose proof (put_col_update P j v row row1 H1 Hv) as [Hl1 Hu1].
    pose proof (IH vs row1 row' H2 Hvs') as [Hl2 Hu2].
    split; [congruence|]. intros k.
    destruct (Hu1 k) as [H1o H1c]. destruct (Hu2 k) as [H2o H2c]. split.
    + intros [Hne Hn]%not_elem_of_cons. rewrite H2o by done.
      apply H1o. by intros ->%list_elem_of_singleton.
    + intros Hin w Hw. destruct (decide (k ∈ idx)) as [Hk|Hk]; [by eapply H2c|].
      apply elem_of_cons in Hin as [->|?]; [|done].
      rewrite H2o in Hw by done. eapply H1c; [|done]. by left.
Qed.

Lemma put_cols_agree {A} idx : ∀ (vs ra rb ra' rb' : list A),
  put_cols idx vs ra = Ok ra' → put_cols idx vs rb = Ok rb' →
  rows_agree idx ra' rb'.
Proof.
  induction idx as [|j idx IH]; intros [|v vs] ra rb ra' rb'; cbn; try done.
  - intros _ _ k ?%elem_of_nil. done.
  - destruct (put_col j v ra) as [ra1|] eqn:Ha; cbn; [|done].
    destruct (put_col j v rb) as [rb1|] eqn:Hb; cbn; [|done].
    intros Ha' Hb' k Hk.
    destruct (decide (k ∈ idx)) as [Hin|Hin]; [by eapply IH|].
    apply elem_of_cons in Hk as [->|?]; [|done].
    destruct (put_cols_update (λ _, True) idx vs ra1 ra' Ha') as [_ Hua].
    { by apply Forall_true. }
    destruct (put_cols_update (λ _, True) idx vs rb1 rb' Hb') as [_ Hub].
    { by apply Forall_true. }
    destruct (Hua j) as [Hja _]. destruct (Hub j) as [Hjb _].
    rewrite Hja, Hjb by done.
    unfold put_col in Ha, Hb. repeat case_decide; try done.
    injection Ha as <-. injection Hb as <-.
    by rewrite !list_lookup_insert_eq.
Qed.

(** Row-wise operations on the rows of a tensor. *)
Lemma rmapM_rows {A B} (f : A → result B) (R : A → B → Prop) l t' :
  rmapM f l = Ok t' → (∀ a b, f a = Ok b → R a b) → Forall2 R l t'.
Proof.
  intros H HR. apply rmapM_inv in H. eapply Forall2_impl; [done|]. auto.
Qed.

Lemma rmapM_zip_rows {A B C} (f : A * B → result C) (R : B → C → Prop)
  (vals : list A) (t : list B) t' :
  length vals = length t →
  rmapM f (zip vals t) = Ok t' →
  (∀ v row row', v ∈ vals → f (v, row) = Ok row' → R row row') →
  Forall2 R t t'.
Proof.
  intros Hlen H HR. apply rmapM_inv in H.
  apply Forall2_same_length_lookup. split.
  - apply Forall2_length in H. rewrite length_zip in H. lia.
  - intros i row row' Hrow Hrow'.
    destruct (lookup_lt_is_Some_2 vals i) as [v Hv].
    { apply lookup_lt_Some in Hrow. lia. }
    assert (zip vals t !! i = Some (v, row)) as Hz.
    { by apply lookup_zip_Some. }
    eapply HR; [by eapply list_elem_of_lookup_2|].
    eapply (Forall2_lookup_lr _ _ _ i) in H; done.
Qed.

Lemma setitem_col_update {A} (P : A → Prop) idx (vals : list A) t t' :
  setitem_col idx vals t = Ok t' → Forall P vals →
  Forall2 (row_update [idx] P) t t'.
Proof.
  unfold setitem_col. case_decide as Hlen; [|done]. intros H HP.
  eapply rmapM_zip_rows; [done|done|].
  intros v row row' Hv Hput. cbn in Hput.
  eapply put_col_update; [done|]. by eapply Forall_forall in HP.
Qed.

Lemma fill_col_update {A} (P : A → Prop) idx (v : A) t t' :
  fill_col idx v t = Ok t' → P v → Forall2 (row_update [idx] P) t t'.
Proof.
  unfold fill_col. intros H HP. eapply rmapM_rows; [done|].
  intros row row' Hput. by eapply put_col_update.
Qed.

Lemma setitem_cols_update {A} (P : A → Prop) idx (vals : list (list A)) t t' :
  setitem_cols idx vals t = Ok t' → Forall (Forall P) vals →
  Forall2 (row_update idx P) t t'.
Proof.
  unfold setitem_cols. case_decide as Hlen; [|done]. intros H HP.
  eapply rmapM_zip_rows; [done|done|].
  intros v row row' Hv Hput. cbn in Hput.
  eapply put_cols_update; [done|]. by eapply Forall_forall in HP.
Qed.

Lemma fill_cols_update {A} (P : A → Prop) idx (v : A) t t' :
  fill_cols idx v t = Ok t' → P v → Forall2 (row_update idx P) t t'.
Proof.
  unfold fill_cols. intros H HP. eapply rmapM_rows; [done|].
  intros row row' Hput. eapply put_cols_update; [done|].
  apply Forall_fmap, Forall_true. done.
Qed.

Lemma setitem_cols_agree {A} idx (vals : list (list A)) a a' b b' :
  setitem_cols idx vals a = Ok a' → setitem_cols idx vals b = Ok b' →
  Forall2 (rows_agree idx) a' b'.
Proof.
  unfold setitem_cols. repeat case_decide; try done.
  intros Ha%rmapM_inv Hb%rmapM_inv.
  pose proof (Forall2_length _ _ _ Ha) as Hla.
  pose proof (Forall2_length _ _ _ Hb) as Hlb.
  rewrite length_zip in Hla, Hlb.
  apply Forall2_same_length_lookup. split; [lia|].
  intros i ra' rb' Hra' Hrb'.
  destruct (Forall2_lookup_r _ _ _ i ra' Ha Hra') as ([va ra] & Hza & Hpa).
  destruct (Forall2_lookup_r _ _ _ i rb' Hb Hrb') as ([vb rb] & Hzb & Hpb).
  apply lookup_zip_Some in Hza as [Hva _]. apply lookup_zip_Some in Hzb as [Hvb _].
  assert (vb = va) as -> by congruence. cbn in *.
  by eapply put_cols_agree.
Qed.

Lemma setitem_col_agree {A} idx (vals : list A) a a' b b' :
  setitem_col idx vals a = Ok a' → setitem_col idx vals b = Ok b' →
  Forall2 (rows_agree [idx]) a' b'.
Proof.
  unfold setitem_col. repeat case_decide; try done.
  intros Ha%rmapM_inv Hb%rmapM_inv.
  pose proof (Forall2_length _ _ _ Ha) as Hla.
  pose proof (Forall2_length _ _ _ Hb) as Hlb.
  rewrite length_zip in Hla, Hlb.
  apply Forall2_same_length_lookup. split; [lia|].
  intros i ra' rb' Hra' Hrb'.
  destruct (Forall2_lookup_r _ _ _ i ra' Ha Hra') as ([va ra] & Hza & Hpa).
  destruct (Forall2_lookup_r _ _ _ i rb' Hb Hrb') as ([vb rb] & Hzb & Hpb).
  apply lookup_zip_Some in Hza as [Hva _]. apply lookup_zip_Some in Hzb as [Hvb _].
  assert (vb = va) as -> by congruence. cbn in *.
  unfold put_col in Hpa, Hpb. repeat case_decide; try done.
  injection Hpa as <-. injection Hpb as <-.
  intros j ->%list_elem_of_singleton. by rewrite !list_lookup_insert_eq.
Qed.

Lemma to_ids_nonneg (pred : list nat) : Forall (λ t, (0 ≤ t)%Z) (to_ids pred).
Proof. apply Forall_fmap, Forall_true. intros n. cbn. lia. Qed.

End ColumnWrites.

Section ColumnInvariant.
Context {E : Type}.
Variables (model : Model E) (rest : gmap string (tensor E)).
Variable tm : list (list bool).
Variables (ids0 out0 : list (list Z)) (pm0 : list (list bool)).

Lemma columns_inv_entry (tr : list (event E)) :
  length out0 = length ids0 →
  columns_inv [] ids0 out0 pm0
    {| d_ids := ids0; d_mask := pm0; d_out := out0; d_trace := tr |}.
Proof.
  intros Hlen. constructor; cbn.
  - apply Forall2_same_length_lookup. split; [done|].
    intros i x y Hx Hy. assert (y = x) as -> by congruence.
    apply row_update_refl.
  - apply Forall2_same_length_lookup. split; [done|].
    intros i x y Hx Hy. assert (y = x) as -> by congruence.
    apply row_update_refl.
  - apply Forall2_same_length_lookup. split; [done|].
    intros i x y Hx Hy. assert (y = x) as -> by congruence.
    apply row_update_refl.
  - apply Forall2_same_length_lookup. split; [done|].
    intros i x y _ _ j ?%elem_of_nil. done.
Qed.

Lemma columns_inv_step C cols (st : dstate E) ids' o' pm' (tr' : list (event E)) :
  columns_inv C ids0 out0 pm0 st →
  Forall2 (row_update cols (λ _, True)) (d_ids st) ids' →
  Forall2 (row_update cols (λ t, (0 ≤ t)%Z)) (d_out st) o' →
  Forall2 (row_update cols (λ b, b = false)) (d_mask st) pm' →
  Forall2 (rows_agree cols) ids' o' →
  columns_inv (cols ++ C) ids0 out0 pm0
    {| d_ids := ids'; d_mask := pm'; d_out := o'; d_trace := tr' |}.
Proof.
  intros [Hi Ho Hm Ha] Hi' Ho' Hm' Ha'. constructor; cbn.
  - eapply Forall2_compose; [|exact Hi|exact Hi'].
    intros ???. apply row_update_trans.
  - eapply Forall2_compose; [|exact Ho|exact Ho'].
    intros ???. apply row_update_trans.
  - eapply Forall2_compose; [|exact Hm|exact Hm'].
    intros ???. apply row_update_trans.
  - apply Forall2_same_length_lookup. split; [by eapply Forall2_length|].
    intros i x' y' Hx' Hy' j Hj.
    destruct (decide (j ∈ cols)) as [Hc|Hc].
    { eapply (Forall2_lookup_lr _ _ _ i) in Ha'; [|done..]. by apply Ha'. }
    apply elem_of_app in Hj as [?|Hj]; [done|].
    destruct (Forall2_lookup_r _ _ _ i x' Hi' Hx') as (x & Hx & [_ Hux]).
    destruct (Forall2_lookup_r _ _ _ i y' Ho' Hy') as (y & Hy & [_ Huy]).
    destruct (Hux j) as [Hjx _]. destruct (Huy j) as [Hjy _].
    rewrite Hjx, Hjy by done.
    eapply (Forall2_lookup_lr _ _ _ i) in Ha; [|done..]. by apply Ha.
Qed.

Lemma value_forward_inv (st : dstate E) r :
  value_forward model rest tm st = Ok r →
  d_ids r.2 = d_ids st ∧ d_mask r.2 = d_mask st ∧ d_out r.2 = d_out st ∧
  length (d_trace r.2) = S (length (d_trace st)).
Proof.
  unfold value_forward. destruct (index_put_mask _ _ _); cbn; [|done].
  intros [= <-]. cbn. rewrite length_app. cbn. repeat split; lia.
Qed.

Lemma monotonic_step_columns C (st st' : dstate E) :
  monotonic_step model rest tm st = Ok st' →
  columns_inv C ids0 out0 pm0 st →
  ∃ cols, columns_inv (cols ++ C) ids0 out0 pm0 st' ∧
          length (d_trace st') = S (length (d_trace st)).
Proof.
  unfold monotonic_step. intros Hstep Hinv.
  destruct (value_forward model rest tm st) as [r|] eqn:Hf; cbn in Hstep; [|done].
  destruct (value_forward_inv st r Hf) as (Hi & Hm & Ho & Htr).
  destruct (first_nonzero_col _) as [idx|]; cbn in Hstep; [|done].
  destruct (select_col idx r.1) as [col|]; cbn in Hstep; [|done].
  destruct (rmapM argmax col) as [pred|]; cbn in Hstep; [|done].
  destruct (setitem_col idx (to_ids pred) (d_ids r.2)) as [ids'|] eqn:Hids;
    cbn in Hstep; [|done].
  destruct (setitem_col idx (to_ids pred) (d_out r.2)) as [o'|] eqn:Hout;
    cbn in Hstep; [|done].
  destruct (fill_col idx false (d_mask r.2)) as [pm'|] eqn:Hpm;
    cbn in Hstep; [|done].
  injection Hstep as <-. rewrite Hi in Hids. rewrite Ho in Hout.
  rewrite Hm in Hpm. exists [idx]. split; [|done].
  apply (columns_inv_step C [idx] st); [done|..].
  - eapply setitem_col_update; [done|]. by apply Forall_true.
  - eapply setitem_col_update; [done|]. apply to_ids_nonneg.
  - by eapply fill_col_update.
  - by eapply setitem_col_agree.
Qed.

Lemma iterative_step_columns C (st st' : dstate E) :
  iterative_step model rest tm st = Ok st' →
  columns_inv C ids0 out0 pm0 st →
  ∃ cols, columns_inv (cols ++ C) ids0 out0 pm0 st' ∧
          length (d_trace st') = S (length (d_trace st)).
Proof.
  unfold iterative_step. intros Hstep Hinv.
  destruct (value_forward model rest tm st) as [r|] eqn:Hf; cbn in Hstep; [|done].
  destruct (value_forward_inv st r Hf) as (Hi & Hm & Ho & Htr).
  destruct (suppress _ _) as [logits|]; cbn in Hstep; [|done].
  destruct (max_last logits) as [top|]; cbn in Hstep; [|done].
  destruct (argmax_last logits) as [preds|]; cbn in Hstep; [|done].
  destruct (rmapM argmax top) as [idx|]; cbn in Hstep; [|done].
  destruct (select_cols idx preds) as [pred|]; cbn in Hstep; [|done].
  destruct (setitem_cols idx (to_ids <$> pred) (d_ids r.2)) as [ids'|] eqn:Hids;
    cbn in Hstep; [|done].
  destruct (setitem_cols idx (to_ids <$> pred) (d_out r.2)) as [o'|] eqn:Hout;
    cbn in Hstep; [|done].
  destruct (fill_cols idx false (d_mask r.2)) as [pm'|] eqn:Hpm;
    cbn in Hstep; [|done].
  injection Hstep as <-. rewrite Hi in Hids. rewrite Ho in Hout.
  rewrite Hm in Hpm. exists idx. split; [|done].
  apply (columns_inv_step C idx st); [done|..].
  - eapply setitem_cols_update; [done|]. apply Forall_true. intros ?.
    by apply Forall_true.
  - eapply setitem_cols_update; [done|]. apply Forall_fmap, Forall_true.
    intros ?. apply to_ids_nonneg.
  - by eapply fill_cols_update.
  - by eapply setitem_cols_agree.
Qed.

Lemma iterate_columns (step : dstate E → result (dstate E)) :
  (∀ C st st', step st = Ok st' → columns_inv C ids0 out0 pm0 st →
     ∃ cols, columns_inv (cols ++ C) ids0 out0 pm0 st' ∧
             length (d_trace st') = S (length (d_trace st))) →
  ∀ n C st st', iterate step n st = Ok st' →
    columns_inv C ids0 out0 pm0 st →
    ∃ C', columns_inv C' ids0 out0 pm0 st' ∧
          length (d_trace st') = length (d_trace st) + n.
Proof.
  intros Hstep. induction n as [|n IH]; intros C st st'; cbn.
  - intros [= <-] Hinv. exists C. split; [done|lia].
  - destruct (step st) as [st1|] eqn:H1; cbn; [|done]. intros Hn Hinv.
    destruct (Hstep C st st1 H1 Hinv) as (cols & Hinv1 & Htr1).
    destruct (IH _ st1 st' Hn Hinv1) as (C' & Hinv' & Htr').
    exists C'. split; [done|lia].
Qed.

End ColumnInvariant.

(** * The iterations of the loops, entry by entry *)

Section EntryWrites.


















End EntryWrites.

Section StepCommits.
Context {E : Type}.
Variables (model : Model E) (rest : gmap string (tensor E)).
Variable tm : list (list bool).




Lemma setitem_cols_length {A} idx (vals : list (list A)) t t' :
  setitem_cols idx vals t = Ok t' → length vals = length t.
Proof. unfold setitem_cols. by case_decide. Qed.






End StepCommits.

Section ColumnTheorem.
Context {E : Type}.

Lemma ent_row_update_out {A} (P : A → Prop) C (t0 t : list (list A)) i j :
  Forall2 (row_update C P) t0 t → j ∉ C → ent t i j = ent t0 i j.
Proof.
  intros H Hj. unfold ent. destruct (t !! i) as [row|] eqn:Hrow; cbn.
  - destruct (Forall2_lookup_r _ _ _ i row H Hrow) as (row0 & -> & [_ Hu]).
    cbn. by apply Hu.
  - apply Forall2_length in H. apply lookup_ge_None in Hrow.
    rewrite (proj2 (lookup_ge_None t0 i)) by lia. done.
Qed.

Lemma ent_row_update_in {A} (P : A → Prop) C (t0 t : list (list A)) i j v :
  Forall2 (row_update C P) t0 t → j ∈ C → ent t i j = Some v → P v.
Proof.
  intros H Hj. unfold ent. destruct (t !! i) as [row|] eqn:Hrow; cbn; [|done].
  destruct (Forall2_lookup_r _ _ _ i row H Hrow) as (row0 & _ & [_ Hu]).
  by apply Hu.
Qed.


Lemma ent_full_like {A B} (t : list (list A)) (v w : B) i j :
  ent (full_like t v) i j = Some w → w = v.
Proof.
  unfold ent, full_like. rewrite list_lookup_fmap.
  destruct (t !! i) as [row|]; cbn; [|done]. rewrite list_lookup_fmap.
  destruct (row !! j); cbn; [|done]. by intros [= <-].
Qed.

(** When every commit is a whole column, an output buffer that meets the
    postcondition forces the rows of the predict mask to agree. *)
Lemma columns_inv_identical C ids0 (pm0 : list (list bool)) (st : dstate E) :
  columns_inv C ids0 (full_like ids0 ignore_label) pm0 st →
  resolved pm0 (d_out st) →
  ∀ i i' j (b b' : bool),
    ent pm0 i j = Some b → ent pm0 i' j = Some b' → b = b'.
Proof.
  intros Hinv [_ Hres].
  assert (∀ i j (b : bool), ent pm0 i j = Some b → b = bool_decide (j ∈ C))
    as Hkey.
  { intros i j b Hb. destruct (Hres i j b Hb) as (t & Ht & Hv).
    fold (ent (d_out st) i j) in Ht.
    destruct (decide (j ∈ C)) as [Hj|Hj].
    - rewrite bool_decide_eq_true_2 by done.
      pose proof (ent_row_update_in _ _ _ _ _ _ _ (ci_out _ _ _ _ _ Hinv) Hj Ht)
        as Hge.
      destruct b; [done|]. subst t. by vm_compute in Hge.
    - rewrite bool_decide_eq_false_2 by done.
      rewrite (ent_row_update_out _ _ _ _ i j (ci_out _ _ _ _ _ Hinv) Hj) in Ht.
      apply ent_full_like in Ht. subst t.
      destruct b; [|done]. by vm_compute in Hv. }
  intros i i' j b b' Hb Hb'.
  by rewrite (Hkey i j b Hb), (Hkey i' j b' Hb').
Qed.



End ColumnTheorem.


(** * Permuting the examples of a batch under the parallel strategy *)

Section TakeRows.

Lemma take_rows_fmap {A B} (f : A → B) σ (t : list A) :
  take_rows σ (f <$> t) = f <$> take_rows σ t.
Proof.
  induction σ as [|i σ IH]; cbn; [done|]. rewrite list_lookup_fmap.
  destruct (t !! i); cbn; by rewrite IH.
Qed.

Lemma take_rows_zip_with {A B C} (f : A → B → C) σ (a : list A) (b : list B) :
  length a = length b →
  take_rows σ (zip_with f a b) = zip_with f (take_rows σ a) (take_rows σ b).
Proof.
  intros Hlen. induction σ as [|i σ IH]; cbn; [done|].
  rewrite lookup_zip_with.
  destruct (a !! i) as [x|] eqn:Ha; cbn.
  - destruct (lookup_lt_is_Some_2 b i) as [y ->].
    { apply lookup_lt_Some in Ha. lia. }
    cbn. by rewrite IH.
  - apply lookup_ge_None in Ha.
    rewrite (proj2 (lookup_ge_None b i)) by lia. done.
Qed.

Lemma Forall_take_rows {A} (P : A → Prop) σ (t : list A) :
  Forall P t → Forall P (take_rows σ t).
Proof.
  intros H. induction σ as [|i σ IH]; cbn; [constructor|].
  destruct (t !! i) as [r|] eqn:Hr; [|done].
  constructor; [|done]. exact (Forall_lookup_1 P t i r H Hr).
Qed.

Lemma shape2_take_rows {A} σ (t : list (list A)) :
  shape2 (take_rows σ t) = take_rows σ (shape2 t).
Proof. unfold shape2. by rewrite take_rows_fmap. Qed.

Lemma put_row_app {A} (m : list bool) : ∀ (vals rest row : list A),
  length m = length row → row_sum m = length vals →
  put_row m (vals ++ rest) row = ((put_row m vals row).1, rest).
Proof.
  induction m as [|b m IH]; intros vals rest [|x row]; try done.
  - cbn. intros _ Hv. by destruct vals.
  - intros [= Hlen]. rewrite row_sum_cons. destruct b.
    + destruct vals as [|v vals]; [done|]. intros [= Hv]. cbn.
      rewrite (IH vals rest row) by done.
      by destruct (put_row m vals row).
    + intros Hv. cbn. rewrite (IH vals rest row) by done.
      destruct vals; by destruct (put_row m _ row).
Qed.

Lemma put_rows_per_row {A} (rel : list A) (mask : list (list bool)) :
  ∀ (t : list (list A)) rest,
  shape2 mask = shape2 t →
  Forall (λ r, row_sum r = length rel) mask →
  put_rows mask (concat (replicate (length mask) rel) ++ rest) t
  = zip_with (λ m row, (put_row m rel row).1) mask t.
Proof.
  induction mask as [|m mask IH]; intros [|row t] rest; try done.
  intros [Hl Hs]%shape2_cons_inv Hall.
  inversion Hall as [|? ? Hm Hrest]; subst. cbn.
  rewrite <- (assoc_L (++)), put_row_app by done. by rewrite IH.
Qed.

Lemma mask_sum_per_row (T : nat) (mask : list (list bool)) :
  Forall (λ r, row_sum r = T) mask → mask_sum mask = length mask * T.
Proof.
  induction 1 as [|m mask Hm _ IH]; [done|].
  change (mask_sum (m :: mask)) with (row_sum m + mask_sum mask).
  cbn. lia.
Qed.

Lemma take_rows_parallel_output σ pm lg :
  shape2 pm = shape2 lg →
  parallel_output (take_rows σ pm) (take_rows σ lg)
  = take_rows σ (parallel_output pm lg).
Proof.
  intros Hs. unfold parallel_output. rewrite take_rows_zip_with; [done|].
  by apply shape2_length.
Qed.

End TakeRows.

Section Equivariance.
Context {E : Type}.

Lemma embed_triggers_per_row (model : Model E) tm ids :
  shape2 tm = shape2 ids →
  Forall (λ r, row_sum r = length (relation_embeds model)) tm →
  triggers_fit model tm ids ∧
  embed_triggers model tm ids
  = zip_with (λ m row, (put_row m (relation_embeds model) row).1)
      tm (embedded model ids).
Proof.
  intros Hs Hall. pose proof (shape2_length _ _ Hs) as Hlen.
  assert (triggers_fit model tm ids) as Hfit.
  { split; [done|]. left. by rewrite (mask_sum_per_row _ _ Hall), Hlen. }
  split; [done|].
  pose proof (index_put_fit model tm ids Hfit) as Hput.
  unfold index_put_mask in Hput.
  rewrite decide_True in Hput by (by rewrite shape2_embedded).
  rewrite decide_True in Hput
    by (by rewrite length_trigger_values, (mask_sum_per_row _ _ Hall), Hlen).
  injection Hput as <-. unfold trigger_values. rewrite <- Hlen.
  rewrite <- (right_id_L [] (++) (concat _)).
  apply put_rows_per_row; [by rewrite shape2_embedded|done].
Qed.

Lemma embed_triggers_take_rows (model : Model E) σ tm ids :
  shape2 tm = shape2 ids →
  Forall (λ r, row_sum r = length (relation_embeds model)) tm →
  embed_triggers model (take_rows σ tm) (take_rows σ ids)
  = take_rows σ (embed_triggers model tm ids).
Proof.
  intros Hs Hall.
  destruct (embed_triggers_per_row model tm ids Hs Hall) as [_ ->].
  destruct (embed_triggers_per_row model (take_rows σ tm) (take_rows σ ids))
    as [_ ->].
  { by rewrite !shape2_take_rows, Hs. }
  { by apply Forall_take_rows. }
  unfold embedded. rewrite <- take_rows_fmap, take_rows_zip_with; [done|].
  rewrite length_fmap. by apply shape2_length.
Qed.

Lemma logits_for_take_rows (model : Model E) σ rest tm ids :
  model_rowwise model →
  shape2 tm = shape2 ids →
  Forall (λ r, row_sum r = length (relation_embeds model)) tm →
  σ ≡ₚ seq 0 (length ids) →
  logits_for model (tensor_rows σ <$> rest) (take_rows σ tm) (take_rows σ ids)
  = take_rows σ (logits_for model rest tm ids).
Proof.
  intros Hrow Hs Hall Hσ. unfold logits_for, kwargs_for.
  rewrite embed_triggers_take_rows by done.
  change (FloatT (take_rows σ (embed_triggers model tm ids)))
    with (tensor_rows σ (FloatT (embed_triggers model tm ids))).
  rewrite <- fmap_insert.
  apply (Hrow σ _ (embed_triggers model tm ids)).
  - apply lookup_insert_eq.
  - destruct (embed_triggers_per_row model tm ids Hs Hall) as [Hfit _].
    pose proof (shape2_embed_triggers model tm ids Hfit) as He.
    by rewrite (shape2_length _ _ He).
Qed.

(** C9 (as amended).  Under the parallel strategy, on a bundle in which
    every example has as many trigger positions as there are trigger
    vectors, and with a model whose forward pass works row by row, permuting
    the examples of the bundle permutes the rows of the output buffer in the
    same way. *)
Theorem decode_parallel_equivariant (model : Model E) (σ : list nat)
  (s1 s2 : state E) d1 d2 m1 m2 il1 il2 pl1 pl2 tl1 tl2 ids pm tm :
  bundle_at s1 d1 m1 il1 pl1 tl1 ids pm tm →
  bundle_at s2 d2 m2 il2 pl2 tl2
    (take_rows σ ids) (take_rows σ pm) (take_rows σ tm) →
  rest_kwargs s2 m2 = tensor_rows σ <$> rest_kwargs s1 m1 →
  σ ≡ₚ seq 0 (length ids) →
  shape2 pm = shape2 ids →
  shape2 tm = shape2 ids →
  Forall (λ r, row_sum r = length (relation_embeds model)) tm →
  model_shaped model →
  model_rowwise model →
  ∃ s1' s2' out,
    decode model d1 "parallel" s1 = (Ok (length (tensors s1)), s1') ∧
    decode model d2 "parallel" s2 = (Ok (length (tensors s2)), s2') ∧
    tensors s1' !! length (tensors s1) = Some (LongT out) ∧
    tensors s2' !! length (tensors s2) = Some (LongT (take_rows σ out)).
Proof.
  intros Hb1 Hb2 Hrest Hσ Hpm Htm Hall Hmodel Hrow.
  destruct (embed_triggers_per_row model tm ids Htm Hall) as [Hfit1 _].
  destruct (embed_triggers_per_row model (take_rows σ tm) (take_rows σ ids))
    as [Hfit2 _].
  { by rewrite !shape2_take_rows, Htm. }
  { by apply Forall_take_rows. }
  destruct (decode_parallel_run model s1 d1 m1 il1 pl1 tl1 ids pm tm Hb1
              Hpm Hfit1 Hmodel) as (s1' & Hrun1 & Hr1).
  destruct (decode_parallel_run model s2 d2 m2 il2 pl2 tl2 _ _ _ Hb2)
    as (s2' & Hrun2 & Hr2); [|done|done|].
  { by rewrite !shape2_take_rows, Hpm. }
  destruct (logits_for_shape model (rest_kwargs s1 m1) tm ids Hmodel Hfit1)
    as [Hls1 _].
  destruct (logits_for_shape model (rest_kwargs s2 m2) _ _ Hmodel Hfit2)
    as [Hls2 _].
  pose proof (r_out _ _ _ _ _ Hr1) as Ho1. cbn in Ho1.
  pose proof (r_out _ _ _ _ _ Hr2) as Ho2. cbn in Ho2.
  rewrite choose_argmax in Ho1 by congruence.
  rewrite choose_argmax in Ho2
    by (rewrite ?Hls2, !shape2_take_rows; congruence).
  rewrite Hrest, logits_for_take_rows in Ho2 by done.
  rewrite take_rows_parallel_output in Ho2 by congruence.
  by eexists s1', s2', _.
Qed.

End Equivariance.

Lemma parity_model_shaped : model_shaped parity_model.
Proof.
  intros kw e labels He. cbn. unfold parity_forward. rewrite He. cbn. split.
  - unfold shape2. rewrite <- list_fmap_compose. apply list_fmap_ext.
    intros i row _. cbn. by rewrite length_fmap.
  - apply Forall_fmap, Forall_forall. intros row _. cbn.
    apply Forall_fmap, Forall_true. done.
Qed.

Lemma parity_model_rowwise : model_rowwise parity_model.
Proof.
  intros σ kw e He _. cbn. unfold parity_forward.
  rewrite lookup_fmap, He. cbn. by rewrite take_rows_fmap.
Qed.

(** C9 (as amended), on the two examples of the end-to-end scenario,
    swapped. *)
Lemma decode_parallel_equivariant_witness :
  let ids := [[101; 5; 6; 7; 103; 102]; [101; 8; 9; 11; 103; 102]]%Z in
  let tm := [[false; true; false; false; false; false];
             [false; true; false; false; false; false]] in
  let pm := [[false; false; false; false; true; false];
             [false; false; false; false; true; false]] in
  let am := [[1; 1; 1; 1; 1; 1]; [1; 1; 1; 1; 1; 0]]%Z in
  let σ := [1; 0] in
  let s1 := bundle_state ids tm pm am in
  let s2 := bundle_state (take_rows σ ids) (take_rows σ tm) (take_rows σ pm)
              (take_rows σ am) in
  ∃ s1' s2' out,
    decode parity_model 0 "parallel" s1 = (Ok 4, s1') ∧
    decode parity_model 0 "parallel" s2 = (Ok 4, s2') ∧
    tensors s1' !! 4 = Some (LongT out) ∧
    tensors s2' !! 4 = Some (LongT (take_rows σ out)) ∧
    out = [[-100; -100; -100; -100; 0; -100];
           [-100; -100; -100; -100; 1; -100]]%Z.
Proof.
  intros ids tm pm am σ s1 s2.
  destruct (decode_parallel_equivariant parity_model σ s1 s2 0 0
              toy_bundle toy_bundle 0 0 2 2 1 1 ids pm tm)
    as (s1' & s2' & out & H1 & H2 & Ho1 & Ho2).
  - apply toy_bundle_at.
  - apply toy_bundle_at.
  - apply map_eq. intros k. vm_compute. reflexivity.
  - apply perm_swap.
  - reflexivity.
  - reflexivity.
  - repeat constructor.
  - apply parity_model_shaped.
  - apply parity_model_rowwise.
  - exists s1', s2', out. split; [exact H1|]. split; [exact H2|].
    split; [exact Ho1|]. split; [exact Ho2|].
    vm_compute in H1. injection H1 as <-.
    vm_compute in Ho1. by injection Ho1 as <-.
Defined.

(** C9 fails as stated.  The repeated trigger vectors are written at the
    trigger positions of the batch in row-major order, so an example does
    not get the trigger vectors in their order unless it has as many
    trigger positions as there are trigger vectors.  With two trigger
    vectors and two examples that have one and three trigger positions,
    the call runs in either order of the examples, the embeddings of each
    example depend on its place in the batch, and the output buffers are
    not permutations of each other, although the model works row by row. *)
Lemma decode_parallel_equivariant_counterexample :
  let ids := [[1; 2; 3; 4]; [5; 6; 7; 8]]%Z in
  let tm := [[true; false; false; false]; [true; true; true; false]] in
  let pm := [[false; false; false; true]; [false; false; false; true]] in
  let am := [[1; 1; 1; 1]; [1; 1; 1; 1]]%Z in
  let σ := [1; 0] in
  let s1 := bundle_state ids tm pm am in
  let s2 := bundle_state (take_rows σ ids) (take_rows σ tm) (take_rows σ pm)
              (take_rows σ am) in
  model_shaped pair_parity_model ∧
  model_rowwise pair_parity_model ∧
  triggers_fit pair_parity_model tm ids ∧
  triggers_fit pair_parity_model (take_rows σ tm) (take_rows σ ids) ∧
  ∃ s1' s2' out1 out2,
    decode pair_parity_model 0 "parallel" s1 = (Ok 4, s1') ∧
    decode pair_parity_model 0 "parallel" s2 = (Ok 4, s2') ∧
    seen_embeddings (trace s1')
      = [Some (FloatT [[7; 2; 3; 4]; [8; 7; 8; 8]]%Z)] ∧
    seen_embeddings (trace s2')
      = [Some (FloatT [[7; 8; 7; 8]; [8; 2; 3; 4]]%Z)] ∧
    tensors s1' !! 4 = Some (LongT out1) ∧
    tensors s2' !! 4 = Some (LongT out2) ∧
    out1 = [[-100; -100; -100; 0]; [-100; -100; -100; 1]]%Z ∧
    out2 = [[-100; -100; -100; 0]; [-100; -100; -100; 1]]%Z ∧
    out2 ≠ take_rows σ out1.
Proof.
  intros ids tm pm am σ s1 s2.
  split; [exact parity_model_shaped|]. split; [exact parity_model_rowwise|].
  split; [split; [reflexivity|left; reflexivity]|].
  split; [split; [reflexivity|left; reflexivity]|].
  eexists _, _, _, _.
  split; [vm_compute; reflexivity|]. split; [vm_compute; reflexivity|].
  split; [reflexivity|]. split; [reflexivity|].
  split; [reflexivity|]. split; [reflexivity|].
  split; [reflexivity|]. split; [reflexivity|]. done.
Defined.

(** * Further properties of the trigger-augmented forward pass *)

Section ForwardCall.
Context {E : Type}.
Implicit Types (s : state E) (model : Model E) (m : gmap string nat).


(** X2.  When the bundle lacks one of the three entries that
    [forward_w_triggers] pops, the call raises a key error for the first
    missing one, in the order trigger mask, predict mask, token ids (the
    predict mask is required although it is not used); no embeddings are
    computed and the model is not invoked. *)
Theorem forward_w_triggers_missing_key model d labels s m :
  dicts s !! d = Some m →
  (m !! "trigger_mask" = None ∨ m !! "predict_mask" = None ∨
   m !! "input_ids" = None) →
  ∃ k s', forward_w_triggers model d labels s = (Raise (KeyError k), s') ∧
    tensors s' = tensors s ∧ trace s' = trace s ∧
    k = (if decide (m !! "trigger_mask" = None) then "trigger_mask"
         else if decide (m !! "predict_mask" = None) then "predict_mask"
         else "input_ids").
Proof.
  intros Hd Hmiss.
  unfold forward_w_triggers, bind, dict_copy. rewrite Hd. cbn.
  unfold dict_pop at 1. cbn. rewrite lookup_at_end.
  destruct (m !! "trigger_mask") as [tl|] eqn:Ht; cbn.
  2:{ eexists _, _. split; [reflexivity|]. by rewrite decide_True. }
  rewrite decide_False by done. rewrite insert_at_end.
  unfold dict_pop at 1. cbn. rewrite lookup_at_end.
  rewrite lookup_delete_ne by done.
  destruct (m !! "predict_mask") as [pl|] eqn:Hp; cbn.
  2:{ eexists _, _. split; [reflexivity|]. by rewrite decide_True. }
  rewrite decide_False by done. rewrite insert_at_end.
  unfold dict_pop at 1. cbn. rewrite lookup_at_end.
  rewrite !lookup_delete_ne by done.
  destruct (m !! "input_ids") as [il|] eqn:Hi; cbn.
  2:{ eexists _, _. split; [reflexivity|]. done. }
  by destruct Hmiss as [?|[?|?]].
Qed.

End ForwardCall.


(** X2, on a bundle without predict mask. *)
Lemma forward_w_triggers_missing_key_witness :
  let s : state Z :=
    {| tensors := [LongT [[1; 2; 3]%Z]; BoolT [[false; true; false]]];
       dicts := [<["input_ids" := 0]> (<["trigger_mask" := 1]> ∅)];
       trace := [] |} in
  ∃ k s', forward_w_triggers toy_model 0 None s = (Raise (KeyError k), s') ∧
    tensors s' = tensors s ∧ trace s' = trace s ∧ k = "predict_mask".
Proof.
  intros s.
  destruct (forward_w_triggers_missing_key toy_model 0 None s
              (<["input_ids" := 0]> (<["trigger_mask" := 1]> ∅)))
    as (k & s' & Hrun & Hts & Htr & Hk).
  - reflexivity.
  - right. left. reflexivity.
  - exists k, s'. split; [exact Hrun|]. split; [exact Hts|].
    split; [exact Htr|]. rewrite Hk. reflexivity.
Defined.

Section TriggerSubstitution.
Context {E : Type}.

Lemma put_row_entries {A} (m : list bool) : ∀ (vals row : list A) (o : nat),
  length m = length row →
  (∀ j, m !! j = Some false → (put_row m vals row).1 !! j = row !! j) ∧
  (∀ k j, row_nonzero o m !! k = Some j → k < length vals →
          (put_row m vals row).1 !! (j - o) = vals !! k).
Proof.
  induction m as [|b m IH]; intros vals [|x row] o; try done.
  intros [= Hlen].
  destruct b.
  - cbn [put_row row_nonzero]. destruct vals as [|v vals].
    + destruct (IH [] row (S o) Hlen) as [IH1 _].
      destruct (put_row m [] row) as [row'' rest] eqn:Hput. cbn in *.
      split; [|intros; lia]. intros [|j] Hj; [done|]. by apply IH1.
    + destruct (IH vals row (S o) Hlen) as [IH1 IH2].
      destruct (put_row m vals row) as [row'' rest] eqn:Hput. cbn in *.
      split; [intros [|j] Hj; [done|]; by apply IH1|].
      intros [|k] j Hk Hlt; cbn in Hk.
      * injection Hk as <-. by rewrite Nat.sub_diag.
      * assert (S o ≤ j) as Hj.
        { apply list_elem_of_lookup_2 in Hk. apply row_nonzero_elem in Hk. lia. }
        replace (j - o) with (S (j - S o)) by lia. cbn. apply IH2; [done|lia].
  - destruct (IH vals row (S o) Hlen) as [IH1 IH2].
    assert (put_row (false :: m) vals (x :: row)
            = (x :: (put_row m vals row).1, (put_row m vals row).2)) as ->.
    { cbn. destruct vals; by destruct (put_row m _ row). }
    cbn. split; [intros [|j] Hj; [done|]; by apply IH1|].
    intros k j Hk Hlt.
    assert (S o ≤ j) as Hj.
    { apply list_elem_of_lookup_2 in Hk. apply row_nonzero_elem in Hk. lia. }
    replace (j - o) with (S (j - S o)) by lia. cbn. by apply IH2.
Qed.

(** X3.  When every example has as many trigger positions as there are
    trigger vectors, the embeddings that [forward_w_triggers] builds and
    gives to the model hold, at every position outside the trigger mask,
    the embedding of the token there, and at the k-th trigger position of
    every example the k-th trigger vector. *)
Theorem forward_w_triggers_embeddings (model : Model E) d labels (s : state E)
  m il pl tl ids tm :
  dicts s !! d = Some m →
  m !! "trigger_mask" = Some tl →
  m !! "predict_mask" = Some pl →
  m !! "input_ids" = Some il →
  tensors s !! il = Some (LongT ids) →
  tensors s !! tl = Some (BoolT tm) →
  shape2 tm = shape2 ids →
  Forall (λ r, row_sum r = length (relation_embeds model)) tm →
  ∃ kw e s',
    forward_w_triggers model d labels s = (Ok (forward model kw labels), s') ∧
    trace s' = trace s ++ [Forward kw labels] ∧
    kw !! "inputs_embeds" = Some (FloatT e) ∧
    shape2 e = shape2 ids ∧
    (∀ i j, ent tm i j = Some false →
            ent e i j = embeds model <$> ent ids i j) ∧
    (∀ i mrow k j, tm !! i = Some mrow → row_nonzero 0 mrow !! k = Some j →
                   ent e i j = relation_embeds model !! k).
Proof.
  intros Hd Ht Hp Hi Hil Htl Hshape Hall.
  destruct (embed_triggers_per_row model tm ids Hshape Hall) as [Hfit He].
  rewrite (forward_w_triggers_eq model d labels s m tl pl il ids tm) by done.
  rewrite index_put_fit by done. cbn zeta.
  eexists _, (embed_triggers model tm ids), _. split; [reflexivity|].
  split; [reflexivity|]. split.
  { unfold kwargs_of. rewrite lookup_omap, lookup_insert_eq. cbn.
    apply lookup_at_end. }
  split; [by apply shape2_embed_triggers|].
  assert (∀ i mrow, tm !! i = Some mrow →
            ∃ idrow, ids !! i = Some idrow ∧ length mrow = length idrow ∧
              embed_triggers model tm ids !! i
              = Some (put_row mrow (relation_embeds model)
                        (embeds model <$> idrow)).1) as Hrow.
  { intros i mrow Hm.
    destruct (shape2_lookup tm ids i mrow Hshape Hm) as (idrow & Hid & Hlen).
    exists idrow. split; [done|]. split; [done|].
    rewrite He, lookup_zip_with, Hm. cbn. unfold embedded.
    by rewrite list_lookup_fmap, Hid. }
  split.
  - intros i j Hij. unfold ent in *.
    destruct (tm !! i) as [mrow|] eqn:Hm; [|done]. cbn in Hij.
    destruct (Hrow i mrow Hm) as (idrow & Hid & Hlen & ->).
    rewrite Hid. cbn.
    destruct (put_row_entries mrow (relation_embeds model)
                (embeds model <$> idrow) 0) as [H1 _].
    { by rewrite length_fmap. }
    rewrite H1 by done. by rewrite list_lookup_fmap.
  - intros i mrow k j Hm Hk. unfold ent.
    destruct (Hrow i mrow Hm) as (idrow & Hid & Hlen & ->). cbn.
    destruct (put_row_entries mrow (relation_embeds model)
                (embeds model <$> idrow) 0) as [_ H2].
    { by rewrite length_fmap. }
    rewrite <- (Nat.sub_0_r j). apply H2; [done|].
    apply lookup_lt_Some in Hk. rewrite <- (row_sum_nonzero 0) in Hk.
    by rewrite <- (Forall_lookup_1 _ _ _ _ Hall Hm).
Qed.

End TriggerSubstitution.

(** X3, on two examples with the trigger at position 1 and at position 2. *)
Lemma forward_w_triggers_embeddings_witness :
  let ids := [[1; 2; 3]; [4; 5; 6]]%Z in
  let tm := [[false; true; false]; [false; false; true]] in
  let s := bundle_state ids tm [[false; false; true]; [false; true; false]]
             [[1; 1; 1]; [1; 1; 1]]%Z in
  ∃ kw e s',
    forward_w_triggers toy_model 0 None s = (Ok (forward toy_model kw None), s') ∧
    kw !! "inputs_embeds" = Some (FloatT e) ∧
    e = [[1; 7; 3]; [4; 5; 7]]%Z ∧
    (∀ i j, ent tm i j = Some false → ent e i j = embeds toy_model <$> ent ids i j) ∧
    (∀ i mrow k j, tm !! i = Some mrow → row_nonzero 0 mrow !! k = Some j →
                   ent e i j = relation_embeds toy_model !! k).
Proof.
  intros ids tm s.
  destruct (forward_w_triggers_embeddings toy_model 0 None s toy_bundle 0 2 1
              ids tm) as (kw & e & s' & Hrun & Htr & He & Hs & H1 & H2);
    try reflexivity.
  - repeat constructor.
  - exists kw, e, s'. split; [exact Hrun|]. split; [exact He|].
    split; [|split; [exact H1|exact H2]].
    vm_compute in Hrun. injection Hrun as _ <-.
    injection Htr as <-. vm_compute in He. congruence.
Defined.

(** * The monotonic strategy on a batch *)

Section ColumnCounts.

Lemma col_count_cons j (r : list bool) m :
  col_count j (r :: m)
  = (if decide (r !! j = Some true) then 1 else 0) + col_count j m.
Proof. unfold col_count. rewrite filter_cons. by case_decide. Qed.

Lemma mask_sum_cons r m : mask_sum (r :: m) = row_sum r + mask_sum m.
Proof. done. Qed.

Lemma row_sum_true (r : list bool) j : r !! j = Some true → 1 ≤ row_sum r.
Proof. intros H. rewrite <- (row_sum_clear r j H). lia. Qed.

Lemma col_count_le j m : col_count j m ≤ mask_sum m.
Proof.
  induction m as [|r m IH]; [done|]. rewrite col_count_cons, mask_sum_cons.
  case_decide as Hr; [|lia]. pose proof (row_sum_true r j Hr). lia.
Qed.

Lemma col_count_elem j m (r : list bool) :
  r ∈ m → r !! j = Some true → 1 ≤ col_count j m.
Proof.
  intros Hin Hr. induction m as [|r' m IH]; [by apply elem_of_nil in Hin|].
  rewrite col_count_cons. apply elem_of_cons in Hin as [<-|Hin].
  - rewrite decide_True by done. lia.
  - specialize (IH Hin). lia.
Qed.

Lemma col_count_two j (m : list (list bool)) : ∀ i i',
  i ≠ i' → ent m i j = Some true → ent m i' j = Some true → 2 ≤ col_count j m.
Proof.
  induction m as [|r m IH]; intros i i' Hne Hi Hi'; [by destruct i|].
  rewrite col_count_cons. unfold ent in *.
  destruct i as [|i], i' as [|i']; cbn in Hi, Hi'; try done.
  - rewrite decide_True by done.
    destruct (m !! i') as [r'|] eqn:Hr'; [|done]. cbn in Hi'.
    pose proof (col_count_elem j m r' (list_elem_of_lookup_2 _ _ _ Hr') Hi'). lia.
  - rewrite decide_True by done.
    destruct (m !! i) as [r'|] eqn:Hr'; [|done]. cbn in Hi.
    pose proof (col_count_elem j m r' (list_elem_of_lookup_2 _ _ _ Hr') Hi). lia.
  - assert (i ≠ i') as Hne' by congruence.
    pose proof (IH i i' Hne' Hi Hi'). lia.
Qed.

Lemma put_col_false_sum idx (row row' : list bool) :
  put_col idx false row = Ok row' →
  row_sum row
  = row_sum row' + (if decide (row !! idx = Some true) then 1 else 0) ∧
  ∀ j, j ≠ idx → row' !! j = row !! j.
Proof.
  unfold put_col. case_decide as Hlt; [|done]. intros [= <-]. split.
  - case_decide as Ht.
    + rewrite <- (row_sum_clear row idx Ht). lia.
    + destruct (lookup_lt_is_Some_2 row idx Hlt) as [b Hb].
      destruct b; [done|]. rewrite list_insert_id by done. lia.
  - intros j Hj. apply list_lookup_insert_ne. congruence.
Qed.

Lemma fill_col_false_count idx (pm pm' : list (list bool)) :
  fill_col idx false pm = Ok pm' →
  mask_sum pm = mask_sum pm' + col_count idx pm ∧
  ∀ j, j ≠ idx → col_count j pm' = col_count j pm.
Proof.
  unfold fill_col. intros H%rmapM_inv.
  induction H as [|row row' pm pm' Hrow _ [IH1 IH2]]; [done|].
  destruct (put_col_false_sum idx row row' Hrow) as (Hs & Ho).
  rewrite !mask_sum_cons, col_count_cons. split.
  - case_decide; lia.
  - intros j Hj. rewrite !col_count_cons, (IH2 j Hj), (Ho j Hj). done.
Qed.

Lemma nonzero_from_col i m a j :
  (a, j) ∈ nonzero_from i m → ∃ r : list bool, r ∈ m ∧ r !! j = Some true.
Proof.
  revert i. induction m as [|r m IH]; intros i; cbn; [by intros ?%elem_of_nil|].
  rewrite elem_of_app. intros [H|H].
  - apply list_elem_of_fmap in H as (j' & [= -> ->] & Hj).
    apply row_nonzero_elem in Hj as [_ Hj]. rewrite Nat.sub_0_r in Hj.
    exists r. split; [left|done].
  - destruct (IH _ H) as (r' & ? & ?). exists r'. split; [by right|done].
Qed.

Lemma first_nonzero_col_count pm idx :
  first_nonzero_col pm = Ok idx → 1 ≤ col_count idx pm.
Proof.
  unfold first_nonzero_col, nonzero.
  destruct (nonzero_from 0 pm) as [|[a j] rest] eqn:Hnz; [done|].
  intros [= ->].
  destruct (nonzero_from_col 0 pm a idx) as (r & Hin & Hr).
  { rewrite Hnz. left. }
  by eapply col_count_elem.
Qed.

Lemma row_update_shape {A} (P : A → Prop) C (t t' : list (list A)) :
  Forall2 (row_update C P) t t' → shape2 t' = shape2 t.
Proof.
  unfold shape2. induction 1 as [|r r' t t' [Hl _] _ IH]; [done|].
  cbn. by rewrite Hl, IH.
Qed.

Lemma full_like_shape {A B C} (a : list (list A)) (b : list (list B)) (v : C) :
  shape2 a = shape2 b → full_like a v = full_like b v.
Proof.
  revert b. induction a as [|ra a IH]; intros [|rb b]; try done.
  intros [= Hl Hs]. cbn. f_equal; [|by apply IH].
  revert rb Hl. induction ra as [|x ra IHr]; intros [|y rb]; try done.
  intros [= Hl]. cbn. f_equal. by apply IHr.
Qed.

Lemma mask_sum_zero_ent (pm : list (list bool)) i j :
  mask_sum pm = 0 → ent pm i j ≠ Some true.
Proof.
  revert i. induction pm as [|r pm IH]; intros i; [by destruct i|].
  rewrite mask_sum_cons. intros H0. unfold ent. destruct i as [|i]; cbn.
  - apply row_sum_zero_lookup. lia.
  - apply IH. lia.
Qed.

End ColumnCounts.

Section MonotonicBatch.
Context {E : Type}.
Variables (model : Model E) (rest : gmap string (tensor E)).
Variable tm : list (list bool).

Lemma monotonic_step_mask (st st' : dstate E) :
  monotonic_step model rest tm st = Ok st' →
  ∃ idx, 1 ≤ col_count idx (d_mask st) ∧
    mask_sum (d_mask st) = mask_sum (d_mask st') + col_count idx (d_mask st) ∧
    ∀ j, j ≠ idx → col_count j (d_mask st') = col_count j (d_mask st).
Proof.
  unfold monotonic_step. intros Hstep.
  destruct (value_forward model rest tm st) as [r|] eqn:Hf; cbn in Hstep; [|done].
  destruct (value_forward_inv model rest tm st r Hf) as (Hi & Hm & Ho & Htr).
  destruct (first_nonzero_col _) as [idx|] eqn:Hidx; cbn in Hstep; [|done].
  destruct (select_col idx r.1) as [col|]; cbn in Hstep; [|done].
  destruct (rmapM argmax col) as [pred|]; cbn in Hstep; [|done].
  destruct (setitem_col idx (to_ids pred) (d_ids r.2)) as [ids'|];
    cbn in Hstep; [|done].
  destruct (setitem_col idx (to_ids pred) (d_out r.2)) as [o'|];
    cbn in Hstep; [|done].
  destruct (fill_col idx false (d_mask r.2)) as [pm'|] eqn:Hpm;
    cbn in Hstep; [|done].
  injection Hstep as <-. cbn. rewrite Hm in Hidx, Hpm.
  exists idx. split; [by apply first_nonzero_col_count|].
  by apply fill_col_false_count.
Qed.

(** Every iteration clears a column that holds a true entry: [n]
    iterations need [n] true entries in [n] different columns. *)
Lemma iterate_monotonic_mask n : ∀ (st st' : dstate E),
  iterate (monotonic_step model rest tm) n st = Ok st' →
  mask_sum (d_mask st') + n ≤ mask_sum (d_mask st) ∧
  ∀ j, n + (col_count j (d_mask st) - 1) ≤ mask_sum (d_mask st).
Proof.
  induction n as [|n IH]; intros st st'; cbn.
  - intros [= <-]. split; [lia|]. intros j.
    pose proof (col_count_le j (d_mask st)). lia.
  - destruct (monotonic_step model rest tm st) as [st1|] eqn:H1; cbn; [|done].
    intros Hn. destruct (IH st1 st' Hn) as [IH1 IH2].
    destruct (monotonic_step_mask st st1 H1) as (idx & Hpos & Hsum & Hoth).
    split; [lia|]. intros j. destruct (decide (j = idx)) as [->|Hj].
    + lia.
    + specialize (IH2 j). rewrite (Hoth j Hj) in IH2. lia.
Qed.

End MonotonicBatch.

Section MonotonicReturn.
Context {E : Type}.

(** X4.  Whenever [decode] returns with the monotonic strategy, no two
    examples of the batch had a predict position in the same column at the
    call (the loop runs once per true entry of the mask and clears a whole
    column each time, so a shared column leaves an iteration without a
    position to read), and the caller's predict mask, of the shape it had,
    has no true entry left. *)
Theorem decode_monotonic_distinct_columns (model : Model E) (s0 : state E)
  d m il pl tl ids0 pm0 tm o s' :
  bundle_at s0 d m il pl tl ids0 pm0 tm →
  decode model d "monotonic" s0 = (Ok o, s') →
  (∀ i i' j, ent pm0 i j = Some true → ent pm0 i' j = Some true → i = i') ∧
  ∃ pm', tensors s' !! pl = Some (BoolT pm') ∧
    shape2 pm' = shape2 pm0 ∧ mask_sum pm' = 0.
Proof.
  intros Hb Hdec.
  pose proof (decode_monotonic_sim model s0 d m il pl tl ids0 pm0 tm Hb) as Hsim.
  destruct (iterate _ _ _) as [st'|e] eqn:Hit.
  2:{ destruct Hsim as (s'' & Hdec'). rewrite Hdec in Hdec'. done. }
  destruct Hsim as (s'' & Hdec' & Hr). rewrite Hdec in Hdec'.
  injection Hdec' as -> <-.
  destruct (iterate_monotonic_mask model _ tm _ _ _ Hit) as [Hleft Hcols].
  cbn [d_mask entry_values] in *. split.
  - intros i i' j Hi Hi'. destruct (decide (i = i')) as [|Hne]; [done|].
    pose proof (col_count_two j pm0 i i' Hne Hi Hi'). specialize (Hcols j). lia.
  - exists (d_mask st'). split; [apply Hr|]. split; [|lia].
    destruct (iterate_columns ids0 (full_like ids0 ignore_label) pm0 _
                (monotonic_step_columns model _ tm ids0 _ pm0)
                _ [] _ _ Hit) as (C & Hinv & _).
    { apply columns_inv_entry. unfold full_like. by rewrite length_fmap. }
    eapply row_update_shape, Hinv.
Qed.

End MonotonicReturn.

(** X4, on two examples with the predict positions in columns 2 and 1. *)
Lemma decode_monotonic_distinct_columns_witness :
  let ids := [[101; 11; 0]; [101; 0; 12]]%Z in
  let pm := [[false; false; true]; [false; true; false]] in
  let s0 := bundle_state ids [[true; false; false]; [true; false; false]] pm
              [[1; 1; 1]; [1; 1; 1]]%Z in
  ∃ s', decode toy_model 0 "monotonic" s0 = (Ok 4, s') ∧
    (∀ i i' j, ent pm i j = Some true → ent pm i' j = Some true → i = i') ∧
    ∃ pm', tensors s' !! 2 = Some (BoolT pm') ∧
      shape2 pm' = shape2 pm ∧ mask_sum pm' = 0.
Proof.
  intros ids pm s0.
  destruct (decode toy_model 0 "monotonic" s0) as [r s'] eqn:Hdec.
  assert (r = Ok 4) as ->.
  { apply (f_equal fst) in Hdec. vm_compute in Hdec. congruence. }
  exists s'. split; [reflexivity|].
  apply (decode_monotonic_distinct_columns toy_model s0 0 toy_bundle 0 2 1 ids pm
           [[true; false; false]; [true; false; false]] 4 s').
  - apply toy_bundle_at.
  - exact Hdec.
Defined.

Section IndexErrors.

Lemma rmapM_index_error {A B} (f : A → result B) l e :
  (∀ x e', f x = Raise e' → e' = IndexError) →
  rmapM f l = Raise e → e = IndexError.
Proof.
  intros Hf. induction l as [|x l IH]; cbn; [done|].
  destruct (f x) as [y|e'] eqn:Hx; cbn.
  - destruct (rmapM f l) as [ys|e'']; cbn; [done|].
    intros [= <-]. by apply IH.
  - intros [= <-]. by eapply Hf.
Qed.

Lemma rmapM_length {A B} (f : A → result B) l ys :
  rmapM f l = Ok ys → length ys = length l.
Proof. intros H%rmapM_inv. symmetry. by eapply Forall2_length. Qed.

Lemma first_nonzero_col_error m e :
  first_nonzero_col m = Raise e → e = IndexError.
Proof.
  unfold first_nonzero_col. destruct (nonzero m) as [|[? ?] ?]; [|done].
  by intros [= <-].
Qed.

Lemma select_col_error {A} idx (t : list (list A)) e :
  select_col idx t = Raise e → e = IndexError.
Proof.
  apply rmapM_index_error. intros row e'. destruct (row !! idx); [done|].
  by intros [= <-].
Qed.

Lemma argmax_error l e : argmax l = Raise e → e = IndexError.
Proof. destruct l; [|done]. by intros [= <-]. Qed.

Lemma put_col_error {A} idx (v : A) row e :
  put_col idx v row = Raise e → e = IndexError.
Proof. unfold put_col. case_decide; [done|]. by intros [= <-]. Qed.

Lemma setitem_col_error {A} idx (vals : list A) t e :
  length vals = length t → setitem_col idx vals t = Raise e → e = IndexError.
Proof.
  intros Hlen. unfold setitem_col. rewrite decide_True by done.
  apply rmapM_index_error. intros [v row] e'. apply put_col_error.
Qed.

Lemma fill_col_error {A} idx (v : A) t e :
  fill_col idx v t = Raise e → e = IndexError.
Proof.
  apply rmapM_index_error. intros row e'. apply put_col_error.
Qed.

End IndexErrors.

Section MonotonicError.
Context {E : Type}.
Variables (model : Model E) (rest : gmap string (tensor E)).
Variable tm : list (list bool).
Variable ids0 : list (list Z).
Hypothesis Hmodel : model_shaped model.
Hypothesis Hfit : triggers_fit model tm ids0.

(** On tensors of the shapes of the call, an iteration of the monotonic
    loop raises nothing but an index error. *)
Lemma monotonic_step_error (st : dstate E) :
  shape2 (d_ids st) = shape2 ids0 → length (d_out st) = length ids0 →
  match monotonic_step model rest tm st with
  | Ok st' => shape2 (d_ids st') = shape2 ids0 ∧ length (d_out st') = length ids0
  | Raise e => e = IndexError
  end.
Proof.
  intros Hs Ho. unfold monotonic_step.
  assert (triggers_fit model tm (d_ids st)) as Hfit'.
  { by eapply triggers_fit_shape. }
  rewrite value_forward_ok by done. cbn [rbind fst snd d_ids d_mask d_out d_trace].
  destruct (logits_for_shape model rest tm (d_ids st) Hmodel Hfit') as [Hls _].
  destruct (first_nonzero_col (d_mask st)) as [idx|e] eqn:Hidx; cbn [rbind].
  2:{ by eapply first_nonzero_col_error. }
  destruct (select_col idx _) as [col|e] eqn:Hcol; cbn [rbind].
  2:{ by eapply select_col_error. }
  destruct (rmapM argmax col) as [pred|e] eqn:Hpred; cbn [rbind].
  2:{ eapply rmapM_index_error; [|done]. apply argmax_error. }
  assert (length (to_ids pred) = length (d_ids st)) as Hlen.
  { unfold to_ids. rewrite length_fmap, (rmapM_length _ _ _ Hpred).
    unfold select_col in Hcol. rewrite (rmapM_length _ _ _ Hcol).
    by apply shape2_length. }
  destruct (setitem_col idx (to_ids pred) (d_ids st)) as [ids'|e] eqn:Hids;
    cbn [rbind].
  2:{ by eapply setitem_col_error. }
  assert (length (d_ids st) = length ids0) as Hl0 by by apply shape2_length.
  destruct (setitem_col idx (to_ids pred) (d_out st)) as [o'|e] eqn:Hout;
    cbn [rbind].
  2:{ eapply setitem_col_error; [|done]. congruence. }
  destruct (fill_col idx false (d_mask st)) as [pm'|e] eqn:Hpm; cbn [rbind].
  2:{ by eapply fill_col_error. }
  cbn. split.
  - rewrite <- Hs. eapply (row_update_shape (λ _, True)).
    eapply setitem_col_update; [done|]. by apply Forall_true.
  - rewrite <- Ho. symmetry. eapply Forall2_length.
    eapply (setitem_col_update (λ _, True)); [done|]. by apply Forall_true.
Qed.

Lemma iterate_monotonic_error n : ∀ (st : dstate E) e,
  shape2 (d_ids st) = shape2 ids0 → length (d_out st) = length ids0 →
  iterate (monotonic_step model rest tm) n st = Raise e → e = IndexError.
Proof.
  induction n as [|n IH]; intros st e Hs Ho; cbn; [done|].
  pose proof (monotonic_step_error st Hs Ho) as Hstep.
  destruct (monotonic_step model rest tm st) as [st1|e1]; cbn.
  - destruct Hstep. by apply IH.
  - by intros [= <-].
Qed.

End MonotonicError.

Section MonotonicSharedColumn.
Context {E : Type}.

(** X5.  On a bundle of consistent shapes in which two examples have a
    predict position in the same column, [decode] with the monotonic
    strategy does not return: it raises an index error, when an iteration
    finds the predict mask without a true entry. *)
Theorem decode_monotonic_shared_column (model : Model E) (s0 : state E)
  d m il pl tl ids0 pm0 tm i i' j :
  bundle_at s0 d m il pl tl ids0 pm0 tm →
  triggers_fit model tm ids0 →
  model_shaped model →
  i ≠ i' → ent pm0 i j = Some true → ent pm0 i' j = Some true →
  ∃ s', decode model d "monotonic" s0 = (Raise IndexError, s').
Proof.
  intros Hb Hfit Hmodel Hne Hi Hi'.
  pose proof (decode_monotonic_sim model s0 d m il pl tl ids0 pm0 tm Hb) as Hsim.
  destruct (iterate _ _ _) as [st'|e] eqn:Hit.
  - destruct (iterate_monotonic_mask model _ tm _ _ _ Hit) as [_ Hcols].
    cbn [d_mask entry_values] in Hcols.
    pose proof (col_count_two j pm0 i i' Hne Hi Hi'). specialize (Hcols j). lia.
  - apply (iterate_monotonic_error model _ tm ids0 Hmodel Hfit) in Hit as ->.
    + exact Hsim.
    + done.
    + cbn. unfold full_like. by rewrite length_fmap.
Qed.

End MonotonicSharedColumn.

(** X5, on two examples with the predict position in column 1. *)
Lemma decode_monotonic_shared_column_witness :
  ∃ s', decode toy_model 0 "monotonic"
          (bundle_state [[101; 11; 0]; [101; 12; 0]]%Z
             [[true; false; false]; [true; false; false]]
             [[false; true; false]; [false; true; false]]
             [[1; 1; 1]; [1; 1; 1]]%Z) = (Raise IndexError, s').
Proof.
  apply (decode_monotonic_shared_column toy_model _ 0 toy_bundle 0 2 1
           [[101; 11; 0]; [101; 12; 0]]%Z
           [[false; true; false]; [false; true; false]]
           [[true; false; false]; [true; false; false]] 0 1 1).
  - apply toy_bundle_at.
  - split; [reflexivity|]. left. reflexivity.
  - apply toy_model_shaped.
  - done.
  - reflexivity.
  - reflexivity.
Defined.

Section DecodeAgain.
Context {E : Type}.

(** The bundle is still a bundle in every later state of the call. *)
Lemma repr_bundle (s0 : state E) d m il pl tl ids0 pm0 tm s (st : dstate E) :
  bundle_at s0 d m il pl tl ids0 pm0 tm →
  repr s0 il pl s st →
  bundle_at s d m il pl tl (d_ids st) (d_mask st) tm.
Proof.
  intros Hb Hr. constructor; try apply Hb; try apply Hr.
  - by eapply repr_dict.
  - by eapply repr_tm.
  - intros k l Hl.
    destruct (b_others _ _ _ _ _ _ _ _ _ Hb k l Hl) as (Hlt & ? & ?).
    split; [|done].
    pose proof (repr_length s0 il pl s st Hr). lia.
Qed.

(** X6.  [decode] uses up the predict mask of the bundle: once it has
    returned with the monotonic strategy, decoding the same bundle again,
    with the monotonic or the iterative strategy, invokes the model not
    once and returns a buffer of the shape of the token ids that holds the
    ignore label everywhere. *)
Theorem decode_after_monotonic (model : Model E) (s0 : state E)
  d m il pl tl ids0 pm0 tm o s1 strategy :
  bundle_at s0 d m il pl tl ids0 pm0 tm →
  decode model d "monotonic" s0 = (Ok o, s1) →
  strategy = "monotonic" ∨ strategy = "iterative" →
  ∃ s2, decode model d strategy s1 = (Ok (length (tensors s1)), s2) ∧
    tensors s2 !! length (tensors s1)
      = Some (LongT (full_like ids0 ignore_label)) ∧
    trace s2 = trace s1.
Proof.
  intros Hb Hdec Hs.
  pose proof (decode_monotonic_sim model s0 d m il pl tl ids0 pm0 tm Hb) as Hsim.
  destruct (iterate _ _ _) as [st1|e] eqn:Hit.
  2:{ destruct Hsim as (s'' & Hdec'). rewrite Hdec in Hdec'. done. }
  destruct Hsim as (s'' & Hdec' & Hr). rewrite Hdec in Hdec'.
  injection Hdec' as -> <-.
  destruct (iterate_monotonic_mask model _ tm _ _ _ Hit) as [Hleft _].
  cbn [d_mask entry_values] in Hleft.
  assert (mask_sum (d_mask st1) = 0) as Hzero by lia.
  assert (shape2 (d_ids st1) = shape2 ids0) as Hshape.
  { destruct (iterate_columns ids0 (full_like ids0 ignore_label) pm0 _
                (monotonic_step_columns model _ tm ids0 _ pm0)
                _ [] _ _ Hit) as (C & Hinv & _).
    { apply columns_inv_entry. unfold full_like. by rewrite length_fmap. }
    eapply row_update_shape, Hinv. }
  pose proof (repr_bundle s0 d m il pl tl ids0 pm0 tm s1 st1 Hb Hr) as Hb1.
  rewrite <- (full_like_shape _ _ ignore_label Hshape).
  destruct Hs as [->| ->].
  - pose proof (decode_monotonic_sim model s1 d m il pl tl _ _ tm Hb1) as Hsim.
    rewrite Hzero in Hsim. cbn [iterate] in Hsim.
    destruct Hsim as (s2 & Hdec2 & Hr2). exists s2.
    split; [done|]. split; [apply Hr2|apply Hr2].
  - pose proof (decode_iterative_sim model s1 d m il pl tl _ _ tm Hb1) as Hsim.
    rewrite Hzero in Hsim. cbn [iterate] in Hsim.
    destruct Hsim as (s2 & Hdec2 & Hr2). exists s2.
    split; [done|]. split; [apply Hr2|apply Hr2].
Qed.

End DecodeAgain.

(** X6, on one example with the predict positions 1 and 2: the first call
    commits two tokens, the second call none. *)
Lemma decode_after_monotonic_witness :
  let ids := [[101; 0; 0]]%Z in
  let s0 := bundle_state ids [[true; false; false]] [[false; true; true]]
              [[1; 1; 1]]%Z in
  ∃ s1 s2, decode toy_model 0 "monotonic" s0 = (Ok 4, s1) ∧
    tensors s1 !! 4 = Some (LongT [[-100; 3; 3]]%Z) ∧
    length (trace s1) = 2 ∧
    decode toy_model 0 "iterative" s1 = (Ok (length (tensors s1)), s2) ∧
    tensors s2 !! length (tensors s1)
      = Some (LongT (full_like ids ignore_label)) ∧
    trace s2 = trace s1.
Proof.
  intros ids s0.
  destruct (decode toy_model 0 "monotonic" s0) as [r s1] eqn:Hdec.
  assert (r = Ok 4) as ->.
  { apply (f_equal fst) in Hdec. vm_compute in Hdec. congruence. }
  destruct (decode_after_monotonic toy_model s0 0 toy_bundle 0 2 1 ids
              [[false; true; true]] [[true; false; false]] 4 s1 "iterative")
    as (s2 & Hdec2 & Hout & Htr).
  - apply toy_bundle_at.
  - exact Hdec.
  - by right.
  - exists s1, s2. split; [reflexivity|].
    split; [|split; [|split; [exact Hdec2|split; [exact Hout|exact Htr]]]].
    + vm_compute in Hdec. injection Hdec as <-. reflexivity.
    + vm_compute in Hdec. injection Hdec as <-. reflexivity.
Defined.

(** * The exact-match evaluator *)

Section Comparison.

Lemma broadcast_row_eq (a b : list Z) :
  length a = length b →
  ∃ r, broadcast_with (λ x y : Z, Ok (bool_decide (x = y))) a b = Ok r ∧
       forallb id r = bool_decide (a = b).
Proof.
  intros Hlen. unfold broadcast_with. rewrite decide_True by done.
  revert b Hlen. induction a as [|x a IH]; intros [|y b]; try done.
  - intros _. by exists [].
  - intros [= Hlen]. destruct (IH b Hlen) as (r & Hr & Hall). cbn.
    rewrite Hr. cbn. eexists. split; [reflexivity|]. cbn. rewrite Hall.
    repeat case_bool_decide; naive_solver.
Qed.

Lemma eq_tensor_all (x y : list (list Z)) :
  shape2 x = shape2 y →
  ∃ t, eq_tensor x y = Ok t ∧ all_true t = bool_decide (x = y).
Proof.
  intros Hs. unfold eq_tensor, broadcast_with at 1.
  rewrite decide_True by by apply shape2_length.
  revert y Hs. induction x as [|a x IH]; intros [|b y]; try done.
  - intros _. by exists [].
  - intros [Hab Hs]%shape2_cons_inv. destruct (IH y Hs) as (t & Ht & Hall).
    destruct (broadcast_row_eq a b Hab) as (r & Hr & Hrow). cbn.
    rewrite Hr. cbn. rewrite Ht. cbn. eexists. split; [reflexivity|].
    unfold all_true in *. cbn. rewrite Hrow, Hall.
    repeat case_bool_decide; naive_solver.
Qed.

End Comparison.

Section ExactMatch.
Context {E : Type}.

Notation "x ← m ; k" := (bind m (λ x, k))
  (at level 20, m at level 100, k at level 200, only parsing).

(** The state once the evaluator has cloned the predict mask. *)
Let cloned (s0 : state E) (pm0 : list (list bool)) : state E :=
  {| tensors := tensors s0 ++ [BoolT pm0]; dicts := dicts s0;
     trace := trace s0 |}.

(** The comparison that ends the call. *)
Let compare (preds labels : nat) : M E bool :=
  p ← load_long preds;
  lb ← load_long labels;
  eq ← lift (eq_tensor p lb);
  ret (all_true eq).

Lemma bundle_at_alloc (s0 : state E) d m il pl tl ids0 pm0 tm x :
  bundle_at s0 d m il pl tl ids0 pm0 tm →
  bundle_at {| tensors := tensors s0 ++ [x]; dicts := dicts s0;
               trace := trace s0 |} d m il pl tl ids0 pm0 tm.
Proof.
  intros Hb. constructor; cbn; try apply Hb.
  - apply lookup_before_end, Hb.
  - apply lookup_before_end, Hb.
  - apply lookup_before_end, Hb.
  - intros k l Hl.
    destruct (b_others _ _ _ _ _ _ _ _ _ Hb k l Hl) as (Hlt & ? & ?).
    rewrite length_app. cbn. split; [lia|done].
Qed.

Lemma rest_kwargs_alloc (s0 : state E) d m il pl tl ids0 pm0 tm x :
  bundle_at s0 d m il pl tl ids0 pm0 tm →
  rest_kwargs {| tensors := tensors s0 ++ [x]; dicts := dicts s0;
                 trace := trace s0 |} m = rest_kwargs s0 m.
Proof.
  intros Hb. apply kwargs_of_frame. intros k l Hl. cbn.
  destruct (b_others _ _ _ _ _ _ _ _ _ Hb k l Hl) as (Hlt & ? & ?).
  by apply lookup_app_l.
Qed.

Lemma exact_match_enter (s0 : state E) d m il pl tl ids0 pm0 tm
  (self : ExactMatchEvaluator.t) labels :
  bundle_at s0 d m il pl tl ids0 pm0 tm →
  ExactMatchEvaluator.__call__ self d labels s0
  = (preds ← decode (ExactMatchEvaluator._model self) d
               (ExactMatchEvaluator._decoding_strategy self);
     compare preds labels) (cloned s0 pm0).
Proof.
  intros Hb. unfold ExactMatchEvaluator.__call__.
  rewrite (bind_ok _ _ _ _ _ (dict_get_eq _ _ _ _ _
             (b_dict _ _ _ _ _ _ _ _ _ Hb) (b_predict_mask _ _ _ _ _ _ _ _ _ Hb))).
  unfold load at 1, bind at 1. rewrite (b_pm _ _ _ _ _ _ _ _ _ Hb).
  reflexivity.
Qed.

Lemma compare_state preds labels (s : state E) :
  (compare preds labels s).2 = s.
Proof.
  unfold compare, load_long, bind, load, lift, ret.
  destruct (tensors s !! preds) as [[p| |]|]; try done.
  destruct (tensors s !! labels) as [[lb| |]|]; try done.
  by destruct (eq_tensor p lb).
Qed.

Lemma compare_same_shape preds labels (s : state E) out lab :
  tensors s !! preds = Some (LongT out) →
  tensors s !! labels = Some (LongT lab) →
  shape2 out = shape2 lab →
  compare preds labels s = (Ok (bool_decide (out = lab)), s).
Proof.
  intros Ho Hl Hs. unfold compare.
  rewrite (bind_ok _ _ _ _ _ (load_long_eq _ _ _ Ho)).
  rewrite (bind_ok _ _ _ _ _ (load_long_eq _ _ _ Hl)).
  destruct (eq_tensor_all out lab Hs) as (t & Ht & Hall).
  rewrite bind_lift, Ht. unfold ret. by rewrite Hall.
Qed.

(** The gold labels after a decode of the bundle. *)
Lemma repr_labels (s0 : state E) d m il pl tl ids0 pm0 tm s (st : dstate E)
  ll lab :
  bundle_at s0 d m il pl tl ids0 pm0 tm →
  repr s0 il pl s st →
  tensors s0 !! ll = Some (LongT lab) → ll ≠ il →
  tensors s !! ll = Some (LongT lab).
Proof.
  intros Hb Hr Hl Hne. rewrite (r_frame _ _ _ _ _ Hr); [done| |done|].
  - by eapply lookup_lt_Some.
  - intros ->. rewrite (b_pm _ _ _ _ _ _ _ _ _ Hb) in Hl. done.
Qed.

(** X7.  With the parallel strategy, on a bundle of consistent shapes and
    gold labels of the shape of the token ids, the exact-match evaluator
    returns true exactly when the labels equal the whole output buffer:
    the index of the largest logit at every predict position and the
    ignore label at every other position.  It invokes the model once and
    changes no tensor of the caller. *)
Theorem exact_match_parallel (model : Model E) (tokenizer : Tokenizer)
  (s0 : state E) d m il pl tl ids0 pm0 tm ll lab :
  bundle_at s0 d m il pl tl ids0 pm0 tm →
  tensors s0 !! ll = Some (LongT lab) →
  shape2 pm0 = shape2 ids0 →
  shape2 lab = shape2 ids0 →
  triggers_fit model tm ids0 →
  model_shaped model →
  ∃ s', ExactMatchEvaluator.__call__
          (ExactMatchEvaluator.__init__ model tokenizer "parallel") d ll s0
        = (Ok (bool_decide
                 (parallel_output pm0
                    (logits_for model (rest_kwargs s0 m) tm ids0) = lab)), s') ∧
    trace s' = trace s0
               ++ [Forward (kwargs_for model (rest_kwargs s0 m) tm ids0) None] ∧
    dicts s' !! d = Some m ∧
    ∀ l, l < length (tensors s0) → tensors s' !! l = tensors s0 !! l.
Proof.
  intros Hb Hl Hshape Hlab Hfit Hmodel.
  rewrite (exact_match_enter s0 d m il pl tl ids0 pm0 tm) by done.
  cbn [ExactMatchEvaluator._model ExactMatchEvaluator._decoding_strategy
       ExactMatchEvaluator.__init__].
  pose proof (bundle_at_alloc s0 d m il pl tl ids0 pm0 tm (BoolT pm0) Hb) as Hbc.
  fold (cloned s0 pm0) in Hbc.
  destruct (decode_parallel_run model _ d m il pl tl ids0 pm0 tm Hbc
              Hshape Hfit Hmodel) as (s' & Hrun & Hr).
  assert (rest_kwargs (cloned s0 pm0) m = rest_kwargs s0 m) as Hrest.
  { by eapply rest_kwargs_alloc. }
  rewrite Hrest in Hr.
  destruct (logits_for_shape model (rest_kwargs s0 m) tm ids0 Hmodel Hfit)
    as [Hls _].
  pose proof (r_out _ _ _ _ _ Hr) as Ho. cbn [d_out] in Ho.
  rewrite choose_argmax in Ho by congruence.
  assert (∀ l, l < length (tensors s0) → tensors s' !! l = tensors s0 !! l)
    as Hframe.
  { intros l Hlt.
    destruct (decide (l = il)) as [->|Hil].
    { rewrite (r_ids _ _ _ _ _ Hr). symmetry. apply Hb. }
    destruct (decide (l = pl)) as [->|Hpl].
    { rewrite (r_mask _ _ _ _ _ Hr). symmetry. apply Hb. }
    rewrite (r_frame _ _ _ _ _ Hr) by (cbn; rewrite ?length_app; cbn; lia || done).
    cbn. by apply lookup_app_l. }
  exists s'. rewrite (bind_ok _ _ _ _ _ Hrun).
  rewrite (compare_same_shape _ _ _ _ lab Ho).
  - split; [done|]. split; [apply Hr|]. split; [|done].
    eapply repr_dict; [exact Hbc|exact Hr].
  - rewrite Hframe by (by eapply lookup_lt_Some). done.
  - rewrite shape2_parallel_output by congruence. congruence.
Qed.

(** X8.  The clone of the predict mask that the exact-match evaluator
    makes is not used again: with the monotonic strategy, whenever the
    call returns, the caller's predict mask has no true entry left, and
    the mask as it was at the call only survives in the clone. *)
Theorem exact_match_consumes_mask (model : Model E) (tokenizer : Tokenizer)
  (s0 : state E) d m il pl tl ids0 pm0 tm ll b s' :
  bundle_at s0 d m il pl tl ids0 pm0 tm →
  ExactMatchEvaluator.__call__
    (ExactMatchEvaluator.__init__ model tokenizer "monotonic") d ll s0
  = (Ok b, s') →
  tensors s' !! length (tensors s0) = Some (BoolT pm0) ∧
  ∃ pm', tensors s' !! pl = Some (BoolT pm') ∧
    shape2 pm' = shape2 pm0 ∧ mask_sum pm' = 0.
Proof.
  intros Hb Hcall.
  rewrite (exact_match_enter s0 d m il pl tl ids0 pm0 tm) in Hcall by done.
  cbn [ExactMatchEvaluator._model ExactMatchEvaluator._decoding_strategy
       ExactMatchEvaluator.__init__] in Hcall.
  pose proof (bundle_at_alloc s0 d m il pl tl ids0 pm0 tm (BoolT pm0) Hb) as Hbc.
  fold (cloned s0 pm0) in Hbc.
  pose proof (decode_monotonic_sim model _ d m il pl tl ids0 pm0 tm Hbc) as Hsim.
  destruct (iterate _ _ _) as [st'|e] eqn:Hit.
  2:{ destruct Hsim as (s'' & Hdec).
      rewrite (bind_raise _ _ _ _ _ Hdec) in Hcall. done. }
  destruct Hsim as (s1 & Hdec & Hr).
  rewrite (bind_ok _ _ _ _ _ Hdec) in Hcall.
  pose proof (compare_state (length (tensors (cloned s0 pm0))) ll s1) as Hst.
  rewrite Hcall in Hst. cbn in Hst. subst s1.
  destruct (iterate_monotonic_mask model _ tm _ _ _ Hit) as [Hleft _].
  cbn [d_mask entry_values] in Hleft. split.
  - rewrite (r_frame _ _ _ _ _ Hr).
    + cbn. apply lookup_at_end.
    + cbn. rewrite length_app. cbn. lia.
    + pose proof (bundle_il_lt s0 d m il pl tl ids0 pm0 tm Hb). lia.
    + pose proof (bundle_pl_lt s0 d m il pl tl ids0 pm0 tm Hb). lia.
  - exists (d_mask st'). split; [apply Hr|]. split; [|lia].
    destruct (iterate_columns ids0 (full_like ids0 ignore_label) pm0 _
                (monotonic_step_columns model _ tm ids0 _ pm0)
                _ [] _ _ Hit) as (C & Hinv & _).
    { apply columns_inv_entry. unfold full_like. by rewrite length_fmap. }
    eapply row_update_shape, Hinv.
Qed.

(** X9.  With the monotonic and the iterative strategy, the exact-match
    evaluator never returns true on a batch in which some column is a
    predict position of one example and not of another, when the gold
    labels hold a token id at the predict positions and the ignore label
    elsewhere: a commit writes its column in every row of the output
    buffer, and the comparison is over the whole buffer. *)
Theorem exact_match_batch_never_true (model : Model E) (tokenizer : Tokenizer)
  (s0 : state E) d m il pl tl ids0 pm0 tm ll lab strategy i i' j b s' :
  bundle_at s0 d m il pl tl ids0 pm0 tm →
  tensors s0 !! ll = Some (LongT lab) → ll ≠ il →
  shape2 pm0 = shape2 ids0 →
  resolved pm0 lab →
  ent pm0 i j = Some true → ent pm0 i' j = Some false →
  strategy = "monotonic" ∨ strategy = "iterative" →
  ExactMatchEvaluator.__call__
    (ExactMatchEvaluator.__init__ model tokenizer strategy) d ll s0
  = (Ok b, s') →
  b = false.
Proof.
  intros Hb Hl Hne Hshape Hres Hi Hi' Hs Hcall.
  rewrite (exact_match_enter s0 d m il pl tl ids0 pm0 tm) in Hcall by done.
  cbn [ExactMatchEvaluator._model ExactMatchEvaluator._decoding_strategy
       ExactMatchEvaluator.__init__] in Hcall.
  pose proof (bundle_at_alloc s0 d m il pl tl ids0 pm0 tm (BoolT pm0) Hb) as Hbc.
  fold (cloned s0 pm0) in Hbc.
  assert (∃ s1 st' C, decode model d strategy (cloned s0 pm0)
                      = (Ok (length (tensors (cloned s0 pm0))), s1) ∧
            repr (cloned s0 pm0) il pl s1 st' ∧
            columns_inv C ids0 (full_like ids0 ignore_label) pm0 st')
    as (s1 & st' & C & Hdec & Hr & Hinv).
  { pose proof (columns_inv_entry ids0 (full_like ids0 ignore_label) pm0
                  (trace (cloned s0 pm0))) as Hentry.
    destruct Hs as [->| ->].
    - pose proof (decode_monotonic_sim model _ d m il pl tl ids0 pm0 tm Hbc)
        as Hsim.
      destruct (iterate _ _ _) as [st'|e] eqn:Hit.
      2:{ destruct Hsim as (s'' & Hdec).
          rewrite (bind_raise _ _ _ _ _ Hdec) in Hcall. done. }
      destruct Hsim as (s1 & Hdec & Hr).
      eapply (iterate_columns ids0 _ pm0 _
                (monotonic_step_columns model _ tm ids0 _ pm0)) in Hit.
      + destruct Hit as (C & Hinv & _). by exists s1, st', C.
      + apply Hentry. unfold full_like. by rewrite length_fmap.
    - pose proof (decode_iterative_sim model _ d m il pl tl ids0 pm0 tm Hbc)
        as Hsim.
      destruct (iterate _ _ _) as [st'|e] eqn:Hit.
      2:{ destruct Hsim as (s'' & Hdec).
          rewrite (bind_raise _ _ _ _ _ Hdec) in Hcall. done. }
      destruct Hsim as (s1 & Hdec & Hr).
      eapply (iterate_columns ids0 _ pm0 _
                (iterative_step_columns model _ tm ids0 _ pm0)) in Hit.
      + destruct Hit as (C & Hinv & _). by exists s1, st', C.
      + apply Hentry. unfold full_like. by rewrite length_fmap. }
  rewrite (bind_ok _ _ _ _ _ Hdec) in Hcall.
  rewrite (compare_same_shape _ _ _ (d_out st') lab) in Hcall.
  - injection Hcall as <- _. apply bool_decide_eq_false. intros Heq.
    rewrite <- Heq in Hres.
    pose proof (columns_inv_identical C ids0 pm0 st' Hinv Hres i i' j _ _ Hi Hi').
    done.
  - apply Hr.
  - eapply repr_labels; [exact Hbc|exact Hr| |done].
    cbn. by apply lookup_before_end.
  - destruct Hres as [Hsl _].
    rewrite (row_update_shape _ _ _ _ (ci_out _ _ _ _ _ Hinv)).
    rewrite shape2_full_like. congruence.
Qed.

End ExactMatch.

Lemma labelled_bundle_at ids tm pm am lab :
  bundle_at (labelled_state ids tm pm am lab) 0 toy_bundle 0 2 1 ids pm tm.
Proof.
  constructor; try reflexivity; try done.
  intros k l. rewrite toy_popped. intros [_ <-]%lookup_singleton_Some.
  cbn. lia.
Qed.

(** X7, on two examples whose labels are the predictions of the model. *)
Lemma exact_match_parallel_witness :
  let ids := [[101; 11; 0]; [101; 0; 12]]%Z in
  let tm := [[true; false; false]; [true; false; false]] in
  let pm := [[false; false; true]; [false; true; false]] in
  let lab := [[-100; -100; 3]; [-100; 3; -100]]%Z in
  let s0 := labelled_state ids tm pm [[1; 1; 1]; [1; 1; 1]]%Z lab in
  ∃ s', ExactMatchEvaluator.__call__
          (ExactMatchEvaluator.__init__ toy_model no_tokenizer "parallel") 0 4 s0
        = (Ok true, s') ∧
    length (trace s') = 1 ∧
    ∀ l, l < 5 → tensors s' !! l = tensors s0 !! l.
Proof.
  intros ids tm pm lab s0.
  destruct (exact_match_parallel toy_model no_tokenizer s0 0 toy_bundle 0 2 1
              ids pm tm 4 lab) as (s' & Hcall & Htr & Hd & Hframe).
  - apply labelled_bundle_at.
  - reflexivity.
  - reflexivity.
  - reflexivity.
  - split; [reflexivity|]. left. reflexivity.
  - apply toy_model_shaped.
  - exists s'. split; [|split; [|exact Hframe]].
    + rewrite Hcall. rewrite bool_decide_eq_true_2; [reflexivity|].
      vm_compute. reflexivity.
    + rewrite Htr. reflexivity.
Defined.

(** X8, on the same two examples: after the call the mask of the bundle
    is cleared, the clone at index 5 of the store holds it as it was. *)
Lemma exact_match_consumes_mask_witness :
  let ids := [[101; 11; 0]; [101; 0; 12]]%Z in
  let tm := [[true; false; false]; [true; false; false]] in
  let pm := [[false; false; true]; [false; true; false]] in
  let lab := [[-100; -100; 3]; [-100; 3; -100]]%Z in
  let s0 := labelled_state ids tm pm [[1; 1; 1]; [1; 1; 1]]%Z lab in
  ∃ b s', ExactMatchEvaluator.__call__
            (ExactMatchEvaluator.__init__ toy_model no_tokenizer "monotonic")
            0 4 s0 = (Ok b, s') ∧
    tensors s' !! 5 = Some (BoolT pm) ∧
    ∃ pm', tensors s' !! 2 = Some (BoolT pm') ∧
      shape2 pm' = shape2 pm ∧ mask_sum pm' = 0.
Proof.
  intros ids tm pm lab s0.
  destruct (ExactMatchEvaluator.__call__
              (ExactMatchEvaluator.__init__ toy_model no_tokenizer "monotonic")
              0 4 s0) as [r s'] eqn:Hcall.
  assert (r = Ok false) as ->.
  { apply (f_equal fst) in Hcall. vm_compute in Hcall. congruence. }
  exists false, s'. split; [reflexivity|].
  apply (exact_match_consumes_mask toy_model no_tokenizer s0 0 toy_bundle 0 2 1
           ids pm tm 4 false s').
  - apply labelled_bundle_at.
  - exact Hcall.
Defined.

(** X9, on the same two examples: the labels are what each example should
    predict at its own position, and the evaluator returns false. *)
Lemma exact_match_batch_never_true_witness :
  let ids := [[101; 11; 0]; [101; 0; 12]]%Z in
  let tm := [[true; false; false]; [true; false; false]] in
  let pm := [[false; false; true]; [false; true; false]] in
  let lab := [[-100; -100; 3]; [-100; 3; -100]]%Z in
  let s0 := labelled_state ids tm pm [[1; 1; 1]; [1; 1; 1]]%Z lab in
  ∃ b s', ExactMatchEvaluator.__call__
            (ExactMatchEvaluator.__init__ toy_model no_tokenizer "monotonic")
            0 4 s0 = (Ok b, s') ∧ b = false.
Proof.
  intros ids tm pm lab s0.
  destruct (ExactMatchEvaluator.__call__
              (ExactMatchEvaluator.__init__ toy_model no_tokenizer "monotonic")
              0 4 s0) as [r s'] eqn:Hcall.
  assert (∃ b, r = Ok b) as [b ->].
  { apply (f_equal fst) in Hcall. vm_compute in Hcall. rewrite <- Hcall. eauto. }
  exists b, s'. split; [reflexivity|].
  apply (exact_match_batch_never_true toy_model no_tokenizer s0 0 toy_bundle
           0 2 1 ids pm tm 4 lab "monotonic" 0 1 2 b s').
  - apply labelled_bundle_at.
  - reflexivity.
  - done.
  - reflexivity.
  - split; [reflexivity|]. unfold pm, lab. intros i j b0 H.
    do 2 (destruct i as [|i];
          [do 3 (destruct j as [|j];
                 [cbn in H; injection H as <-; eexists; split;
                  [reflexivity|first [done|reflexivity]]|]);
           cbn in H; done|]);
      cbn in H; done.
  - reflexivity.
  - reflexivity.
  - by left.
  - exact Hcall.
Defined.

(** * The multiple-choice evaluator *)

Section GatherFacts.

Lemma concat_replicate_singleton {A} (n : nat) (x : A) :
  concat (replicate n [x]) = replicate n x.
Proof. induction n as [|n IH]; cbn; [done|]. by rewrite IH. Qed.

Lemma gather_row_tokens (v toks : list Z) :
  Forall (λ z, (0 ≤ z)%Z ∧ Z.to_nat z < length v) toks →
  gather_row v toks = Ok (token_logits toks v).
Proof.
  intros Hin. unfold gather_row, token_logits. apply rmapM_ok.
  eapply Forall_impl; [exact Hin|]. intros z [Hz Hlt]. cbn.
  rewrite decide_True by done.
  destruct (lookup_lt_is_Some_2 v _ Hlt) as [x ->]. done.
Qed.

Lemma gather_last_tokens (rows : list (list Z)) (toks : list Z) :
  Forall (λ v, Forall (λ z, (0 ≤ z)%Z ∧ Z.to_nat z < length v) toks) rows →
  gather_last rows (concat (replicate (length rows) [toks]))
  = Ok (token_logits toks <$> rows).
Proof.
  intros Hin. unfold gather_last. rewrite concat_replicate_singleton.
  rewrite decide_True by (by rewrite length_replicate).
  induction Hin as [|v rows Hv _ IH]; [done|]. cbn -[gather_row].
  rewrite (gather_row_tokens v toks Hv). cbn -[gather_row]. by rewrite IH.
Qed.

Lemma argmax_token_logits (rows : list (list Z)) (toks : list Z) :
  toks ≠ [] →
  rmapM argmax (token_logits toks <$> rows)
  = Ok ((λ v, argmax_total (token_logits toks v)) <$> rows).
Proof.
  intros Hne. induction rows as [|v rows IH]; [done|].
  rewrite !fmap_cons. cbn [rmapM]. rewrite argmax_nonempty.
  - cbn [rbind]. by rewrite IH.
  - unfold token_logits. by destruct toks.
Qed.

(** A column of labels against a row of label tokens. *)
Lemma broadcast_label (z : Z) (toks : list Z) :
  broadcast_with (λ a b : Z, Ok (bool_decide (a = b))) [z] toks
  = Ok ((λ t, bool_decide (z = t)) <$> toks).
Proof.
  assert (rmapM (λ b : Z, Ok (bool_decide (z = b))) toks
          = Ok ((λ t, bool_decide (z = t)) <$> toks)) as Hrow.
  { apply rmapM_ok, Forall_true. done. }
  unfold broadcast_with. case_decide as Hlen; [|done].
  destruct toks as [|t [|? ?]]; done.
Qed.

Lemma eq_tensor_column_row (sel toks : list Z) :
  eq_tensor ((λ z : Z, [z]) <$> sel) [toks]
  = Ok ((λ z, (λ t, bool_decide (z = t)) <$> toks) <$> sel).
Proof.
  assert (rmapM (λ a, broadcast_with (λ a b : Z, Ok (bool_decide (a = b))) a toks)
            ((λ z : Z, [z]) <$> sel)
          = Ok ((λ z, (λ t, bool_decide (z = t)) <$> toks) <$> sel)) as Hrows.
  { induction sel as [|z sel IH]; [done|]. cbn.
    rewrite broadcast_label. cbn. by rewrite IH. }
  unfold eq_tensor, broadcast_with at 1. case_decide as Hlen.
  - destruct sel as [|z [|? ?]];
      first [done | cbn; by rewrite broadcast_label].
  - destruct sel as [|z [|? ?]]; done.
Qed.

Lemma row_nonzero_miss (z : Z) (toks : list Z) o :
  z ∉ toks → row_nonzero o ((λ t, bool_decide (z = t)) <$> toks) = [].
Proof.
  revert o. induction toks as [|t toks IH]; intros o; [done|].
  intros [Hne Hnot]%not_elem_of_cons. cbn.
  rewrite bool_decide_eq_false_2 by done. by apply IH.
Qed.

Lemma row_nonzero_hit (z : Z) (toks : list Z) o k :
  NoDup toks → index_of z toks = Some k →
  row_nonzero o ((λ t, bool_decide (z = t)) <$> toks) = [o + k].
Proof.
  revert o k. induction toks as [|t toks IH]; intros o k; [done|].
  intros [Hnot Hnd]%NoDup_cons. cbn. case_decide as Hz.
  - intros [= <-]. subst t. rewrite bool_decide_eq_true_2 by done.
    rewrite row_nonzero_miss by done. by rewrite Nat.add_0_r.
  - rewrite bool_decide_eq_false_2 by done.
    destruct (index_of z toks) as [k'|] eqn:Hk; [|done]. intros [= <-].
    rewrite (IH (S o) k') by done. cbn. f_equal. lia.
Qed.

Lemma index_of_elem (z : Z) (toks : list Z) :
  z ∈ toks → ∃ k, index_of z toks = Some k.
Proof.
  induction toks as [|t toks IH]; [by intros ?%elem_of_nil|].
  intros Hin. cbn. case_decide as Hz; [by eexists|].
  apply elem_of_cons in Hin as [?|Hin]; [done|].
  destruct (IH Hin) as [k ->]. by eexists.
Qed.

Lemma index_of_lookup (z : Z) (toks : list Z) k :
  index_of z toks = Some k → toks !! k = Some z.
Proof.
  revert k. induction toks as [|t toks IH]; intros k; [done|]. cbn.
  case_decide as Hz.
  - intros [= <-]. by subst.
  - destruct (index_of z toks) as [k'|]; [|done]. intros [= <-]. by apply IH.
Qed.

End GatherFacts.

Section LabelIndices.

Lemma nonzero_from_hits (toks sel : list Z) i :
  NoDup toks → Forall (.∈ toks) sel →
  nonzero_from i ((λ z, (λ t, bool_decide (z = t)) <$> toks) <$> sel)
  = zip (seq i (length sel)) ((λ z, default 0 (index_of z toks)) <$> sel).
Proof.
  intros Hnd Hin. revert i. induction Hin as [|z sel Hz _ IH]; intros i; [done|].
  destruct (index_of_elem z toks Hz) as [k Hk].
  rewrite !fmap_cons. cbn [nonzero_from length seq].
  rewrite (row_nonzero_hit z toks 0 k Hnd Hk), Hk, IH. done.
Qed.

Lemma label_inds_zip (ks : list nat) i n :
  length ks = n →
  (λ p : nat * nat, [Z.of_nat p.2]) <$> zip (seq i n) ks
  = (λ k : nat, [Z.of_nat k]) <$> ks.
Proof.
  intros <-. revert i. induction ks as [|k ks IH]; intros i; [done|].
  cbn. by rewrite IH.
Qed.

Lemma concat_singletons {A} (xs : list A) : concat ((λ x, [x]) <$> xs) = xs.
Proof. induction xs as [|x xs IH]; cbn; [done|]. by rewrite IH. Qed.

Lemma eq_tensor_columns (am ks : list nat) :
  length am = length ks →
  ∃ same, eq_tensor ((λ a : nat, [Z.of_nat a]) <$> am)
            ((λ k : nat, [Z.of_nat k]) <$> ks) = Ok same ∧
          mask_sum same
          = length (filter (λ p : nat * nat, p.1 = p.2) (zip am ks)).
Proof.
  intros Hlen. unfold eq_tensor, broadcast_with at 1.
  rewrite decide_True by (by rewrite !length_fmap).
  revert ks Hlen. induction am as [|a am IH]; intros [|k ks]; try done.
  { intros _. by exists []. }
  intros [= Hlen]. destruct (IH ks Hlen) as (same & Hsame & Hsum).
  exists ([bool_decide (a = k)] :: same). split.
  - rewrite !fmap_cons. cbn [zip_with rmapM fst snd]. rewrite Hsame.
    unfold broadcast_with. cbn. destruct (decide (1 = 1)); cbn;
      do 3 f_equal; apply bool_decide_ext; lia.
  - rewrite mask_sum_cons, Hsum. cbn [zip zip_with]. rewrite filter_cons. cbn.
    case_bool_decide; case_decide; cbn; done.
Qed.

Lemma count_correct_indices (toks : list Z) (rows : list (list Z)) (sel : list Z) :
  NoDup toks → Forall (.∈ toks) sel →
  length (filter (λ p : nat * nat, p.1 = p.2)
            (zip ((λ v, argmax_total (token_logits toks v)) <$> rows)
                 ((λ z, default 0 (index_of z toks)) <$> sel)))
  = count_correct toks rows sel.
Proof.
  intros Hnd Hin. unfold count_correct. revert rows.
  induction Hin as [|z sel Hz _ IH]; intros [|v rows]; try done.
  rewrite !fmap_cons. cbn [zip zip_with]. rewrite !filter_cons. cbn [fst snd].
  destruct (index_of_elem z toks Hz) as [k Hk]. rewrite Hk. cbn [default].
  pose proof (index_of_lookup z toks k Hk) as Hlk.
  unfold predicted_label at 1.
  case_decide as H1; case_decide as H2; cbn [length]; rewrite ?IH; try done.
  - rewrite H1 in H2. done.
  - destruct H1. by eapply NoDup_lookup.
Qed.

Lemma count_correct_le (toks : list Z) (rows : list (list Z)) (sel : list Z) :
  count_correct toks rows sel ≤ length sel.
Proof.
  unfold count_correct. etrans; [apply length_filter|].
  rewrite length_zip. lia.
Qed.

End LabelIndices.

Section MultipleChoice.
Context {E F : Type}.
Variable log_softmax : list Z → list F.
Variable neg_mean : list F → F.
Hypothesis log_softmax_length : ∀ v, length (log_softmax v) = length v.

(** A forward pass over a bundle whose trigger mask fits. *)
Lemma forward_run (model : Model E) (s0 : state E) d m il pl tl ids0 pm0 tm
  labels :
  bundle_at s0 d m il pl tl ids0 pm0 tm →
  triggers_fit model tm ids0 →
  ∃ s1, forward_w_triggers model d labels s0
        = (Ok (forward model (kwargs_for model (rest_kwargs s0 m) tm ids0)
                 labels), s1) ∧
    tensors s0 `prefix_of` tensors s1 ∧ dicts s0 `prefix_of` dicts s1 ∧
    trace s1 = trace s0
               ++ [Forward (kwargs_for model (rest_kwargs s0 m) tm ids0) labels].
Proof.
  intros Hb Hfit.
  rewrite (forward_w_triggers_eq model d labels s0 m tl pl il ids0 tm);
    try apply Hb.
  rewrite index_put_fit by done. cbn zeta.
  rewrite kwargs_of_private.
  2:{ intros k l Hl. by destruct (b_others _ _ _ _ _ _ _ _ _ Hb k l Hl). }
  eexists. split; [reflexivity|]. cbn.
  split; [apply prefix_app_r; done|]. split; [apply prefix_app_r; done|done].
Qed.

Lemma gather_last_logp (toks : list Z) (rows : list (list Z)) (sel : list Z) :
  length rows = length sel → Forall (.∈ toks) sel →
  ∃ xs, gather_last (log_softmax <$> (token_logits toks <$> rows))
          ((λ k : nat, [Z.of_nat k])
             <$> ((λ z, default 0 (index_of z toks)) <$> sel))
        = Ok ((λ x, [x]) <$> xs) ∧
        Forall2 (λ (p : list Z * Z) x,
                   log_softmax (token_logits toks p.1)
                     !! default 0 (index_of p.2 toks) = Some x)
          (zip rows sel) xs.
Proof.
  intros Hlen Hin. unfold gather_last.
  rewrite decide_True by (rewrite !length_fmap; lia).
  revert rows Hlen. induction Hin as [|z sel Hz _ IH]; intros [|v rows]; try done.
  { intros _. by exists []. }
  intros [= Hlen]. destruct (IH rows Hlen) as (xs & Hxs & Hall).
  destruct (index_of_elem z toks Hz) as [k Hk].
  assert (k < length (log_softmax (token_logits toks v))) as Hlt.
  { rewrite log_softmax_length. unfold token_logits. rewrite length_fmap.
    eapply lookup_lt_Some, index_of_lookup, Hk. }
  destruct (lookup_lt_is_Some_2 _ k Hlt) as [x Hx].
  exists (x :: xs). split.
  - rewrite !fmap_cons, Hk. cbn [default zip_with rmapM fst snd].
    unfold gather_row at 1. cbn [rmapM]. rewrite decide_True by lia.
    rewrite Nat2Z.id. change (id k) with k. rewrite Hx. cbn [rbind].
    rewrite Hxs. done.
  - constructor; [|done]. cbn. by rewrite Hk.
Qed.

(** X10.  On a bundle of consistent shapes, with distinct label tokens
    that lie in the vocabulary and gold labels that are label tokens at
    every predict position, the multiple-choice evaluator returns as number
    of correct predictions the number of predict positions at which the
    label token with the largest logit (the first one among equals) is the
    gold label, and as loss the negated mean, over the predict positions,
    of the log-probability of the gold label among the label tokens.  The
    model is invoked once, without labels, and no tensor of the caller
    changes. *)
Theorem multiple_choice_counts_correct (model : Model E) (tokenizer : Tokenizer)
  (label_map : list (string * string)) (toks : list Z)
  (s0 : state E) d m il pl tl ids0 pm0 tm ll lab :
  bundle_at s0 d m il pl tl ids0 pm0 tm →
  tensors s0 !! ll = Some (LongT lab) →
  shape2 pm0 = shape2 ids0 →
  shape2 lab = shape2 ids0 →
  triggers_fit model tm ids0 →
  model_shaped model →
  toks ≠ [] → NoDup toks →
  let rows := concat (zip_with select_row pm0
                        (logits_for model (rest_kwargs s0 m) tm ids0)) in
  let sel := concat (zip_with select_row pm0 lab) in
  Forall (λ v, Forall (λ z, (0 ≤ z)%Z ∧ Z.to_nat z < length v) toks) rows →
  Forall (.∈ toks) sel →
  ∃ xs s',
    MultipleChoiceEvaluator.__call__ log_softmax neg_mean
      {| MultipleChoiceEvaluator._model := model;
         MultipleChoiceEvaluator._tokenizer := tokenizer;
         MultipleChoiceEvaluator._label_map := label_map;
         MultipleChoiceEvaluator._label_tokens := [toks] |} d ll s0
    = (Ok (neg_mean xs, count_correct toks rows sel), s') ∧
    Forall2 (λ (p : list Z * Z) x,
               log_softmax (token_logits toks p.1)
                 !! default 0 (index_of p.2 toks) = Some x)
      (zip rows sel) xs ∧
    count_correct toks rows sel ≤ mask_sum pm0 ∧
    trace s' = trace s0
               ++ [Forward (kwargs_for model (rest_kwargs s0 m) tm ids0) None] ∧
    dicts s' !! d = Some m ∧
    ∀ l, l < length (tensors s0) → tensors s' !! l = tensors s0 !! l.
Proof.
  intros Hb Hl Hshape Hlab Hfit Hmodel Hne Hnd rows sel Hvocab Hgold.
  destruct (forward_run model s0 d m il pl tl ids0 pm0 tm None Hb Hfit)
    as (s1 & Hf & Hpt & Hpd & Htr).
  destruct (logits_for_shape model (rest_kwargs s0 m) tm ids0 Hmodel Hfit)
    as [Hls _].
  assert (length rows = mask_sum pm0) as Hrows.
  { apply length_masked. congruence. }
  assert (length sel = mask_sum pm0) as Hsel.
  { apply length_masked. congruence. }
  destruct (gather_last_logp toks rows sel) as (xs & Hxs & Hall);
    [lia|done|].
  destruct (eq_tensor_columns
              ((λ v, argmax_total (token_logits toks v)) <$> rows)
              ((λ z, default 0 (index_of z toks)) <$> sel))
    as (same & Hsame & Hsum).
  { rewrite !length_fmap. lia. }
  rewrite count_correct_indices in Hsum by done.
  exists xs, s1. split; [|split; [done|split; [|split; [done|split]]]].
  - unfold MultipleChoiceEvaluator.__call__.
    cbn [MultipleChoiceEvaluator._model MultipleChoiceEvaluator._label_tokens].
    rewrite (bind_ok _ _ _ _ _ (dict_get_eq _ _ _ _ _
               (b_dict _ _ _ _ _ _ _ _ _ Hb)
               (b_predict_mask _ _ _ _ _ _ _ _ _ Hb))).
    rewrite (bind_ok _ _ _ _ _ (load_long_eq _ _ _ Hl)).
    rewrite (bind_ok _ _ _ _ _ (load_bool_eq _ _ _ (b_pm _ _ _ _ _ _ _ _ _ Hb))).
    rewrite bind_lift. unfold masked_select at 1.
    rewrite decide_True by congruence. cbv beta iota.
    rewrite (bind_ok _ _ _ _ _ Hf).
    assert (tensors s1 !! pl = Some (BoolT pm0)) as Hpm1.
    { eapply prefix_lookup_Some; [apply Hb|done]. }
    rewrite (bind_ok _ _ _ _ _ (load_bool_eq _ _ _ Hpm1)).
    rewrite bind_lift.
    change (out_logits (forward model _ None))
      with (logits_for model (rest_kwargs s0 m) tm ids0).
    unfold masked_select. rewrite decide_True by congruence. cbv beta iota.
    fold rows sel. rewrite bind_lift, length_fmap.
    replace (length sel) with (length rows) by lia.
    rewrite gather_last_tokens by done. cbv beta iota.
    rewrite bind_lift, argmax_token_logits by done. cbv beta iota.
    rewrite bind_lift, eq_tensor_column_row. cbv beta iota.
    unfold nonzero. rewrite nonzero_from_hits by done.
    rewrite label_inds_zip by (by rewrite length_fmap).
    rewrite bind_lift, Hxs. cbv beta iota.
    rewrite bind_lift, Hsame. cbv beta iota.
    unfold ret. by rewrite concat_singletons, Hsum.
  - pose proof (count_correct_le toks rows sel). lia.
  - by eapply prefix_lookup_Some; [apply Hb|].
  - intros l Hlt. destruct (lookup_lt_is_Some_2 _ l Hlt) as [x Hx].
    rewrite Hx. by eapply prefix_lookup_Some.
Qed.

End MultipleChoice.

(** X10, on two examples with the label tokens 2 and 3 and the gold label
    2 at the predict position of both: the first example is predicted
    right, the second wrong.  Log-probabilities are the logits themselves
    and the loss is the negated sum. *)
Lemma multiple_choice_counts_correct_witness :
  let ids := [[-20; 0; 0]; [5; 0; 0]]%Z in
  let tm := [[false; true; false]; [false; true; false]] in
  let pm := [[false; false; true]; [false; false; true]] in
  let lab := [[-100; -100; 2]; [-100; -100; 2]]%Z in
  let s0 := labelled_state ids tm pm [[1; 1; 1]; [1; 1; 1]]%Z lab in
  ∃ s', MultipleChoiceEvaluator.__call__ (λ v : list Z, v)
          (λ xs : list Z, (- foldr Z.add 0 xs)%Z)
          {| MultipleChoiceEvaluator._model := toy_model;
             MultipleChoiceEvaluator._tokenizer := no_tokenizer;
             MultipleChoiceEvaluator._label_map := [("0", "no"); ("1", "yes")];
             MultipleChoiceEvaluator._label_tokens := [[2; 3]%Z] |} 0 4 s0
        = (Ok ((-4)%Z, 1), s') ∧
    length (trace s') = 1 ∧
    ∀ l, l < 5 → tensors s' !! l = tensors s0 !! l.
Proof.
  intros ids tm pm lab s0.
  destruct (multiple_choice_counts_correct (λ v : list Z, v)
              (λ xs : list Z, (- foldr Z.add 0 xs)%Z) (λ v, eq_refl)
              toy_model no_tokenizer [("0", "no"); ("1", "yes")] [2; 3]%Z
              s0 0 toy_bundle 0 2 1 ids pm tm 4 lab)
    as (xs & s' & Hcall & Hxs & Hle & Htr & Hd & Hframe).
  - apply labelled_bundle_at.
  - reflexivity.
  - reflexivity.
  - reflexivity.
  - split; [reflexivity|]. left. reflexivity.
  - apply toy_model_shaped.
  - done.
  - by apply (bool_decide_unpack _).
  - assert (concat (zip_with select_row pm
                      (logits_for toy_model (rest_kwargs s0 toy_bundle) tm ids))
            = [[0; 0; 2; -13]; [0; 0; 2; 12]]%Z) as ->.
    { vm_compute. reflexivity. }
    repeat constructor; cbn; lia.
  - repeat constructor.
  - exists s'. split; [|split; [|exact Hframe]].
    + rewrite Hcall. f_equal. f_equal.
      assert (concat (zip_with select_row pm
                        (logits_for toy_model (rest_kwargs s0 toy_bundle) tm ids))
              = [[0; 0; 2; -13]; [0; 0; 2; 12]]%Z) as Hrows.
      { vm_compute. reflexivity. }
      rewrite Hrows in Hxs |- *. cbn in Hxs.
      inversion Hxs as [|? x1 ? xs1 H1 Hxs1]; subst.
      inversion Hxs1 as [|? x2 ? xs2 H2 Hxs2]; subst.
      inversion Hxs2; subst.
      vm_compute in H1. vm_compute in H2.
      injection H1 as <-. injection H2 as <-.
      vm_compute. reflexivity.
    + rewrite Htr. reflexivity.
Defined.

Section MultipleChoiceInit.
Context {E : Type}.

Lemma rows_singletons (t : list (list Z)) :
  Forall (λ r, length r = 1) t → t = (λ z : Z, [z]) <$> concat t.
Proof.
  induction 1 as [|r t Hr _ IH]; [done|].
  destruct r as [|z [|? ?]]; try done. cbn. by rewrite <- IH.
Qed.

(** X11.  The multiple-choice evaluator is created only when the tokenizer
    gives every label word exactly one token; its label tokens are then a
    single row that lists these tokens in the order of the label map.
    When the words have another number of tokens, the constructor raises a
    value error. *)
Theorem multiple_choice_init (model : Model E) (tokenizer : Tokenizer)
  (label_map : list (string * string)) (t : list (list Z)) :
  tokenizer (snd <$> label_map) = Ok t →
  Forall (λ r, length r = size1 t) t →
  match MultipleChoiceEvaluator.__init__ model tokenizer label_map with
  | Ok ev =>
      ∃ toks, t = (λ z : Z, [z]) <$> toks ∧ toks ≠ [] ∧
        MultipleChoiceEvaluator._label_tokens ev = [toks] ∧
        MultipleChoiceEvaluator._model ev = model ∧
        MultipleChoiceEvaluator._label_map ev = label_map
  | Raise e => e = ValueError ∧ size1 t ≠ 1
  end.
Proof.
  intros Htok Hrect. unfold MultipleChoiceEvaluator.__init__.
  rewrite Htok. cbn [rbind]. case_decide as Hsize; [done|].
  assert (size1 t = 1) as H1 by (destruct (decide (size1 t = 1)); done).
  rewrite H1 in Hrect. exists (concat t). cbn.
  split; [by apply rows_singletons|]. split; [|done].
  destruct t as [|[|z r] t]; done.
Qed.

End MultipleChoiceInit.

(** X11, on a label map with the words [no] and [yes], of one token each. *)
Lemma multiple_choice_init_witness :
  ∃ ev, MultipleChoiceEvaluator.__init__ toy_model toy_tokenizer
          [("0", "no"); ("1", "yes")] = Ok ev ∧
    MultipleChoiceEvaluator._label_tokens ev = [[2; 3]%Z].
Proof.
  pose proof (multiple_choice_init toy_model toy_tokenizer
                [("0", "no"); ("1", "yes")] [[2]; [3]]%Z eq_refl) as H.
  destruct (MultipleChoiceEvaluator.__init__ toy_model toy_tokenizer
              [("0", "no"); ("1", "yes")]) as [ev|e].
  - destruct H as (toks & Ht & _ & Hl & _); [by repeat constructor|].
    exists ev. split; [done|]. rewrite Hl.
    destruct toks as [|a [|b [|c toks]]]; try done.
    by injection Ht as <- <-.
  - destruct H as [_ H]; [by repeat constructor|]. by destruct H.
Defined.

Section UnknownLabels.

Lemma index_of_None (z : Z) (toks : list Z) : z ∉ toks → index_of z toks = None.
Proof.
  induction toks as [|t toks IH]; [done|].
  intros [Hne Hnot]%not_elem_of_cons. cbn.
  rewrite decide_False by done. by rewrite IH.
Qed.

(** The label indices that [torch.where] finds: one for every gold label
    that is a label token, in the order of the predict positions. *)
Lemma label_inds_known (toks sel : list Z) i :
  NoDup toks →
  (λ p : nat * nat, [Z.of_nat p.2])
    <$> nonzero_from i ((λ z, (λ t, bool_decide (z = t)) <$> toks) <$> sel)
  = (λ k : nat, [Z.of_nat k]) <$> omap (λ z, index_of z toks) sel.
Proof.
  intros Hnd. revert i. induction sel as [|z sel IH]; intros i; [done|].
  rewrite fmap_cons. cbn [nonzero_from omap list_omap].
  rewrite fmap_app, IH. destruct (decide (z ∈ toks)) as [Hz|Hz].
  - destruct (index_of_elem z toks Hz) as [k Hk].
    rewrite (row_nonzero_hit z toks 0 k Hnd Hk), Hk. done.
  - rewrite row_nonzero_miss, index_of_None by done. done.
Qed.

Lemma length_known (toks sel : list Z) :
  length (omap (λ z, index_of z toks) sel)
  = length (filter (λ z, z ∈ toks) sel).
Proof.
  induction sel as [|z sel IH]; [done|].
  cbn [omap list_omap]. rewrite filter_cons.
  destruct (decide (z ∈ toks)) as [Hz|Hz].
  - destruct (index_of_elem z toks Hz) as [k ->]. cbn. by rewrite IH.
  - by rewrite index_of_None.
Qed.

Lemma omap_known (toks sel : list Z) :
  omap (λ z, index_of z toks) sel
  = omap (λ z, index_of z toks) (filter (λ z, z ∈ toks) sel).
Proof.
  induction sel as [|z sel IH]; [done|].
  cbn [omap list_omap]. rewrite filter_cons.
  destruct (decide (z ∈ toks)) as [Hz|Hz].
  - cbn [omap list_omap]. by rewrite IH.
  - by rewrite index_of_None.
Qed.

Lemma rmapM_raise {A B} (P : exn → Prop) (f : A → result B) l e :
  (∀ x e', f x = Raise e' → P e') → rmapM f l = Raise e → P e.
Proof.
  intros Hf. induction l as [|x l IH]; cbn; [done|].
  destruct (f x) as [y|e'] eqn:Hx; cbn.
  - destruct (rmapM f l) as [ys|e'']; cbn; [done|].
    intros [= <-]. by apply IH.
  - intros [= <-]. by eapply Hf.
Qed.

Lemma gather_last_error {A} (input : list (list A)) index e :
  gather_last input index = Raise e → e = RuntimeError.
Proof.
  unfold gather_last. case_decide; [|by intros [= <-]].
  apply (rmapM_raise (λ e, e = RuntimeError)). intros [row idx] e'. cbn.
  apply (rmapM_raise (λ e, e = RuntimeError)). intros z e''.
  case_decide; [|by intros [= <-]].
  destruct (row !! Z.to_nat z); [done|]. by intros [= <-].
Qed.

Lemma eq_tensor_columns_mismatch (am ks : list nat) :
  length am ≠ length ks → length am ≠ 1 → length ks ≠ 1 →
  eq_tensor ((λ a : nat, [Z.of_nat a]) <$> am)
    ((λ k : nat, [Z.of_nat k]) <$> ks) = Raise RuntimeError.
Proof.
  intros Hne Ha Hk. unfold eq_tensor, broadcast_with at 1.
  rewrite decide_False by (by rewrite !length_fmap).
  destruct am as [|a [|a' am]], ks as [|k [|k' ks]]; done.
Qed.

Lemma eq_tensor_columns_single (am : list nat) (k : nat) :
  length am ≠ 1 →
  ∃ same, eq_tensor ((λ a : nat, [Z.of_nat a]) <$> am) [[Z.of_nat k]] = Ok same ∧
          mask_sum same = length (filter (λ a, a = k) am).
Proof.
  intros Ha.
  assert (∃ same,
            rmapM (λ a, broadcast_with (λ a b : Z, Ok (bool_decide (a = b)))
                          a [Z.of_nat k])
              ((λ a : nat, [Z.of_nat a]) <$> am) = Ok same ∧
            mask_sum same = length (filter (λ a, a = k) am))
    as (same & Hsame & Hsum).
  { clear Ha. induction am as [|a am (same & Hsame & Hsum)]; [by exists []|].
    exists ([bool_decide (a = k)] :: same). split.
    - rewrite fmap_cons. cbn [rmapM]. rewrite Hsame.
      unfold broadcast_with. cbn. destruct (decide (1 = 1)); cbn;
        do 3 f_equal; apply bool_decide_ext; lia.
    - rewrite mask_sum_cons, Hsum, filter_cons. cbn.
      case_bool_decide; case_decide; cbn; done. }
  exists same. split; [|done].
  unfold eq_tensor, broadcast_with at 1.
  rewrite decide_False by (by rewrite length_fmap).
  destruct am as [|a [|a' am]]; done.
Qed.

End UnknownLabels.

Section MultipleChoiceEdges.
Context {E F : Type}.
Variable log_softmax : list Z → list F.
Variable neg_mean : list F → F.
Hypothesis log_softmax_length : ∀ v, length (log_softmax v) = length v.

(** The call up to the label indices, whatever the gold labels are. *)
Lemma multiple_choice_run (model : Model E) (tokenizer : Tokenizer)
  (label_map : list (string * string)) (toks : list Z)
  (s0 : state E) d m il pl tl ids0 pm0 tm ll lab :
  bundle_at s0 d m il pl tl ids0 pm0 tm →
  tensors s0 !! ll = Some (LongT lab) →
  shape2 pm0 = shape2 ids0 →
  shape2 lab = shape2 ids0 →
  triggers_fit model tm ids0 →
  model_shaped model →
  toks ≠ [] → NoDup toks →
  let rows := concat (zip_with select_row pm0
                        (logits_for model (rest_kwargs s0 m) tm ids0)) in
  let sel := concat (zip_with select_row pm0 lab) in
  Forall (λ v, Forall (λ z, (0 ≤ z)%Z ∧ Z.to_nat z < length v) toks) rows →
  ∃ s1,
    MultipleChoiceEvaluator.__call__ log_softmax neg_mean
      {| MultipleChoiceEvaluator._model := model;
         MultipleChoiceEvaluator._tokenizer := tokenizer;
         MultipleChoiceEvaluator._label_map := label_map;
         MultipleChoiceEvaluator._label_tokens := [toks] |} d ll s0
    = (let label_inds := (λ k : nat, [Z.of_nat k])
                           <$> omap (λ z, index_of z toks) sel in
       rbind (gather_last (log_softmax <$> (token_logits toks <$> rows))
                label_inds) (λ picked,
       rbind (eq_tensor
                ((λ a : nat, [Z.of_nat a])
                   <$> ((λ v, argmax_total (token_logits toks v)) <$> rows))
                label_inds) (λ same,
       Ok (neg_mean (concat picked), mask_sum same))), s1) ∧
    length rows = length sel ∧
    trace s1 = trace s0
               ++ [Forward (kwargs_for model (rest_kwargs s0 m) tm ids0) None].
Proof.
  intros Hb Hl Hshape Hlab Hfit Hmodel Hne Hnd rows sel Hvocab.
  destruct (forward_run model s0 d m il pl tl ids0 pm0 tm None Hb Hfit)
    as (s1 & Hf & Hpt & Hpd & Htr).
  destruct (logits_for_shape model (rest_kwargs s0 m) tm ids0 Hmodel Hfit)
    as [Hls _].
  assert (length rows = mask_sum pm0) as Hrows.
  { apply length_masked. congruence. }
  assert (length sel = mask_sum pm0) as Hsel.
  { apply length_masked. congruence. }
  exists s1. split; [|split; [lia|done]].
  unfold MultipleChoiceEvaluator.__call__.
  cbn [MultipleChoiceEvaluator._model MultipleChoiceEvaluator._label_tokens].
  rewrite (bind_ok _ _ _ _ _ (dict_get_eq _ _ _ _ _
             (b_dict _ _ _ _ _ _ _ _ _ Hb)
             (b_predict_mask _ _ _ _ _ _ _ _ _ Hb))).
  rewrite (bind_ok _ _ _ _ _ (load_long_eq _ _ _ Hl)).
  rewrite (bind_ok _ _ _ _ _ (load_bool_eq _ _ _ (b_pm _ _ _ _ _ _ _ _ _ Hb))).
  rewrite bind_lift. unfold masked_select at 1.
  rewrite decide_True by congruence. cbv beta iota.
  rewrite (bind_ok _ _ _ _ _ Hf).
  assert (tensors s1 !! pl = Some (BoolT pm0)) as Hpm1.
  { eapply prefix_lookup_Some; [apply Hb|done]. }
  rewrite (bind_ok _ _ _ _ _ (load_bool_eq _ _ _ Hpm1)).
  rewrite bind_lift.
  change (out_logits (forward model _ None))
    with (logits_for model (rest_kwargs s0 m) tm ids0).
  unfold masked_select. rewrite decide_True by congruence. cbv beta iota.
  fold rows sel. rewrite bind_lift, length_fmap.
  replace (length sel) with (length rows) by lia.
  rewrite gather_last_tokens by done. cbv beta iota.
  rewrite bind_lift, argmax_token_logits by done. cbv beta iota.
  rewrite bind_lift, eq_tensor_column_row. cbv beta iota.
  unfold nonzero. rewrite label_inds_known by done. cbv zeta.
  rewrite bind_lift.
  destruct (gather_last _ _) as [picked|e]; cbn [rbind]; [|done].
  rewrite bind_lift.
  destruct (eq_tensor _ _) as [same|e]; cbn [rbind]; done.
Qed.

(** X12.  When the number of predict positions whose gold label is a label
    token is neither the number of predict positions nor one, and there is
    more than one predict position, the multiple-choice evaluator raises
    the shape error of a tensor operation, after the forward pass. *)
Theorem multiple_choice_label_mismatch (model : Model E) (tokenizer : Tokenizer)
  (label_map : list (string * string)) (toks : list Z)
  (s0 : state E) d m il pl tl ids0 pm0 tm ll lab :
  bundle_at s0 d m il pl tl ids0 pm0 tm →
  tensors s0 !! ll = Some (LongT lab) →
  shape2 pm0 = shape2 ids0 →
  shape2 lab = shape2 ids0 →
  triggers_fit model tm ids0 →
  model_shaped model →
  toks ≠ [] → NoDup toks →
  let rows := concat (zip_with select_row pm0
                        (logits_for model (rest_kwargs s0 m) tm ids0)) in
  let sel := concat (zip_with select_row pm0 lab) in
  Forall (λ v, Forall (λ z, (0 ≤ z)%Z ∧ Z.to_nat z < length v) toks) rows →
  length (filter (λ z, z ∈ toks) sel) ≠ length sel →
  length (filter (λ z, z ∈ toks) sel) ≠ 1 →
  length sel ≠ 1 →
  ∃ s',
    MultipleChoiceEvaluator.__call__ log_softmax neg_mean
      {| MultipleChoiceEvaluator._model := model;
         MultipleChoiceEvaluator._tokenizer := tokenizer;
         MultipleChoiceEvaluator._label_map := label_map;
         MultipleChoiceEvaluator._label_tokens := [toks] |} d ll s0
    = (Raise RuntimeError, s') ∧
    trace s' = trace s0
               ++ [Forward (kwargs_for model (rest_kwargs s0 m) tm ids0) None].
Proof.
  intros Hb Hl Hshape Hlab Hfit Hmodel Hne Hnd rows sel Hvocab HM HM1 HN1.
  destruct (multiple_choice_run model tokenizer label_map toks s0 d m il pl tl
              ids0 pm0 tm ll lab) as (s1 & Hrun & Hlen & Htr); try done.
  fold rows sel in Hrun, Hlen. exists s1. split; [|done].
  rewrite Hrun. cbv zeta. f_equal.
  destruct (gather_last _ _) as [picked|e] eqn:Hg; cbn [rbind].
  - rewrite eq_tensor_columns_mismatch; [done|..];
      rewrite ?length_fmap, ?length_known; lia.
  - f_equal. by eapply gather_last_error.
Qed.

(** X13.  When exactly one predict position among two or more has a gold
    label that is a label token, the multiple-choice evaluator returns
    without an error: the single label index is broadcast, so that the
    prediction at every predict position is counted as correct when it is
    this one label, and the loss is taken at the first predict position,
    wherever the label stands. *)
Theorem multiple_choice_single_known_label (model : Model E)
  (tokenizer : Tokenizer) (label_map : list (string * string)) (toks : list Z)
  (s0 : state E) d m il pl tl ids0 pm0 tm ll lab z :
  bundle_at s0 d m il pl tl ids0 pm0 tm →
  tensors s0 !! ll = Some (LongT lab) →
  shape2 pm0 = shape2 ids0 →
  shape2 lab = shape2 ids0 →
  triggers_fit model tm ids0 →
  model_shaped model →
  toks ≠ [] → NoDup toks →
  let rows := concat (zip_with select_row pm0
                        (logits_for model (rest_kwargs s0 m) tm ids0)) in
  let sel := concat (zip_with select_row pm0 lab) in
  Forall (λ v, Forall (λ z, (0 ≤ z)%Z ∧ Z.to_nat z < length v) toks) rows →
  filter (λ z, z ∈ toks) sel = [z] →
  2 ≤ length sel →
  ∃ v0 k x s',
    rows !! 0 = Some v0 ∧ index_of z toks = Some k ∧
    log_softmax (token_logits toks v0) !! k = Some x ∧
    MultipleChoiceEvaluator.__call__ log_softmax neg_mean
      {| MultipleChoiceEvaluator._model := model;
         MultipleChoiceEvaluator._tokenizer := tokenizer;
         MultipleChoiceEvaluator._label_map := label_map;
         MultipleChoiceEvaluator._label_tokens := [toks] |} d ll s0
    = (Ok (neg_mean [x],
           length (filter (λ v, predicted_label toks v = Some z) rows)), s').
Proof.
  intros Hb Hl Hshape Hlab Hfit Hmodel Hne Hnd rows sel Hvocab Hone HN.
  destruct (multiple_choice_run model tokenizer label_map toks s0 d m il pl tl
              ids0 pm0 tm ll lab) as (s1 & Hrun & Hlen & Htr); try done.
  fold rows sel in Hrun, Hlen.
  assert (z ∈ toks) as Hz.
  { assert (z ∈ filter (λ z, z ∈ toks) sel) as Hin by (rewrite Hone; left).
    by apply list_elem_of_filter in Hin as [? _]. }
  destruct (index_of_elem z toks Hz) as [k Hk].
  pose proof (index_of_lookup z toks k Hk) as Hlk.
  assert (omap (λ z, index_of z toks) sel = [k]) as Hks.
  { rewrite omap_known, Hone. cbn. by rewrite Hk. }
  rewrite Hks in Hrun. cbv zeta in Hrun.
  destruct rows as [|v0 rows'] eqn:Hrows; [cbn in Hlen; lia|].
  assert (k < length (log_softmax (token_logits toks v0))) as Hlt.
  { rewrite log_softmax_length. unfold token_logits. rewrite length_fmap.
    by eapply lookup_lt_Some. }
  destruct (lookup_lt_is_Some_2 _ k Hlt) as [x Hx].
  exists v0, k, x, s1. split; [done|]. split; [done|]. split; [done|].
  rewrite Hrun.
  assert (gather_last
            (log_softmax <$> (token_logits toks <$> v0 :: rows'))
            ((λ k0 : nat, [Z.of_nat k0]) <$> [k]) = Ok [[x]]) as ->.
  { unfold gather_last. rewrite decide_True by (cbn; lia).
    rewrite !fmap_cons. cbn [fmap list_fmap zip_with rmapM fst snd].
    unfold gather_row. cbn [rmapM]. rewrite decide_True by lia.
    rewrite Nat2Z.id. change (id k) with k. rewrite Hx. cbn.
    by destruct (log_softmax <$> (token_logits toks <$> rows')). }
  cbn [rbind].
  destruct (eq_tensor_columns_single
              ((λ v, argmax_total (token_logits toks v)) <$> v0 :: rows') k)
    as (same & Hsame & Hsum).
  { rewrite length_fmap. cbn in Hlen |- *. lia. }
  change ((λ k0 : nat, [Z.of_nat k0]) <$> [k]) with [[Z.of_nat k]].
  rewrite Hsame. cbn [rbind concat app]. do 3 f_equal. rewrite Hsum.
  clear -Hnd Hlk. induction (v0 :: rows') as [|v vs IH]; [done|].
  rewrite fmap_cons, !filter_cons. unfold predicted_label at 1.
  case_decide as H1; case_decide as H2; cbn [length]; rewrite ?IH; try done.
  - destruct H2. by rewrite H1.
  - destruct H1. by eapply NoDup_lookup.
Qed.

End MultipleChoiceEdges.

(** X12, on two examples whose gold label 9 is not among the label tokens
    2 and 3. *)
Lemma multiple_choice_label_mismatch_witness :
  let ids := [[-20; 0; 0]; [5; 0; 0]]%Z in
  let tm := [[false; true; false]; [false; true; false]] in
  let pm := [[false; false; true]; [false; false; true]] in
  let lab := [[-100; -100; 9]; [-100; -100; 9]]%Z in
  let s0 := labelled_state ids tm pm [[1; 1; 1]; [1; 1; 1]]%Z lab in
  ∃ s', MultipleChoiceEvaluator.__call__ (λ v : list Z, v)
          (λ xs : list Z, (- foldr Z.add 0 xs)%Z)
          {| MultipleChoiceEvaluator._model := toy_model;
             MultipleChoiceEvaluator._tokenizer := no_tokenizer;
             MultipleChoiceEvaluator._label_map := [("0", "no"); ("1", "yes")];
             MultipleChoiceEvaluator._label_tokens := [[2; 3]%Z] |} 0 4 s0
        = (Raise RuntimeError, s') ∧
    length (trace s') = 1.
Proof.
  intros ids tm pm lab s0.
  destruct (multiple_choice_label_mismatch (λ v : list Z, v)
              (λ xs : list Z, (- foldr Z.add 0 xs)%Z)
              toy_model no_tokenizer [("0", "no"); ("1", "yes")] [2; 3]%Z
              s0 0 toy_bundle 0 2 1 ids pm tm 4 lab)
    as (s' & Hcall & Htr).
  - apply labelled_bundle_at.
  - reflexivity.
  - reflexivity.
  - reflexivity.
  - split; [reflexivity|]. left. reflexivity.
  - apply toy_model_shaped.
  - done.
  - by apply (bool_decide_unpack _).
  - assert (concat (zip_with select_row pm
                      (logits_for toy_model (rest_kwargs s0 toy_bundle) tm ids))
            = [[0; 0; 2; -13]; [0; 0; 2; 12]]%Z) as ->.
    { vm_compute. reflexivity. }
    repeat constructor; cbn; lia.
  - vm_compute. done.
  - vm_compute. done.
  - vm_compute. done.
  - exists s'. split; [exact Hcall|]. rewrite Htr. reflexivity.
Defined.

(** X13, on two examples with the gold labels 9 and 2 and the label tokens
    2 and 3: the first example predicts 2 and the second 3, and the call
    returns one correct prediction, with the loss of the first example
    against the label 2. *)
Lemma multiple_choice_single_known_label_witness :
  let ids := [[-20; 0; 0]; [5; 0; 0]]%Z in
  let tm := [[false; true; false]; [false; true; false]] in
  let pm := [[false; false; true]; [false; false; true]] in
  let lab := [[-100; -100; 9]; [-100; -100; 2]]%Z in
  let s0 := labelled_state ids tm pm [[1; 1; 1]; [1; 1; 1]]%Z lab in
  ∃ s', MultipleChoiceEvaluator.__call__ (λ v : list Z, v)
          (λ xs : list Z, (- foldr Z.add 0 xs)%Z)
          {| MultipleChoiceEvaluator._model := toy_model;
             MultipleChoiceEvaluator._tokenizer := no_tokenizer;
             MultipleChoiceEvaluator._label_map := [("0", "no"); ("1", "yes")];
             MultipleChoiceEvaluator._label_tokens := [[2; 3]%Z] |} 0 4 s0
        = (Ok ((-2)%Z, 1), s').
Proof.
  intros ids tm pm lab s0.
  assert (concat (zip_with select_row pm
                    (logits_for toy_model (rest_kwargs s0 toy_bundle) tm ids))
          = [[0; 0; 2; -13]; [0; 0; 2; 12]]%Z) as Hrows.
  { vm_compute. reflexivity. }
  destruct (multiple_choice_single_known_label (λ v : list Z, v)
              (λ xs : list Z, (- foldr Z.add 0 xs)%Z) (λ v, eq_refl)
              toy_model no_tokenizer [("0", "no"); ("1", "yes")] [2; 3]%Z
              s0 0 toy_bundle 0 2 1 ids pm tm 4 lab 2%Z)
    as (v0 & k & x & s' & Hv0 & Hk & Hx & Hcall).
  - apply labelled_bundle_at.
  - reflexivity.
  - reflexivity.
  - reflexivity.
  - split; [reflexivity|]. left. reflexivity.
  - apply toy_model_shaped.
  - done.
  - by apply (bool_decide_unpack _).
  - rewrite Hrows. repeat constructor; cbn; lia.
  - vm_compute. reflexivity.
  - vm_compute. lia.
  - exists s'. rewrite Hcall, Hrows. rewrite Hrows in Hv0.
    injection Hv0 as <-. vm_compute in Hk. injection Hk as <-.
    vm_compute in Hx. injection Hx as <-.
    vm_compute. reflexivity.
Defined.
